(** * PupTelemetry: a shallow embedding of the telemetry client

    The repository holds two variants of the class [PupTelemetry]:
    - [telemetry.ts]: peers are reached through a file mailbox ([FileIPC]);
    - the second, unnamed variant: peers are reached through the
      supervisor's REST client ([PupRestClient.sendIpc]).
    The constructor, the watchdog and [sendMainTelemetry] are the same text
    in both; [checkIpc], [emit] and [close] differ.  The two are told apart
    below by a [Strategy].

    JavaScript objects live in a heap of [Obj] records addressed by
    location; every method takes its [this].  Calls into the collaborators
    (REST client, file mailbox, console, event emitter) append to a
    chronological [log]; whether such a call returns or throws is read from
    the [Host].  [async] functions are cut at their [await]s into a start
    and a continuation, and the event loop is a step function. *)

From Stdlib Require Import ZArith QArith Lqa Lia Bool String Ascii List.
From stdpp Require Import base list strings.
Import ListNotations.
Open Scope string_scope.
Set Warnings "-register-all".

(** ** JavaScript numbers, as far as the constructor looks at them *)

(** A [number] is NaN, an infinity or a finite value; finite doubles are
    rationals, and the only operations the code applies to the interval
    ([!x], [x < 1], [x > 180], [x * 1000]) are exact on them. *)
Inductive Number :=
| NaN
| PosInf
| NegInf
| Fin (q : Q).

Definition Qlt_bool (a b : Q) : bool := negb (Qle_bool b a).

(** [!x] on a number: true on NaN and on (either) zero. *)
Definition num_falsy (x : Number) : bool :=
  match x with
  | NaN => true
  | Fin q => Qeq_bool q 0
  | PosInf | NegInf => false
  end.

(** [x < y]: false as soon as one side is NaN. *)
Definition num_lt (x y : Number) : bool :=
  match x, y with
  | NaN, _ | _, NaN => false
  | PosInf, _ => false
  | _, NegInf => false
  | NegInf, _ => true
  | Fin _, PosInf => true
  | Fin a, Fin b => Qlt_bool a b
  end.

(** [x > y] is [y < x]. *)
Definition num_gt (x y : Number) : bool := num_lt y x.

(** [x * k] for a positive finite [k]. *)
Definition num_scale (x : Number) (k : Q) : Number :=
  match x with
  | Fin q => Fin (q * k)
  | other => other
  end.

Definition num_of_Z (z : Z) : Number := Fin (inject_Z z).

(** Lines 70-72 of the constructor:
    [if (!intervalSeconds || intervalSeconds < 1) intervalSeconds = 1;]
    [if (intervalSeconds > 180) intervalSeconds = 180;] *)
Definition clampInterval (intervalSeconds : Number) : Number :=
  let intervalSeconds :=
    if num_falsy intervalSeconds || num_lt intervalSeconds (num_of_Z 1)
    then num_of_Z 1 else intervalSeconds in
  let intervalSeconds :=
    if num_gt intervalSeconds (num_of_Z 180)
    then num_of_Z 180 else intervalSeconds in
  intervalSeconds.

(** The default parameter [intervalSeconds = 5]: an omitted (or
    [undefined]) argument is replaced by 5 before the body runs. *)
Definition defaultInterval (arg : option Number) : Number :=
  match arg with
  | Some n => n
  | None => num_of_Z 5
  end.

(** The field initializer [private intervalSeconds = 15]. *)
Definition fieldInitInterval : Number := num_of_Z 15.

(** ** JavaScript values carried as event data *)

Inductive Value :=
| VUndefined
| VNull
| VBool (b : bool)
| VNum (z : Z)
| VStr (s : string)
| VArr (items : list Value)
| VObj (fields : list (string * Value)).

Inductive Error :=
| SyntaxError
| TypeError
| HostError (what : string)
| ListenerError.

Inductive Outcome (A : Type) :=
| Returns (a : A)
| Throws (e : Error).
Arguments Returns {A} a.
Arguments Throws {A} e.

(** Truthiness of a string-or-undefined, as [getEnv] returns it. *)
Definition truthy_str (s : option string) : bool :=
  match s with
  | Some s => negb (String.eqb s "")
  | None => false
  end.

Definition truthy (v : Value) : bool :=
  match v with
  | VUndefined | VNull => false
  | VBool b => b
  | VNum z => negb (Z.eqb z 0)
  | VStr s => negb (String.eqb s "")
  | VArr _ | VObj _ => true
  end.

Definition is_undefined (v : Value) : bool :=
  match v with
  | VUndefined => true
  | _ => false
  end.

Fixpoint assoc (k : string) (fields : list (string * Value)) : Value :=
  match fields with
  | [] => VUndefined
  | (k', v) :: rest => if String.eqb k k' then v else assoc k rest
  end.

(** [v.k]: a TypeError on [null] and [undefined], the property of an
    object, [undefined] on anything else (no value the model builds has an
    own property named like the ones read here). *)
Definition get_prop (v : Value) (k : string) : Outcome Value :=
  match v with
  | VUndefined | VNull => Throws TypeError
  | VObj fields => Returns (assoc k fields)
  | _ => Returns VUndefined
  end.

(** [v?.k] *)
Definition get_prop_opt (v : Value) (k : string) : Outcome Value :=
  match v with
  | VUndefined | VNull => Returns VUndefined
  | _ => get_prop v k
  end.

(** [a === b] between a value and a string-or-undefined. *)
Definition strict_eq_str (a : Value) (b : option string) : bool :=
  match a, b with
  | VStr x, Some y => String.eqb x y
  | VUndefined, None => true
  | _, _ => false
  end.

(** ** Collaborators *)

Inductive Runtime := Deno | Node | Bun | OtherRuntime.

Record MemoryUsage := mkMemoryUsage {
  external : option Z;
  heapTotal : Z;
  heapUsed : Z;
  rss : Z
}.

(** A [PupRestClient] is known by the arguments it was built with. *)
Record Client := mkClient {
  baseUrl : string;
  token : string;
  eventStream : bool
}.

(** What a listener registered with [on] does when it is invoked, as far
    as the instance can tell: it returns, it throws, or it calls the
    public surface of the instance it holds, one call after the other.
    A listener it registers or removes is named by the identity of the
    function ([ident]). *)
Inductive Handler :=
| HNoop
| HThrow
| HClose
| HEmit (targetProcessId event : string) (eventData : Value)
| HOn (event : string) (ident : nat) (body : Handler)
| HOff (event : string) (ident : nat)
| HNew (arg : option Number)
| HSeq (first second : Handler).

(** A function given to [on]: its identity and what it does. *)
Record Listener := mkListener {
  ident : nat;
  body : Handler
}.

(** What [setTimeout] returns: a positive number in Deno, an object in
    Node and Bun; truthy in all of them, so [if (this.timer)] holds as
    soon as the field is set. *)
Definition Handle := positive.

(** The calls the class makes into its collaborators. *)
Inductive Call :=
| NewRestClient (c : Client)
| SendTelemetry (c : Client) (data : Value)
| SendIpc (c : Client) (target event : string) (eventData : Value)
| ClientOn (c : Client) (event : string)
| ClientClose (c : Client)
| NewFileIPC (path : string)
| IpcReceiveData (path : string)
| IpcSendData (path : string) (text : string)
| IpcClose (path : string) (remove : bool)
| EventsEmit (name : Value) (data : Value)
| EventsClose
| ConsoleError (e : Error)
| SetTimeout (id : Handle) (delay : Number)
| UnhandledRejection (e : Error).

(** Everything outside the class: the environment, the file system, the
    runtime's probes, the JSON built-ins and the behaviour of the REST
    client and the file mailbox ([responds]). *)
Record Host := mkHost {
  CurrentRuntime : Runtime;
  getEnv : string -> Outcome (option string);
  isDir : string -> Outcome bool;
  cwd : Outcome string;
  memoryUsage : Outcome MemoryUsage;
  now : string;
  JSON_parse : string -> Outcome Value;
  JSON_stringify : Value -> Outcome string;
  responds : Call -> Outcome unit
}.

(** A message of the file mailbox; [data] may be [null]. *)
Record Message := mkMessage { data : option string }.

(** ** Instances, the heap and the event loop *)

Definition loc := nat.

(** The fields of both variants: [ipc?: FileIPC] (known by its path) of
    [telemetry.ts], [ipcClient?: PupRestClient] of the other. *)
Record Obj := mkObj {
  events : list (string * Listener);
  intervalSeconds : Number;
  timer : option Handle;
  aborted : bool;
  ipc : option string;
  ipcClient : option Client
}.

(** A freshly allocated instance, after the field initializers. *)
Definition fieldInit : Obj :=
  {| events := []; intervalSeconds := fieldInitInterval; timer := None;
     aborted := false; ipc := None; ipcClient := None |}.

#[export] Instance Obj_inhabited : Inhabited Obj := populate fieldInit.

Record Timer := mkTimer {
  handle : Handle;
  owner : loc;
  delay : Number;
  unrefd : bool
}.

(** Suspended activations of the [async] methods. *)
Inductive Task :=
| TWatchdog (this : loc)
| TCheckIpc (this : loc) (pupTempPath : string) (pupProcessId : option string)
| TReceive (this : loc) (ipcPath : string).

Record World := mkWorld {
  heap : list Obj;
  instance : option loc;
  timers : list Timer;
  fresh : Handle;
  awaiting : list Task;
  relayHandlers : list (loc * option string);
  log : list Call
}.

Definition initial : World :=
  {| heap := []; instance := None; timers := []; fresh := 1%positive;
     awaiting := []; relayHandlers := []; log := [] |}.

(** Field updates of the two records. *)
Definition set_events (v : list (string * Listener)) (o : Obj) : Obj :=
  mkObj v (intervalSeconds o) (timer o) (aborted o) (ipc o) (ipcClient o).
Definition set_intervalSeconds (v : Number) (o : Obj) : Obj :=
  mkObj (events o) v (timer o) (aborted o) (ipc o) (ipcClient o).
Definition set_timer (v : option Handle) (o : Obj) : Obj :=
  mkObj (events o) (intervalSeconds o) v (aborted o) (ipc o) (ipcClient o).
Definition set_aborted (v : bool) (o : Obj) : Obj :=
  mkObj (events o) (intervalSeconds o) (timer o) v (ipc o) (ipcClient o).
Definition set_ipc (v : option string) (o : Obj) : Obj :=
  mkObj (events o) (intervalSeconds o) (timer o) (aborted o) v (ipcClient o).
Definition set_ipcClient (v : option Client) (o : Obj) : Obj :=
  mkObj (events o) (intervalSeconds o) (timer o) (aborted o) (ipc o) v.

Definition with_heap (v : list Obj) (w : World) : World :=
  mkWorld v (instance w) (timers w) (fresh w) (awaiting w) (relayHandlers w) (log w).
Definition with_instance (v : option loc) (w : World) : World :=
  mkWorld (heap w) v (timers w) (fresh w) (awaiting w) (relayHandlers w) (log w).
Definition with_timers (v : list Timer) (w : World) : World :=
  mkWorld (heap w) (instance w) v (fresh w) (awaiting w) (relayHandlers w) (log w).
Definition with_fresh (v : Handle) (w : World) : World :=
  mkWorld (heap w) (instance w) (timers w) v (awaiting w) (relayHandlers w) (log w).
Definition with_awaiting (v : list Task) (w : World) : World :=
  mkWorld (heap w) (instance w) (timers w) (fresh w) v (relayHandlers w) (log w).
Definition with_relayHandlers (v : list (loc * option string)) (w : World) : World :=
  mkWorld (heap w) (instance w) (timers w) (fresh w) (awaiting w) v (log w).
Definition with_log (v : list Call) (w : World) : World :=
  mkWorld (heap w) (instance w) (timers w) (fresh w) (awaiting w) (relayHandlers w) v.

(** The object at a location; references never dangle in JavaScript, and
    a location outside the heap reads as a fresh object. *)
Definition obj (w : World) (this : loc) : Obj := heap w !!! this.

(** ** Computations: state and exceptions *)

Definition M (A : Type) : Type := World -> Outcome A * World.

Definition ret {A} (a : A) : M A := fun w => (Returns a, w).

Definition throw {A} (e : Error) : M A := fun w => (Throws e, w).

Definition bind {A B} (m : M A) (k : A -> M B) : M B :=
  fun w =>
    match m w with
    | (Returns a, w') => k a w'
    | (Throws e, w') => (Throws e, w')
    end.

Notation "x <- m ;; k" := (bind m (fun x => k))
  (at level 100, m at next level, right associativity).
Notation "m ;; k" := (bind m (fun _ => k))
  (at level 100, right associativity).

(** [try { m } catch (e) { handler e }] *)
Definition try_catch {A} (m : M A) (handler : Error -> M A) : M A :=
  fun w =>
    match m w with
    | (Returns a, w') => (Returns a, w')
    | (Throws e, w') => handler e w'
    end.

(** [try { m } finally { fin }] *)
Definition try_finally {A} (m : M A) (fin : M unit) : M A :=
  fun w =>
    match m w with
    | (o, w') =>
        match fin w' with
        | (Returns _, w'') => (o, w'')
        | (Throws e, w'') => (Throws e, w'')
        end
    end.

(** Continue one way when [m] returns and another when it throws. *)
Definition on_outcome {A B} (m : M A) (returned : A -> M B) (thrown : Error -> M B) : M B :=
  fun w =>
    match m w with
    | (Returns a, w') => returned a w'
    | (Throws e, w') => thrown e w'
    end.

Definition lift {A} (o : Outcome A) : M A := fun w => (o, w).

Definition read (this : loc) : M Obj := fun w => (Returns (obj w this), w).

Definition update (this : loc) (f : Obj -> Obj) : M unit :=
  fun w => (Returns tt, with_heap (<[this := f (obj w this)]> (heap w)) w).

(** A call the model only records. *)
Definition record (c : Call) : M unit :=
  fun w => (Returns tt, with_log (log w ++ [c]) w).

(** The result of an [async] function that nobody awaits: a rejection
    does not reach the caller. *)
Definition detach (m : M unit) : M unit :=
  fun w =>
    match m w with
    | (Returns _, w') => (Returns tt, w')
    | (Throws e, w') => record (UnhandledRejection e) w'
    end.

Definition suspend (t : Task) : M unit :=
  fun w => (Returns tt, with_awaiting (awaiting w ++ [t]) w).

(** The handler a relay client was given, with what its closure holds. *)
Definition subscribe (this : loc) (pupProcessId : option string) : M unit :=
  fun w => (Returns tt, with_relayHandlers (relayHandlers w ++ [(this, pupProcessId)]) w).

(** [new] allocates the object and runs the field initializers. *)
Definition alloc : M loc :=
  fun w => (Returns (length (heap w)), with_heap (heap w ++ [fieldInit]) w).

(** The static field [PupTelemetry.instance]. *)
Definition get_instance : M (option loc) := fun w => (Returns (instance w), w).

Definition set_instance (this : loc) : M unit :=
  fun w => (Returns tt, with_instance (Some this) w).

(** ** Timers of the runtime *)

Definition setTimeout (this : loc) (delay : Number) : M Handle :=
  fun w =>
    let id := fresh w in
    (Returns id,
     with_log (log w ++ [SetTimeout id delay])
       (with_fresh (Pos.succ id)
          (with_timers (timers w ++ [mkTimer id this delay false]) w))).

(** [clearTimeout(id)]; nothing happens on [undefined] or a dead handle. *)
Definition clearTimeout (id : option Handle) : M unit :=
  fun w =>
    match id with
    | Some id =>
        (Returns tt,
         with_timers (List.filter (fun t => negb (Pos.eqb (handle t) id)) (timers w)) w)
    | None => (Returns tt, w)
    end.

(** [Deno.unrefTimer(id)] and [timer.unref()] *)
Definition unref (id : Handle) : M unit :=
  fun w =>
    (Returns tt,
     with_timers
       (List.map (fun t => if Pos.eqb (handle t) id
                           then mkTimer (handle t) (owner t) (delay t) true else t)
          (timers w)) w).

(** ** The class *)

Inductive Strategy :=
| FileMailbox       (* telemetry.ts *)
| SupervisorRelay.  (* the variant with [ipcClient] *)

(** A template literal prints [undefined] as the word. *)
Definition str_of (s : option string) : string :=
  match s with
  | Some s => s
  | None => "undefined"
  end.

Definition apiBaseUrl (pupApiHostname pupApiPort : option string) : string :=
  "http://" ++ str_of pupApiHostname ++ ":" ++ str_of pupApiPort.

Definition ipcPathOf (pupTempPath : option string) (processId : string) : string :=
  str_of pupTempPath ++ "/." ++ processId ++ ".ipc".

(** [{ event, eventData }], the message of the mailbox send path. *)
Definition wireMessage (event : string) (eventData : Value) : Value :=
  VObj [("event", VStr event); ("eventData", eventData)].

Section Class.

Variable strategy : Strategy.
Variable h : Host.

(** A call into the REST client or the file mailbox: logged, and it
    returns or throws as the host says. *)
Definition invoke (c : Call) : M unit :=
  fun w => (responds h c, with_log (log w ++ [c]) w).

(** *** emit *)

(** [emit] of [telemetry.ts], lines 187-226. *)
Definition emit_mailbox (targetProcessId event : string) (eventData : Value) : M unit :=
  if String.eqb targetProcessId "main" then
    try_catch
      (pupApiHostname <- lift (getEnv h "PUP_API_HOSTNAME");;
       pupApiPort <- lift (getEnv h "PUP_API_PORT");;
       pupApiToken <- lift (getEnv h "PUP_API_TOKEN");;
       if truthy_str pupApiHostname && truthy_str pupApiPort && truthy_str pupApiToken
       then
         let client := mkClient (apiBaseUrl pupApiHostname pupApiPort)
                                (str_of pupApiToken) false in
         invoke (NewRestClient client);;
         invoke (SendTelemetry client eventData)
       else ret tt)
      (fun e => record (ConsoleError e))
  else
    pupTempPath <- lift (getEnv h "PUP_TEMP_STORAGE");;
    if truthy_str pupTempPath then
      dir <- lift (isDir h (str_of pupTempPath));;
      if dir && negb (String.eqb targetProcessId "") then
        let ipcPath := ipcPathOf pupTempPath targetProcessId in
        invoke (NewFileIPC ipcPath);;
        let message := wireMessage event eventData in
        try_finally
          (text <- lift (JSON_stringify h message);;
           invoke (IpcSendData ipcPath text))
          (invoke (IpcClose ipcPath true))
      else ret tt
    else ret tt.

(** [emit] of the relay variant, lines 178-203. *)
Definition emit_relay (targetProcessId event : string) (eventData : Value) : M unit :=
  try_catch
    (pupApiHostname <- lift (getEnv h "PUP_API_HOSTNAME");;
     pupApiPort <- lift (getEnv h "PUP_API_PORT");;
     pupApiToken <- lift (getEnv h "PUP_API_TOKEN");;
     if truthy_str pupApiHostname && truthy_str pupApiPort && truthy_str pupApiToken
     then
       let client := mkClient (apiBaseUrl pupApiHostname pupApiPort)
                              (str_of pupApiToken) false in
       invoke (NewRestClient client);;
       if String.eqb targetProcessId "main" then
         invoke (SendTelemetry client eventData)
       else
         invoke (SendIpc client targetProcessId event eventData)
     else ret tt)
    (fun e => record (ConsoleError e)).

(** [emit] reads no field of [this]. *)
Definition emit (this : loc) (targetProcessId event : string) (eventData : Value) : M unit :=
  match strategy with
  | FileMailbox => emit_mailbox targetProcessId event eventData
  | SupervisorRelay => emit_relay targetProcessId event eventData
  end.

(** *** close *)

(** Modelled from the spec: the event emitter of [@pup/common] is not part
    of the sources; its [close] releases all listeners. *)
Definition events_close (this : loc) : M unit :=
  record EventsClose;;
  update this (set_events []).

(** [close] of [telemetry.ts], lines 228-240. *)
Definition close_mailbox (this : loc) : M unit :=
  update this (set_aborted true);;
  o <- read this;;
  match timer o with
  | Some id => clearTimeout (Some id)
  | None => ret tt
  end;;
  o <- read this;;
  match ipc o with
  | Some path => invoke (IpcClose path false)
  | None => ret tt
  end;;
  events_close this.

(** [close] of the relay variant, lines 205-217. *)
Definition close_relay (this : loc) : M unit :=
  update this (set_aborted true);;
  o <- read this;;
  match timer o with
  | Some id => clearTimeout (Some id)
  | None => ret tt
  end;;
  o <- read this;;
  match ipcClient o with
  | Some c => invoke (ClientClose c)
  | None => ret tt
  end;;
  events_close this.

Definition close (this : loc) : M unit :=
  match strategy with
  | FileMailbox => close_mailbox this
  | SupervisorRelay => close_relay this
  end.

(** *** on and off *)

(** Modelled from the spec: the event emitter of [@pup/common] is not part
    of the sources; [on] adds a listener after those already registered,
    [off] removes the function from the listeners of the event. *)
Definition on (this : loc) (event : string) (fn : Listener) : M unit :=
  o <- read this;;
  update this (set_events (events o ++ [(event, fn)])).

Definition off (this : loc) (event : string) (fn : nat) : M unit :=
  o <- read this;;
  update this
    (set_events
       (List.filter (fun p => negb (String.eqb (fst p) event && Nat.eqb (ident (snd p)) fn))
          (events o))).

(** *** The watchdog *)

Definition memoryValue (external : Value) (m : MemoryUsage) : Value :=
  VObj [("external", external); ("heapTotal", VNum (heapTotal m));
        ("heapUsed", VNum (heapUsed m)); ("rss", VNum (rss m))].

Definition opt_num (z : option Z) : Value :=
  match z with
  | Some z => VNum z
  | None => VUndefined
  end.

(** [sendMainTelemetry], lines 83-110 (the same in both variants).  The
    call of the [async] [emit] is not awaited. *)
Definition sendMainTelemetry (this : loc) : M unit :=
  pupProcessId <- lift (getEnv h "PUP_PROCESS_ID");;
  memoryUsage <-
    match CurrentRuntime h with
    | Deno =>
        m <- lift (memoryUsage h);;
        ret (memoryValue (opt_num (external m)) m)
    | Node | Bun =>
        m <- lift (memoryUsage h);;
        ret (memoryValue (VNum (default 0%Z (external m))) m)
    | OtherRuntime =>
        ret (memoryValue (VNum 0) (mkMemoryUsage None 0 0 0))
    end;;
  if truthy_str pupProcessId then
    dir <- lift (cwd h);;
    let data := VObj [("sender", VStr (str_of pupProcessId));
                      ("memory", memoryUsage);
                      ("sent", VStr (now h));
                      ("cwd", VStr dir)] in
    detach (emit this "main" "telemetry" data)
  else ret tt.

(** The [finally] block of [telemetryWatchdog], lines 157-176. *)
Definition telemetryWatchdog_finally (this : loc) : M unit :=
  o <- read this;;
  clearTimeout (timer o);;
  o <- read this;;
  if negb (aborted o) then
    id <- setTimeout this (num_scale (intervalSeconds o) 1000);;
    update this (set_timer (Some id));;
    match CurrentRuntime h with
    | Deno => unref id
    | Node | Bun => unref id
    | OtherRuntime => ret tt
    end
  else ret tt.

(** [telemetryWatchdog], lines 152-177: when [sendMainTelemetry] returns,
    [await] suspends the activation and [finally] runs on resumption; when
    it throws, the error is dropped and [finally] runs at once. *)
Definition telemetryWatchdog (this : loc) : M unit :=
  on_outcome (sendMainTelemetry this)
    (fun _ => suspend (TWatchdog this))
    (fun _ => telemetryWatchdog_finally this).

(** *** The inbound path *)

(** [checkIpc] of [telemetry.ts] up to [await isDir(pupTempPath)]. *)
Definition checkIpc_mailbox (this : loc) : M unit :=
  pupTempPath <- lift (getEnv h "PUP_TEMP_STORAGE");;
  pupProcessId <- lift (getEnv h "PUP_PROCESS_ID");;
  if truthy_str pupTempPath
  then suspend (TCheckIpc this (str_of pupTempPath) pupProcessId)
  else ret tt.

(** ... from the result of [isDir] to the first wait for a batch. *)
Definition checkIpc_mailbox_resume (this : loc) (pupTempPath : string)
    (pupProcessId : option string) : M unit :=
  dir <- lift (isDir h pupTempPath);;
  if dir && truthy_str pupProcessId then
    let ipcPath := ipcPathOf (Some pupTempPath) (str_of pupProcessId) in
    o <- read this;;
    if negb (aborted o) then
      invoke (NewFileIPC ipcPath);;
      update this (set_ipc (Some ipcPath));;
      invoke (IpcReceiveData ipcPath);;
      suspend (TReceive this ipcPath)
    else ret tt
  else ret tt.

(** [checkIpc] of the relay variant, lines 115-137. *)
Definition checkIpc_relay (this : loc) : M unit :=
  try_catch
    (pupApiHostname <- lift (getEnv h "PUP_API_HOSTNAME");;
     pupApiPort <- lift (getEnv h "PUP_API_PORT");;
     pupApiToken <- lift (getEnv h "PUP_API_TOKEN");;
     pupProcessId <- lift (getEnv h "PUP_PROCESS_ID");;
     if truthy_str pupApiHostname && truthy_str pupApiPort && truthy_str pupApiToken
     then
       let client := mkClient (apiBaseUrl pupApiHostname pupApiPort)
                              (str_of pupApiToken) true in
       invoke (NewRestClient client);;
       update this (set_ipcClient (Some client));;
       invoke (ClientOn client "ipc");;
       subscribe this pupProcessId
     else ret tt)
    (fun e => record (ConsoleError e)).

Definition checkIpc (this : loc) : M unit :=
  match strategy with
  | FileMailbox => checkIpc_mailbox this
  | SupervisorRelay => checkIpc_relay this
  end.

(** *** The constructor *)

(** [new PupTelemetry(arg)], lines 56-78: [new] allocates [this] and runs
    the field initializers, so [this instanceof PupTelemetry] holds; the
    two [async] methods are started and not awaited. *)
Definition construct (arg : option Number) : M loc :=
  let intervalSeconds := defaultInterval arg in
  this <- alloc;;
  existing <- get_instance;;
  match existing with
  | Some it => ret it
  | None =>
      set_instance this;;
      update this (set_intervalSeconds (clampInterval intervalSeconds));;
      detach (telemetryWatchdog this);;
      detach (checkIpc this);;
      ret this
  end.

(** *** The event emitter and the messages it is given *)

Fixpoint run_handler (this : loc) (fn : Handler) : M unit :=
  match fn with
  | HNoop => ret tt
  | HThrow => throw ListenerError
  | HClose => close this
  | HEmit targetProcessId event eventData =>
      detach (emit this targetProcessId event eventData)
  | HOn event ident body => on this event (mkListener ident body)
  | HOff event ident => off this event ident
  | HNew arg => _ <- construct arg;; ret tt
  | HSeq first second => run_handler this first;; run_handler this second
  end.

Fixpoint run_handlers (this : loc) (fns : list Handler) : M unit :=
  match fns with
  | [] => ret tt
  | fn :: rest => run_handler this fn;; run_handlers this rest
  end.

Definition listeners_for (name : Value) (registry : list (string * Listener)) : list Handler :=
  match name with
  | VStr n =>
      List.map (fun p => body (snd p))
        (List.filter (fun p => String.eqb (fst p) n) registry)
  | _ => []
  end.

(** Modelled from the spec: the event emitter of [@pup/common] is not part
    of the sources; dispatch is synchronous, to the listeners registered
    under the name when the call starts, in insertion order. *)
Definition events_emit (this : loc) (name data : Value) : M unit :=
  record (EventsEmit name data);;
  o <- read this;;
  run_handlers this (listeners_for name (events o)).

(** One turn of the inner loop of [checkIpc], lines 130-140, without the
    [try]. *)
Definition handle_message (this : loc) (message : Message) : M unit :=
  if truthy_str (data message) then
    parsedMessage <- lift (JSON_parse h (str_of (data message)));;
    event <- lift (get_prop parsedMessage "event");;
    eventData <- lift (get_prop parsedMessage "eventData");;
    events_emit this event eventData
  else ret tt.

(** ... and with it: [try { ... } catch (_e) { }]. *)
Definition turn (this : loc) (message : Message) : M unit :=
  try_catch (handle_message this message) (fun _ => ret tt).

(** [for (const message of messages) { ... }] *)
Fixpoint process_messages (this : loc) (messages : list Message) : M unit :=
  match messages with
  | [] => ret tt
  | message :: rest => turn this message;; process_messages this rest
  end.

(** ... and one turn of [for await (const messages of ...)], lines
    123-143: [break] ends the activation, otherwise it waits again. *)
Definition checkIpc_mailbox_batch (this : loc) (ipcPath : string)
    (messages : list Message) : M unit :=
  o <- read this;;
  if aborted o then ret tt
  else
    (if (0 <? length messages)%nat then process_messages this messages else ret tt);;
    suspend (TReceive this ipcPath).

(** The handler [checkIpc] of the relay variant subscribes, lines
    125-131; [pupProcessId] is the value the closure captured. *)
Definition ipcHandler (this : loc) (pupProcessId : option string) (eventData : Value) : M unit :=
  target <- lift (get_prop_opt eventData "target");;
  event <- lift (get_prop_opt eventData "event");;
  if strict_eq_str target pupProcessId && truthy event then
    payload <- lift (get_prop_opt eventData "eventData");;
    events_emit this event payload
  else ret tt.

End Class.

(** ** The event loop *)

(** What can happen next: the application calls the public surface on the
    instance it holds, a suspended activation continues, the mailbox yields
    a batch, a timer fires, the REST client delivers a relay payload.
    [emit] is run to its end in one step: it reads no field. *)
Inductive Event :=
| New (arg : option Number)
| Close
| Emit (targetProcessId event : string) (eventData : Value)
| On (event : string) (fn : Listener)
| Off (event : string) (fn : nat)
| Resume (i : nat)
| Batch (i : nat) (messages : list Message)
| Fire (id : Handle)
| Relay (i : nat) (payload : Value).

Definition after {A} (m : M A) (w : World) : World := snd (m w).

Definition drop_task (i : nat) (w : World) : World :=
  with_awaiting (delete i (awaiting w)) w.

Definition drop_timer (id : Handle) (w : World) : World :=
  with_timers (List.filter (fun t => negb (Pos.eqb (handle t) id)) (timers w)) w.

Section Loop.

Variable strategy : Strategy.
Variable h : Host.

(** [None]: the event cannot happen in this state. *)
Definition step (ev : Event) (w : World) : option World :=
  match ev with
  | New arg => Some (after (construct strategy h arg) w)
  | Close =>
      match instance w with
      | Some this => Some (after (close strategy h this) w)
      | None => None
      end
  | Emit target event eventData =>
      match instance w with
      | Some this => Some (after (emit strategy h this target event eventData) w)
      | None => None
      end
  | On event fn =>
      match instance w with
      | Some this => Some (after (on this event fn) w)
      | None => None
      end
  | Off event fn =>
      match instance w with
      | Some this => Some (after (off this event fn) w)
      | None => None
      end
  | Resume i =>
      match awaiting w !! i with
      | Some (TWatchdog this) =>
          Some (after (telemetryWatchdog_finally h this) (drop_task i w))
      | Some (TCheckIpc this pupTempPath pupProcessId) =>
          Some (after (detach (checkIpc_mailbox_resume h this pupTempPath pupProcessId))
                  (drop_task i w))
      | _ => None
      end
  | Batch i messages =>
      match awaiting w !! i with
      | Some (TReceive this ipcPath) =>
          Some (after (detach (checkIpc_mailbox_batch strategy h this ipcPath messages))
                  (drop_task i w))
      | _ => None
      end
  | Fire id =>
      match List.find (fun t => Pos.eqb (handle t) id) (timers w) with
      | Some t =>
          Some (after (detach (telemetryWatchdog strategy h (owner t))) (drop_timer id w))
      | None => None
      end
  | Relay i payload =>
      match relayHandlers w !! i with
      | Some (this, pupProcessId) =>
          Some (after (ipcHandler strategy h this pupProcessId payload) w)
      | None => None
      end
  end.

Fixpoint run (evs : list Event) (w : World) : option World :=
  match evs with
  | [] => Some w
  | ev :: rest =>
      match step ev w with
      | Some w' => run rest w'
      | None => None
      end
  end.

End Loop.

(** ** The wire format of the mailbox *)

(** An [IpcEnvelope]: [{ target, event, eventData }]. *)
Definition envelope (target event : string) (eventData : Value) : Value :=
  VObj [("target", VStr target); ("event", VStr event); ("eventData", eventData)].

(** What the send path of [telemetry.ts] writes for an envelope (lines
    213-217): the text of [{ event, eventData }].  The target chooses the
    mailbox file and is not part of the text. *)
Definition encode (h : Host) (target event : string) (eventData : Value) : Outcome string :=
  JSON_stringify h (wireMessage event eventData).

(** What the inbound path reads back (line 132). *)
Definition decode (h : Host) (text : string) : Outcome Value := JSON_parse h text.

(** [JSON.stringify] leaves out the properties that are [undefined]. *)
Definition omit_undefined (v : Value) : Value :=
  match v with
  | VObj fields => VObj (List.filter (fun p => negb (is_undefined (snd p))) fields)
  | other => other
  end.

(** The calls a computation adds to the log. *)
Definition calls {A} (m : M A) (w : World) : list Call :=
  drop (length (log w)) (log (after m w)).

Definition is_SetTimeout (c : Call) : bool :=
  match c with
  | SetTimeout _ _ => true
  | _ => false
  end.

Definition is_EventsEmit (c : Call) : bool :=
  match c with
  | EventsEmit _ _ => true
  | _ => false
  end.

(** The transports a call goes through. *)
Inductive Path := SecureChannel | Mailbox | Local.

Definition via (c : Call) : Path :=
  match c with
  | NewRestClient _ | SendTelemetry _ _ | SendIpc _ _ _ _
  | ClientOn _ _ | ClientClose _ => SecureChannel
  | NewFileIPC _ | IpcReceiveData _ | IpcSendData _ _ | IpcClose _ _ => Mailbox
  | EventsEmit _ _ | EventsClose | ConsoleError _ | SetTimeout _ _
  | UnhandledRejection _ => Local
  end.

(** The requests sent over the secure channel (building a client sends
    nothing). *)
Definition is_request (c : Call) : bool :=
  match c with
  | SendTelemetry _ _ | SendIpc _ _ _ _ => true
  | _ => false
  end.

Definition is_report (c : Call) : bool :=
  match c with
  | SendTelemetry _ _ => true
  | _ => false
  end.

(** What a request carries. *)
Definition carried_target (c : Call) : option string :=
  match c with
  | SendIpc _ target _ _ => Some target
  | _ => None
  end.

Definition carried_event (c : Call) : option string :=
  match c with
  | SendIpc _ _ event _ => Some event
  | _ => None
  end.

Definition carried_data (c : Call) : option Value :=
  match c with
  | SendTelemetry _ data => Some data
  | SendIpc _ _ _ eventData => Some eventData
  | _ => None
  end.

(** ** A reference host

    The theorems below hold for every [Host].  To run the model on
    concrete inputs, [refHost] supplies an environment given as a table, a
    list of directories and a JSON printer and parser for the values of
    [Value] (integers, strings with the escapes of the quote and the
    backslash, arrays, objects; blanks between tokens are accepted). *)

Module Json.

Definition dquote : ascii := ascii_of_nat 34.
Definition backslash : ascii := ascii_of_nat 92.

Definition quoted (s : string) : string :=
  String dquote (s ++ String dquote EmptyString).

Fixpoint escape (s : string) : string :=
  match s with
  | EmptyString => EmptyString
  | String c rest =>
      if Ascii.eqb c dquote || Ascii.eqb c backslash
      then String backslash (String c (escape rest))
      else String c (escape rest)
  end.

Fixpoint digits (fuel : nat) (n : N) (acc : string) : string :=
  match fuel with
  | O => acc
  | S fuel =>
      let acc := String (ascii_of_N (48 + N.modulo n 10)) acc in
      if N.ltb n 10 then acc else digits fuel (N.div n 10) acc
  end.

Definition print_Z (z : Z) : string :=
  let body := digits (S (N.to_nat (N.log2 (Z.abs_N z)))) (Z.abs_N z) "" in
  if Z.ltb z 0 then String "-" body else body.

Definition join (parts : list string) : string :=
  match parts with
  | [] => ""
  | p :: rest => fold_left (fun acc q => acc ++ "," ++ q) rest p
  end.

(** [undefined] is left out of objects and printed as [null] elsewhere,
    as [JSON.stringify] does. *)
Fixpoint stringify (v : Value) : string :=
  match v with
  | VUndefined | VNull => "null"
  | VBool true => "true"
  | VBool false => "false"
  | VNum z => print_Z z
  | VStr s => quoted (escape s)
  | VArr items => "[" ++ join (List.map stringify items) ++ "]"
  | VObj fields =>
      "{" ++ join (List.flat_map
                     (fun '(k, v) =>
                        if is_undefined v then []
                        else [quoted (escape k) ++ ":" ++ stringify v])
                     fields) ++ "}"
  end.

Fixpoint skip (s : string) : string :=
  match s with
  | String " " rest => skip rest
  | _ => s
  end.

Definition expect (word : string) (v : Value) (s : string) : option (Value * string) :=
  if String.prefix word s
  then Some (v, substring (String.length word) (String.length s - String.length word) s)
  else None.

Fixpoint read_string (s : string) (acc : string) : option (string * string) :=
  match s with
  | EmptyString => None
  | String c rest =>
      if Ascii.eqb c dquote then Some (acc, rest)
      else if Ascii.eqb c backslash then
        match rest with
        | String e rest' =>
            if Ascii.eqb e dquote || Ascii.eqb e backslash
            then read_string rest' (acc ++ String e EmptyString)
            else None
        | EmptyString => None
        end
      else read_string rest (acc ++ String c EmptyString)
  end.

Definition digit (c : ascii) : option N :=
  let n := N_of_ascii c in
  if N.leb 48 n && N.leb n 57 then Some (n - 48)%N else None.

Fixpoint read_digits (s : string) (acc : N) : N * string :=
  match s with
  | String c rest =>
      match digit c with
      | Some d => read_digits rest (acc * 10 + d)
      | None => (acc, s)
      end
  | EmptyString => (acc, s)
  end.

Definition read_number (negative : bool) (s : string) : option (Value * string) :=
  match s with
  | String c _ =>
      match digit c with
      | Some _ =>
          let '(n, rest) := read_digits s 0 in
          Some (VNum (if negative then Z.opp (Z.of_N n) else Z.of_N n), rest)
      | None => None
      end
  | EmptyString => None
  end.

Section Compound.

Variable value : string -> option (Value * string).

(** The items of an array, after the opening bracket. *)
Fixpoint items (fuel : nat) (s : string) (acc : list Value) : option (Value * string) :=
  match fuel with
  | O => None
  | S fuel =>
      match value s with
      | Some (v, rest) =>
          match skip rest with
          | String "," rest' => items fuel rest' (acc ++ [v])
          | String "]" rest' => Some (VArr (acc ++ [v]), rest')
          | _ => None
          end
      | None => None
      end
  end.

(** The members of an object, after the opening brace. *)
Fixpoint members (fuel : nat) (s : string) (acc : list (string * Value))
    : option (Value * string) :=
  match fuel with
  | O => None
  | S fuel =>
      match skip s with
      | String c rest =>
          if Ascii.eqb c dquote then
            match read_string rest "" with
            | Some (k, rest) =>
                match skip rest with
                | String ":" rest =>
                    match value rest with
                    | Some (v, rest) =>
                        match skip rest with
                        | String "," rest' => members fuel rest' (acc ++ [(k, v)])
                        | String "}" rest' => Some (VObj (acc ++ [(k, v)]), rest')
                        | _ => None
                        end
                    | None => None
                    end
                | _ => None
                end
            | None => None
            end
          else None
      | EmptyString => None
      end
  end.

End Compound.

Fixpoint value (fuel : nat) (s : string) : option (Value * string) :=
  match fuel with
  | O => None
  | S fuel =>
      match skip s with
      | String "n" _ as s' => expect "null" VNull s'
      | String "t" _ as s' => expect "true" (VBool true) s'
      | String "f" _ as s' => expect "false" (VBool false) s'
      | String "-" rest => read_number true rest
      | String "[" rest =>
          match skip rest with
          | String "]" rest' => Some (VArr [], rest')
          | _ => items (value fuel) (String.length s) rest []
          end
      | String "{" rest =>
          match skip rest with
          | String "}" rest' => Some (VObj [], rest')
          | _ => members (value fuel) (String.length s) rest []
          end
      | String c rest as s' =>
          if Ascii.eqb c dquote then
            match read_string rest "" with
            | Some (str, rest') => Some (VStr str, rest')
            | None => None
            end
          else read_number false s'
      | EmptyString => None
      end
  end.

(** The whole text must be one value. *)
Definition parse (s : string) : option Value :=
  match value (S (String.length s)) s with
  | Some (v, rest) =>
      match skip rest with
      | EmptyString => Some v
      | _ => None
      end
  | None => None
  end.

End Json.

Definition lookup_env (env : list (string * string)) (name : string) : option string :=
  match List.find (fun p => String.eqb (fst p) name) env with
  | Some p => Some (snd p)
  | None => None
  end.

Definition refHost (env : list (string * string)) (dirs : list string) : Host :=
  {| CurrentRuntime := Deno;
     getEnv := fun name => Returns (lookup_env env name);
     isDir := fun path => Returns (existsb (String.eqb path) dirs);
     cwd := Returns "/srv/app";
     memoryUsage := Returns (mkMemoryUsage (Some 1024%Z) 4096%Z 2048%Z 8192%Z);
     now := "2024-05-01T12:00:00.000Z";
     JSON_parse := fun text =>
       match Json.parse text with
       | Some v => Returns v
       | None => Throws SyntaxError
       end;
     JSON_stringify := fun v => Returns (Json.stringify v);
     responds := fun _ => Returns tt |}.

(** A worker ["w1"] with the supervisor's endpoint, and one without. *)
Definition supervised : Host :=
  refHost [("PUP_PROCESS_ID", "w1"); ("PUP_API_HOSTNAME", "127.0.0.1");
           ("PUP_API_PORT", "16441"); ("PUP_API_TOKEN", "secret");
           ("PUP_TEMP_STORAGE", "/tmp/pup")] ["/tmp/pup"].

Definition standalone : Host :=
  refHost [("PUP_PROCESS_ID", "w1"); ("PUP_TEMP_STORAGE", "/tmp/pup")] ["/tmp/pup"].


(** * The vocabulary of the properties *)

Open Scope list_scope.

(** [m] relates every world to the one it leaves, whatever it returns. *)
Definition stable {A} (R : World -> World -> Prop) (m : M A) : Prop :=
  forall w, R w (after m w).

(** ** What computations change *)

(** [w'] is [w] with calls satisfying [p] added to the log. *)
Definition logs (p : Call -> Prop) (w w' : World) : Prop :=
  exists added, w' = with_log (log w ++ added) w /\ Forall p added.

Definition grows (w w' : World) : Prop := exists added, log w' = log w ++ added.

(** The static field, the size of the heap and every stored interval are
    the same in both worlds. *)
Definition keeps (w w' : World) : Prop :=
  instance w' = instance w /\ length (heap w') = length (heap w) /\
  forall l, intervalSeconds (obj w' l) = intervalSeconds (obj w l).

(** ** The supervisor's endpoint *)

Definition alert : Value := VObj [("level", VStr "high")].

(** The three variables of the supervisor's endpoint are set (and not
    empty), and the host reads them without an error. *)
Definition configured (h : Host) (hostname port token : string) : Prop :=
  getEnv h "PUP_API_HOSTNAME" = Returns (Some hostname) /\
  getEnv h "PUP_API_PORT" = Returns (Some port) /\
  getEnv h "PUP_API_TOKEN" = Returns (Some token) /\
  hostname <> "" /\ port <> "" /\ token <> "".

(** A variable reads as [undefined] or as the empty string. *)
Definition absent (h : Host) (name : string) : Prop :=
  exists v, getEnv h name = Returns v /\ truthy_str v = false.

Definition unconfigured (h : Host) : Prop :=
  absent h "PUP_API_HOSTNAME" \/ absent h "PUP_API_PORT" \/ absent h "PUP_API_TOKEN".

(** C1 as stated, for the worker ["w1"] with its endpoint: the one
    request of [emit("main", "alert", {level:"high"})] carries the target,
    the event and the data. *)
Definition request_carries_all (strategy : Strategy) : Prop :=
  exists c,
    List.filter is_request
      (calls (emit strategy supervised 0 "main" "alert" alert) initial) = [c] /\
    carried_target c = Some "main" /\
    carried_event c = Some "alert" /\
    carried_data c = Some alert.

(** ** The interval *)

Definition is_zero (x : Number) : Prop := exists q, x = Fin q /\ (q == 0)%Q.

Definition in_range (x : Number) : Prop :=
  exists q, x = Fin q /\ (1 <= q)%Q /\ (q <= 180)%Q.

(** The world the first construction leaves. *)
Definition constructed (strategy : Strategy) (h : Host) (arg : option Number)
    (w : World) : World :=
  let this := length (heap w) in
  after (detach (checkIpc strategy h this))
    (after (detach (telemetryWatchdog strategy h this))
       (after (update this (set_intervalSeconds (clampInterval (defaultInterval arg))))
          (after (set_instance this) (after alloc w)))).

(** ** The invariant of the event loop *)

Definition task_this (t : Task) : loc :=
  match t with
  | TWatchdog this | TCheckIpc this _ _ | TReceive this _ => this
  end.

(** Before the first construction nothing is pending. *)
Definition blank (w : World) : Prop :=
  instance w = None /\ timers w = [] /\ awaiting w = [] /\ relayHandlers w = [].

(** Once [this] is the instance: every live timer is the one its [timer]
    field names, and there is none after [close]; every suspended
    activation and every relay handler belongs to it. *)
Definition tidy (this : loc) (w : World) : Prop :=
  instance w = Some this /\ this < length (heap w) /\
  Forall (fun t => owner t = this /\ timer (obj w this) = Some (handle t) /\
                   aborted (obj w this) = false) (timers w) /\
  Forall (fun t => task_this t = this) (awaiting w) /\
  Forall (fun p => fst p = this) (relayHandlers w).

(** The invariant of every reachable world. *)
Definition sound (w : World) : Prop := blank w \/ exists this, tidy this w.

Definition timeouts (w : World) : list Call := List.filter is_SetTimeout (log w).

(** From a tidy world to a tidy world, and once aborted, aborted for
    good and without a new [setTimeout]. *)
Definition shut (this : loc) (w w' : World) : Prop :=
  tidy this w ->
  tidy this w' /\
  (aborted (obj w this) = true ->
   aborted (obj w' this) = true /\ timeouts w' = timeouts w).

(** The first two statements of [close]: the flag is set and the timer
    the field names is cleared. *)
Definition abort (this : loc) (w : World) : World :=
  let w1 := after (update this (set_aborted true)) w in
  after (clearTimeout (timer (obj w1 this))) w1.

Definition is_Fire (ev : Event) : bool :=
  match ev with
  | Fire _ => true
  | _ => false
  end.

Definition is_close_call (c : Call) : bool :=
  match c with
  | IpcClose _ _ | ClientClose _ => true
  | _ => false
  end.

(** The mailbox and the REST client close without throwing. *)
Definition closes_quietly (h : Host) : Prop :=
  forall c, is_close_call c = true -> responds h c = Returns tt.

(** ** Messages *)

(** A message whose text [JSON.parse] rejects. *)
Definition malformed (h : Host) (m : Message) : Prop :=
  exists text e, data m = Some text /\ text <> "" /\ JSON_parse h text = Throws e.

(** A message whose text parses to something with these [event] and
    [eventData]. *)
Definition carries (h : Host) (m : Message) (event eventData : Value) : Prop :=
  exists text parsed,
    data m = Some text /\ text <> "" /\ JSON_parse h text = Returns parsed /\
    get_prop parsed "event" = Returns event /\
    get_prop parsed "eventData" = Returns eventData.

(** The host's JSON functions take [v] to a text and that text back to
    [v] (less its undefined properties). *)
Definition round_trips (h : Host) (v : Value) (text : string) : Prop :=
  JSON_stringify h v = Returns text /\ text <> "" /\
  JSON_parse h text = Returns (omit_undefined v).

(** The shared directory exists and a mailbox can be opened in it. *)
Definition mailbox_ready (h : Host) (pupTempPath : string) : Prop :=
  getEnv h "PUP_TEMP_STORAGE" = Returns (Some pupTempPath) /\ pupTempPath <> "" /\
  isDir h pupTempPath = Returns true /\
  forall path, responds h (NewFileIPC path) = Returns tt.

(** C7 as stated: once the flag is set inside a batch, the remaining
    messages of that batch are not dispatched. *)
Definition checked_before_each_message (strategy : Strategy) (h : Host) : Prop :=
  forall (evs : list Event) (w : World) (this : loc) (done rest : list Message),
    run strategy h evs initial = Some w ->
    instance w = Some this ->
    let w1 := after (process_messages strategy h this done) w in
    aborted (obj w1 this) = true ->
    List.filter is_EventsEmit (calls (process_messages strategy h this rest) w1) = [].

(** ** Concrete runs of the worker ["w1"] *)

(** A worker is constructed and its first watchdog turn ends and arms
    the timer ... *)
Definition armed_world : World :=
  default initial (run FileMailbox supervised [New None; Resume 0] initial).

(** ... and the application closes it. *)
Definition closed_run : list Event := [New None; Resume 0; Close].

Definition closed_world : World :=
  default initial (run FileMailbox supervised closed_run initial).

(** What the application and the event loop try afterwards. *)
Definition later_run : list Event :=
  [Close; New (Some (num_of_Z 60)); Emit "main" "alert" alert; Resume 0].

Definition message_of (v : Value) : Message := mkMessage (Some (Json.stringify v)).

Definition garbage : Message := mkMessage (Some "{oops").

Definition stop_message : Message := message_of (wireMessage "stop" VUndefined).

Definition ping_message : Message :=
  message_of (wireMessage "ping" (VObj [("n", VNum 42)])).

Definition ping_text : string :=
  Json.stringify (wireMessage "ping" (VObj [("n", VNum 42)])).

(** The worker ["w1"] after its construction, the end of the first
    watchdog turn and the opening of its mailbox, with a listener on
    ["stop"] that closes the instance. *)
Definition setup : list Event :=
  [New None; Resume 0; Resume 0; On "stop" (mkListener 0 HClose)].

Definition listening : World :=
  default initial (run FileMailbox supervised setup initial).

Definition closed_listening : World :=
  default initial (run FileMailbox supervised (setup ++ [Close]) initial).

(** ** Identity, probes and payloads *)

(** The process was given an identity. *)
Definition identified (h : Host) (pupProcessId : string) : Prop :=
  getEnv h "PUP_PROCESS_ID" = Returns (Some pupProcessId) /\ pupProcessId <> "".

(** The memory probe answers; none is asked on a runtime that is neither
    Deno, Node nor Bun. *)
Definition probed (h : Host) : Prop :=
  CurrentRuntime h = OtherRuntime \/ exists m, memoryUsage h = Returns m.

(** The property [v?.k] as a value: it never throws. *)
Definition opt_prop (v : Value) (k : string) : Value :=
  match v with
  | VObj fields => assoc k fields
  | _ => VUndefined
  end.

Definition is_console (c : Call) : bool :=
  match c with
  | ConsoleError _ => true
  | _ => false
  end.

(** A host on which every write to a mailbox fails. *)
Definition failing_writes : Host :=
  let h := supervised in
  mkHost (CurrentRuntime h) (getEnv h) (isDir h) (cwd h) (memoryUsage h) (now h)
    (JSON_parse h) (JSON_stringify h)
    (fun c => match c with
              | IpcSendData _ _ => Throws (HostError "EIO")
              | _ => Returns tt
              end).

(** The worker ["w2"] in the same directory. *)
Definition peer : Host :=
  refHost [("PUP_PROCESS_ID", "w2"); ("PUP_TEMP_STORAGE", "/tmp/pup")] ["/tmp/pup"].

(** ** The beat of the watchdog *)

Definition is_TWatchdog (t : Task) : bool :=
  match t with
  | TWatchdog _ => true
  | _ => false
  end.

(** The turns of the watchdog that are suspended at their [await]. *)
Definition watchdogs (w : World) : nat :=
  length (List.filter is_TWatchdog (awaiting w)).

(** Whether the runtime is one on which the timer is unref'd. *)
Definition unrefs (h : Host) : bool :=
  match CurrentRuntime h with
  | OtherRuntime => false
  | Deno | Node | Bun => true
  end.

(** What everything but the watchdog itself does to its beat: the
    suspended turns and the interval stay, [aborted] is not reset, and the
    timers stay too unless the instance is closed, which clears them. *)
Definition quiet (this : loc) (w w' : World) : Prop :=
  tidy this w ->
  tidy this w' /\ watchdogs w' = watchdogs w /\
  intervalSeconds (obj w' this) = intervalSeconds (obj w this) /\
  (aborted (obj w this) = true -> aborted (obj w' this) = true) /\
  (timers w' = timers w \/ (timers w' = [] /\ aborted (obj w' this) = true)).

(** At any time at most one turn of the watchdog is suspended or armed,
    and exactly one until [close]; an armed timer waits the interval in
    milliseconds and is unref'd where the runtime allows; the interval is
    in range. *)
Definition beat (h : Host) (this : loc) (w : World) : Prop :=
  tidy this w /\
  watchdogs w + length (timers w) <= 1 /\
  (aborted (obj w this) = false -> watchdogs w + length (timers w) = 1) /\
  Forall (fun t => delay t = num_scale (intervalSeconds (obj w this)) 1000 /\
                   unrefd t = unrefs h) (timers w) /\
  in_range (intervalSeconds (obj w this)).

(** The suspended activations are the same in both worlds. *)
Definition waits (w w' : World) : Prop := awaiting w' = awaiting w.

(** The events in which the watchdog goes on: its timer fires, or its
    suspended turn continues after the [await]. *)
Definition is_beat (w : World) (ev : Event) : bool :=
  match ev with
  | Fire id => existsb (fun t => Pos.eqb (handle t) id) (timers w)
  | Resume i =>
      match awaiting w !! i with
      | Some (TWatchdog _) => true
      | _ => false
      end
  | _ => false
  end.


(** ** The inbound path of an instance *)

(** The activations of [checkIpc] that wait at an [await]. *)
Definition is_inbound (t : Task) : bool := negb (is_TWatchdog t).

Definition listening_tasks (w : World) : list Task :=
  List.filter is_inbound (awaiting w).

(** The waiting activations of [checkIpc] and the handlers it subscribed. *)
Definition inbound (w : World) : nat :=
  length (listening_tasks w) + length (relayHandlers w).

(** What leaves the inbound path alone: the singleton, the waiting
    activations of [checkIpc], the relay handlers and [this.ipc]. *)
Definition calm (this : loc) (w w' : World) : Prop :=
  instance w = Some this ->
  instance w' = Some this /\
  listening_tasks w' = listening_tasks w /\
  relayHandlers w' = relayHandlers w /\
  ipc (obj w' this) = ipc (obj w this).

(** A waiting activation of [checkIpc] belongs to [telemetry.ts]; before
    the mailbox is opened [this.ipc] is unset, afterwards the loop reads the
    mailbox [this.ipc] names. *)
Definition reads_mailbox (strategy : Strategy) (field : option string) (t : Task) : Prop :=
  match t with
  | TWatchdog _ => True
  | TCheckIpc _ _ _ => strategy = FileMailbox /\ field = None
  | TReceive _ path => strategy = FileMailbox /\ field = Some path
  end.

Definition wired (strategy : Strategy) (this : loc) (w : World) : Prop :=
  tidy this w /\
  inbound w <= 1 /\
  Forall (reads_mailbox strategy (ipc (obj w this))) (listening_tasks w) /\
  (strategy = FileMailbox -> relayHandlers w = []).

(** ** Closing the transport *)

(** The call with which [close] closes what [checkIpc] opened, if it
    opened anything: the mailbox in [telemetry.ts], the client in the relay
    variant. *)
Definition transport_close (strategy : Strategy) (o : Obj) : option Call :=
  match strategy with
  | FileMailbox => option_map (fun path => IpcClose path false) (ipc o)
  | SupervisorRelay => option_map ClientClose (ipcClient o)
  end.

(** A host on which closing a mailbox or a client fails. *)
Definition failing_close : Host :=
  let h := supervised in
  mkHost (CurrentRuntime h) (getEnv h) (isDir h) (cwd h) (memoryUsage h) (now h)
    (JSON_parse h) (JSON_stringify h)
    (fun c => match c with
              | IpcClose _ _ | ClientClose _ => Throws (HostError "EBADF")
              | _ => Returns tt
              end).

(** The relay variant's worker ["w1"] after its construction and the end
    of the first watchdog turn. *)
Definition relayed : World :=
  default initial (run SupervisorRelay supervised [New None; Resume 0] initial).

(** * Properties *)

(** ** Computations that stay inside a relation *)

Section Stable.

Context (R : World -> World -> Prop) `{!PreOrder R}.

Lemma stable_ret {A} (a : A) : stable R (ret a).
Proof. intros w. reflexivity. Qed.

Lemma stable_throw {A} (e : Error) : stable R (@throw A e).
Proof. intros w. reflexivity. Qed.

Lemma stable_lift {A} (o : Outcome A) : stable R (lift o).
Proof. intros w. reflexivity. Qed.

Lemma stable_read (this : loc) : stable R (read this).
Proof. intros w. reflexivity. Qed.

Lemma stable_get_instance : stable R get_instance.
Proof. intros w. reflexivity. Qed.

Lemma stable_bind {A B} (m : M A) (k : A -> M B) :
  stable R m -> (forall a, stable R (k a)) -> stable R (bind m k).
Proof.
  intros Hm Hk w. unfold after, bind. specialize (Hm w). unfold after in Hm.
  destruct (m w) as [[a|e] w1]; simpl in *.
  - etransitivity; [exact Hm | apply Hk].
  - exact Hm.
Qed.

Lemma stable_try_catch {A} (m : M A) (handler : Error -> M A) :
  stable R m -> (forall e, stable R (handler e)) -> stable R (try_catch m handler).
Proof.
  intros Hm Hk w. unfold after, try_catch. specialize (Hm w). unfold after in Hm.
  destruct (m w) as [[a|e] w1]; simpl in *.
  - exact Hm.
  - etransitivity; [exact Hm | apply Hk].
Qed.

Lemma stable_try_finally {A} (m : M A) (fin : M unit) :
  stable R m -> stable R fin -> stable R (try_finally m fin).
Proof.
  intros Hm Hf w. unfold after, try_finally. specialize (Hm w). unfold after in Hm.
  destruct (m w) as [o w1]; simpl in *.
  specialize (Hf w1). unfold after in Hf.
  destruct (fin w1) as [[u|e] w2]; simpl in *; etransitivity; eauto.
Qed.

Lemma stable_detach (m : M unit) :
  stable R m -> (forall e, stable R (record (UnhandledRejection e))) -> stable R (detach m).
Proof.
  intros Hm Hr w. unfold after, detach. specialize (Hm w). unfold after in Hm.
  destruct (m w) as [[u|e] w1]; simpl in *.
  - exact Hm.
  - etransitivity; [exact Hm | apply Hr].
Qed.

Lemma stable_on_outcome {A B} (m : M A) (returned : A -> M B) (thrown : Error -> M B) :
  stable R m -> (forall a, stable R (returned a)) -> (forall e, stable R (thrown e)) ->
  stable R (on_outcome m returned thrown).
Proof.
  intros Hm Hr Ht w. unfold after, on_outcome. specialize (Hm w). unfold after in Hm.
  destruct (m w) as [[a|e] w1]; simpl in *.
  - etransitivity; [exact Hm | apply Hr].
  - etransitivity; [exact Hm | apply Ht].
Qed.

End Stable.

Lemma stable_at {A} (R : World -> World -> Prop) (m : M A) (w : World) :
  stable R m -> R w (after m w).
Proof. intros H. apply H. Qed.

Create HintDb stable.

(** Splits a computation along its binds, handlers and case analyses,
    closing what the hints know; what is left are primitive steps. *)
Ltac stable_split :=
  repeat first
    [ solve [eauto 2 with stable nocore]
    | apply stable_ret; exact _ | apply stable_throw; exact _
    | apply stable_lift; exact _ | apply stable_read; exact _
    | apply stable_get_instance; exact _
    | apply stable_bind; [exact _ | | intros ? ]
    | apply stable_try_catch; [exact _ | | intros ? ]
    | apply stable_try_finally; [exact _ | | ]
    | apply stable_detach; [exact _ | | intros ? ]
    | apply stable_on_outcome; [exact _ | | intros ? | intros ? ]
    | progress cbv zeta
    | match goal with
      | |- stable _ (if ?b then _ else _) => destruct b
      | |- stable _ (match ?x with _ => _ end) => destruct x
      end ].

(** ** What a computation logs *)

#[export] Instance logs_preorder (p : Call -> Prop) : PreOrder (logs p).
Proof.
  split.
  - intros w. exists []. split; [| constructor].
    destruct w; unfold with_log; simpl. now rewrite app_nil_r.
  - intros a b c [l1 [-> H1]] [l2 [-> H2]]. exists (l1 ++ l2). split.
    + unfold with_log; simpl. now rewrite app_assoc.
    + apply Forall_app; auto.
Qed.

Lemma logs_record (p : Call -> Prop) (c : Call) : p c -> stable (logs p) (record c).
Proof. intros Hp w. exists [c]. split; [reflexivity | repeat constructor; exact Hp]. Qed.

Lemma logs_invoke (p : Call -> Prop) (h : Host) (c : Call) :
  p c -> stable (logs p) (invoke h c).
Proof. intros Hp w. exists [c]. split; [reflexivity | repeat constructor; exact Hp]. Qed.

Lemma logs_calls {A} (p : Call -> Prop) (m : M A) (w : World) :
  logs p w (after m w) -> Forall p (calls m w).
Proof.
  intros [added [E H]]. unfold calls. rewrite E. simpl.
  now rewrite drop_app_length.
Qed.

(** A [try] whose handler only writes to the console does not throw. *)
Lemma try_console_returns (m : M unit) (w : World) :
  fst (try_catch m (fun e => record (ConsoleError e)) w) = Returns tt.
Proof.
  unfold try_catch. destruct (m w) as [[[]|e] w1]; reflexivity.
Qed.

(** ** Outbound routing *)

Lemma truthy_str_Some (s : string) : s <> "" -> truthy_str (Some s) = true.
Proof.
  intros H. simpl. destruct (String.eqb_spec s ""); [contradiction | reflexivity].
Qed.

Lemma drop_own_log (l added : list Call) : drop (length l) (l ++ added) = added.
Proof. apply drop_app_length. Qed.

Ltac own_log := rewrite <- ?app_assoc; rewrite ?drop_own_log; simpl.

Ltac unfold_m :=
  unfold calls, after, try_catch, try_finally, detach, bind, lift, ret, throw,
    record, invoke, read, update, suspend in *.

(** With the endpoint configured and a client that can be built, [emit]
    to ["main"] logs the construction of the client and one request, the
    telemetry report with the data; a failure of that request is written
    to the console. *)
Lemma emit_main_configured (strategy : Strategy) (h : Host) (this : loc)
    (hostname port token event : string) (eventData : Value) (w : World) :
  configured h hostname port token ->
  let client := mkClient (apiBaseUrl (Some hostname) (Some port)) token false in
  responds h (NewRestClient client) = Returns tt ->
  exists tail,
    calls (emit strategy h this "main" event eventData) w =
      NewRestClient client :: SendTelemetry client eventData :: tail /\
    Forall (fun c => via c = Local) tail.
Proof.
  intros (Eh & Ep & Et & Nh & Np & Nt) client Hnew.
  assert (Hc : truthy_str (Some hostname) && truthy_str (Some port)
               && truthy_str (Some token) = true).
  { rewrite !truthy_str_Some by assumption. reflexivity. }
  destruct strategy; unfold emit, emit_mailbox, emit_relay;
    rewrite ?String.eqb_refl; unfold_m; rewrite Eh, Ep, Et, Hc; simpl;
    fold client; rewrite Hnew; simpl;
    destruct (responds h (SendTelemetry client eventData)); simpl;
    own_log; eexists; (split; [reflexivity |]); repeat constructor.
Qed.

(** No request leaves [emit] to ["main"] when a variable of the endpoint
    is missing; the outcome is a normal return in every host. *)
Lemma emit_main_returns (strategy : Strategy) (h : Host) (this : loc)
    (event : string) (eventData : Value) (w : World) :
  fst (emit strategy h this "main" event eventData w) = Returns tt.
Proof.
  destruct strategy; unfold emit, emit_mailbox, emit_relay;
    rewrite ?String.eqb_refl; apply try_console_returns.
Qed.

Lemma emit_main_unconfigured (strategy : Strategy) (h : Host) (this : loc)
    (event : string) (eventData : Value) (w : World) :
  unconfigured h ->
  Forall (fun c => exists e, c = ConsoleError e)
    (calls (emit strategy h this "main" event eventData) w).
Proof.
  intros Hu.
  assert (Hc : forall a b c,
    getEnv h "PUP_API_HOSTNAME" = Returns a -> getEnv h "PUP_API_PORT" = Returns b ->
    getEnv h "PUP_API_TOKEN" = Returns c ->
    truthy_str a && truthy_str b && truthy_str c = false).
  { intros a b c Ea Eb Ec.
    destruct Hu as [(v & E & T) | [(v & E & T) | (v & E & T)]];
      [rewrite Ea in E | rewrite Eb in E | rewrite Ec in E]; injection E as <-;
      rewrite T; rewrite ?andb_false_r; reflexivity. }
  destruct strategy; unfold emit, emit_mailbox, emit_relay;
    rewrite ?String.eqb_refl; unfold_m;
    destruct (getEnv h "PUP_API_HOSTNAME") as [a|] eqn:Ea; simpl;
    try (own_log; repeat constructor; eauto; fail);
    destruct (getEnv h "PUP_API_PORT") as [b|] eqn:Eb; simpl;
    try (own_log; repeat constructor; eauto; fail);
    destruct (getEnv h "PUP_API_TOKEN") as [c|] eqn:Ec; simpl;
    try (own_log; repeat constructor; eauto; fail);
    rewrite (Hc a b c) by reflexivity; simpl;
    rewrite drop_all; constructor.
Qed.

(** C1 (as amended): with identity and endpoint configured and a client
    that can be built, [emit("main", "alert", {level:"high"})] sends exactly
    one request over the secure channel, in both variants: the telemetry
    report, which carries the data [{level:"high"}] and neither the target
    nor the event name. *)
Theorem emit_main_sends_one_report (strategy : Strategy) (h : Host) (this : loc)
    (hostname port token : string) (w : World) :
  configured h hostname port token ->
  let client := mkClient (apiBaseUrl (Some hostname) (Some port)) token false in
  responds h (NewRestClient client) = Returns tt ->
  List.filter is_request (calls (emit strategy h this "main" "alert" alert) w)
    = [SendTelemetry client alert] /\
  carried_data (SendTelemetry client alert) = Some alert /\
  carried_target (SendTelemetry client alert) = None /\
  carried_event (SendTelemetry client alert) = None /\
  Forall (fun c => via c <> Mailbox)
    (calls (emit strategy h this "main" "alert" alert) w).
Proof.
  intros Hc client Hnew.
  destruct (emit_main_configured strategy h this hostname port token "alert" alert w
              Hc Hnew) as (tail & -> & Htail).
  assert (Hnone : List.filter is_request tail = []).
  { induction Htail as [| c tail Hc' _ IH]; [reflexivity |].
    simpl. destruct c; simpl in *; try discriminate; exact IH. }
  repeat split.
  - simpl. fold client. now rewrite Hnone.
  - repeat constructor; try discriminate.
    eapply Forall_impl; [exact Htail |]. intros c E. rewrite E. discriminate.
Qed.

Lemma emit_main_sends_one_report_witness :
  List.filter is_request
    (calls (emit FileMailbox supervised 0 "main" "alert" alert) initial)
  = [SendTelemetry (mkClient "http://127.0.0.1:16441" "secret" false) alert].
Proof.
  refine (proj1 (emit_main_sends_one_report FileMailbox supervised 0
                   "127.0.0.1" "16441" "secret" initial _ _)).
  - repeat split; try reflexivity; discriminate.
  - reflexivity.
Defined.

(** C1 (as stated) fails: in neither variant does the one request carry
    the target ["main"] and the event ["alert"]. *)
Lemma emit_main_request_lacks_event :
  ~ request_carries_all FileMailbox /\ ~ request_carries_all SupervisorRelay.
Proof.
  split; intros (c & E & _ & Ev & _);
    vm_compute in E; injection E as <-; discriminate Ev.
Qed.

(** C2: [emit] routes by target, in both variants.  A message for
    ["main"] makes no call into the file mailbox: what it calls is the
    secure channel (and the console).  A message for any other target
    never goes out as a telemetry report. *)
Theorem emit_routes_by_target (strategy : Strategy) (h : Host) (this : loc)
    (target event : string) (eventData : Value) (w : World) :
  (target = "main" ->
   Forall (fun c => via c <> Mailbox)
     (calls (emit strategy h this target event eventData) w)) /\
  (target <> "main" ->
   Forall (fun c => is_report c = false)
     (calls (emit strategy h this target event eventData) w)).
Proof.
  split; intros Ht; apply logs_calls, (stable_at (logs _)).
  - subst target.
    destruct strategy; unfold emit, emit_mailbox, emit_relay;
      rewrite ?String.eqb_refl; stable_split;
      first [apply logs_invoke | apply logs_record]; discriminate.
  - apply String.eqb_neq in Ht.
    destruct strategy; unfold emit, emit_mailbox, emit_relay;
      rewrite ?Ht; stable_split;
      first [apply logs_invoke | apply logs_record]; reflexivity.
Qed.

Lemma emit_routes_by_target_witness :
  Forall (fun c => via c <> Mailbox)
    (calls (emit FileMailbox supervised 0 "main" "alert" alert) initial) /\
  Forall (fun c => is_report c = false)
    (calls (emit SupervisorRelay supervised 0 "w2" "ping" (VObj [])) initial).
Proof.
  split.
  - apply (proj1 (emit_routes_by_target FileMailbox supervised 0
                    "main" "alert" alert initial)).
    reflexivity.
  - apply (proj2 (emit_routes_by_target SupervisorRelay supervised 0
                    "w2" "ping" (VObj []) initial)).
    discriminate.
Defined.

(** In [telemetry.ts] a peer message touches the mailbox only, and in
    the relay variant nothing ever does. *)
Lemma emit_peer_mailbox_only (h : Host) (this : loc)
    (target event : string) (eventData : Value) (w : World) :
  target <> "main" ->
  Forall (fun c => via c = Mailbox)
    (calls (emit FileMailbox h this target event eventData) w).
Proof.
  intros Ht. apply String.eqb_neq in Ht. apply logs_calls, (stable_at (logs _)).
  unfold emit, emit_mailbox. rewrite Ht. stable_split; apply logs_invoke; reflexivity.
Qed.

Lemma emit_relay_never_mailbox (h : Host) (this : loc)
    (target event : string) (eventData : Value) (w : World) :
  Forall (fun c => via c <> Mailbox)
    (calls (emit SupervisorRelay h this target event eventData) w).
Proof.
  apply logs_calls, (stable_at (logs _)). unfold emit, emit_relay.
  stable_split; first [apply logs_invoke | apply logs_record]; discriminate.
Qed.

(** C8: without a complete endpoint, [emit("main", event, data)] returns
    normally and calls neither the secure channel nor the mailbox, in both
    variants: all it can log are console messages (about a variable that
    could not be read), and no request among them. *)
Theorem emit_main_unconfigured_noop (strategy : Strategy) (h : Host) (this : loc)
    (event : string) (eventData : Value) (w : World) :
  unconfigured h ->
  fst (emit strategy h this "main" event eventData w) = Returns tt /\
  Forall (fun c => via c = Local)
    (calls (emit strategy h this "main" event eventData) w) /\
  List.filter is_request
    (calls (emit strategy h this "main" event eventData) w) = [].
Proof.
  intros Hu. split; [apply emit_main_returns |].
  pose proof (emit_main_unconfigured strategy h this event eventData w Hu) as H.
  split.
  - eapply Forall_impl; [exact H |]. intros c [e ->]. reflexivity.
  - induction H as [| c l [e ->] _ IH]; [reflexivity | exact IH].
Qed.

Lemma emit_main_unconfigured_noop_witness :
  fst (emit FileMailbox standalone 0 "main" "telemetry" (VObj []) initial) = Returns tt /\
  calls (emit FileMailbox standalone 0 "main" "telemetry" (VObj [])) initial = [].
Proof.
  split.
  - refine (proj1 (emit_main_unconfigured_noop FileMailbox standalone 0
                     "telemetry" (VObj []) initial _)).
    left. exists None. split; reflexivity.
  - reflexivity.
Defined.

(** ** The heap *)

Lemma obj_update_eq (this : loc) (f : Obj -> Obj) (w : World) :
  this < length (heap w) -> obj (after (update this f) w) this = f (obj w this).
Proof. intros H. unfold obj, after, update; simpl. now apply list_lookup_total_insert_eq. Qed.

(** A field that [f] leaves alone reads the same everywhere after
    [update this f]. *)
Lemma obj_update_field {B} (g : Obj -> B) (this l : loc) (f : Obj -> Obj) (w : World) :
  (forall o, g (f o) = g o) -> g (obj (after (update this f) w) l) = g (obj w l).
Proof.
  intros H. unfold obj, after, update; simpl.
  rewrite list_lookup_total_insert. case_decide as E; [| reflexivity].
  destruct E as [-> _]. apply H.
Qed.

Lemma obj_alloc (l : loc) (w : World) :
  obj (after alloc w) l = obj w l.
Proof.
  unfold obj, after, alloc; simpl.
  destruct (decide (l < length (heap w))) as [Hl | Hl].
  - now apply lookup_total_app_l.
  - rewrite !list_lookup_total_alt.
    rewrite (lookup_ge_None_2 (heap w)) by lia.
    rewrite lookup_app_r by lia.
    destruct (l - length (heap w)) as [| n]; reflexivity.
Qed.

(** ** What never touches the interval *)

#[export] Instance keeps_preorder : PreOrder keeps.
Proof.
  split.
  - intros w. repeat split.
  - intros a b c (I1 & L1 & H1) (I2 & L2 & H2).
    split; [congruence | split; [congruence | intros l; now rewrite H2]].
Qed.

Lemma keeps_update (this : loc) (f : Obj -> Obj) :
  (forall o, intervalSeconds (f o) = intervalSeconds o) -> stable keeps (update this f).
Proof.
  intros H w. repeat split.
  - unfold after, update; simpl. apply length_insert.
  - intros l. now apply (obj_update_field intervalSeconds).
Qed.

Lemma keeps_record (c : Call) : stable keeps (record c).
Proof. intros w. repeat split. Qed.

Lemma keeps_invoke (h : Host) (c : Call) : stable keeps (invoke h c).
Proof. intros w. repeat split. Qed.

Lemma keeps_suspend (t : Task) : stable keeps (suspend t).
Proof. intros w. repeat split. Qed.

Lemma keeps_subscribe (this : loc) (pid : option string) : stable keeps (subscribe this pid).
Proof. intros w. repeat split. Qed.

Lemma keeps_setTimeout (this : loc) (d : Number) : stable keeps (setTimeout this d).
Proof. intros w. repeat split. Qed.

Lemma keeps_clearTimeout (id : option Handle) : stable keeps (clearTimeout id).
Proof. intros w. destruct id; repeat split. Qed.

Lemma keeps_unref (id : Handle) : stable keeps (unref id).
Proof. intros w. repeat split. Qed.

#[export] Hint Resolve keeps_record keeps_invoke keeps_suspend keeps_subscribe
  keeps_setTimeout keeps_clearTimeout keeps_unref : stable.
#[export] Hint Extern 1 (stable keeps (update _ _)) =>
  (apply keeps_update; intros []; reflexivity) : stable.

Ltac stable_auto := stable_split; eauto with stable.

Lemma keeps_watchdog (strategy : Strategy) (h : Host) (this : loc) :
  stable keeps (telemetryWatchdog strategy h this).
Proof.
  unfold telemetryWatchdog, sendMainTelemetry, telemetryWatchdog_finally,
    emit, emit_mailbox, emit_relay.
  stable_auto.
Qed.

Lemma keeps_checkIpc (strategy : Strategy) (h : Host) (this : loc) :
  stable keeps (checkIpc strategy h this).
Proof.
  unfold checkIpc, checkIpc_mailbox, checkIpc_relay. stable_auto.
Qed.

Lemma detach_returns (m : M unit) (w : World) : fst (detach m w) = Returns tt.
Proof. unfold detach. destruct (m w) as [[[]|e] w1]; reflexivity. Qed.

Lemma bind_of {A B} (m : M A) (k : A -> M B) (w : World) (a : A) :
  fst (m w) = Returns a -> bind m k w = k a (after m w).
Proof.
  unfold bind, after. destruct (m w) as [[a'|e] w1]; simpl; intros E;
    [injection E as -> | discriminate]; reflexivity.
Qed.

Lemma construct_first_eq (strategy : Strategy) (h : Host) (arg : option Number) (w : World) :
  instance w = None ->
  construct strategy h arg w = (Returns (length (heap w)), constructed strategy h arg w).
Proof.
  intros Hnone. unfold construct.
  rewrite (bind_of alloc _ w (length (heap w))) by reflexivity.
  rewrite (bind_of get_instance _ _ None) by (simpl; now rewrite Hnone).
  rewrite (bind_of (set_instance _) _ _ tt) by reflexivity.
  rewrite (bind_of (update _ _) _ _ tt) by reflexivity.
  rewrite (bind_of (detach _) _ _ tt) by apply detach_returns.
  rewrite (bind_of (detach _) _ _ tt) by apply detach_returns.
  reflexivity.
Qed.

(** A later construction: a new object is allocated and dropped, the
    instance is returned. *)
Lemma construct_again_eq (strategy : Strategy) (h : Host) (arg : option Number)
    (w : World) (it : loc) :
  instance w = Some it ->
  construct strategy h arg w = (Returns it, after alloc w).
Proof.
  intros Hsome. unfold construct.
  rewrite (bind_of alloc _ w (length (heap w))) by reflexivity.
  rewrite (bind_of get_instance _ _ (Some it)) by (simpl; now rewrite Hsome).
  reflexivity.
Qed.

(** The first construction: the new object becomes the instance and its
    interval is the clamped argument. *)
Lemma construct_first (strategy : Strategy) (h : Host) (arg : option Number) (w : World) :
  instance w = None ->
  let this := length (heap w) in
  let w' := after (construct strategy h arg) w in
  fst (construct strategy h arg w) = Returns this /\
  instance w' = Some this /\
  length (heap w') = S (length (heap w)) /\
  intervalSeconds (obj w' this) = clampInterval (defaultInterval arg).
Proof.
  intros Hnone this w'. subst w'. unfold after at 1 2 3.
  rewrite (construct_first_eq strategy h arg w Hnone). simpl fst. simpl snd.
  unfold constructed. fold this.
  set (f := set_intervalSeconds (clampInterval (defaultInterval arg))).
  set (w1 := after (set_instance this) (after alloc w)).
  assert (Hlen : this < length (heap w1)).
  { subst w1 this. simpl. rewrite length_app. simpl. lia. }
  pose proof (obj_update_eq this f w1 Hlen) as Hobj.
  assert (Hk0 : length (heap (after (update this f) w1)) = S (length (heap w))).
  { unfold after, update; simpl. rewrite length_insert, length_app. simpl. lia. }
  set (w2 := after (update this f) w1) in *.
  pose proof (stable_detach keeps _
                (keeps_watchdog strategy h this) (fun e => keeps_record _) w2) as K1.
  set (w3 := after (detach (telemetryWatchdog strategy h this)) w2) in *.
  pose proof (stable_detach keeps _
                (keeps_checkIpc strategy h this) (fun e => keeps_record _) w3) as K2.
  set (w4 := after (detach (checkIpc strategy h this)) w3) in *.
  assert (K : keeps w2 w4) by (etransitivity; eassumption).
  destruct K as (KI & KL & KS).
  repeat split.
  - rewrite KI. reflexivity.
  - rewrite KL. exact Hk0.
  - rewrite KS, Hobj. reflexivity.
Qed.

(** ** The interval *)

Lemma Qlt_bool_true (a b : Q) : Qlt_bool a b = true <-> (a < b)%Q.
Proof.
  unfold Qlt_bool. rewrite negb_true_iff. split.
  - intros H. apply Qnot_le_lt. intros L. apply Qle_bool_iff in L. congruence.
  - intros H. destruct (Qle_bool b a) eqn:E; [| reflexivity].
    apply Qle_bool_iff in E. exfalso. eapply Qlt_not_le; eassumption.
Qed.

Lemma Qlt_bool_false (a b : Q) : Qlt_bool a b = false <-> (b <= a)%Q.
Proof.
  unfold Qlt_bool. rewrite negb_false_iff. apply Qle_bool_iff.
Qed.

Lemma clampInterval_spec (x : Number) :
  (x = NaN \/ is_zero x \/ num_lt x (num_of_Z 1) = true ->
   clampInterval x = num_of_Z 1) /\
  (num_gt x (num_of_Z 180) = true -> clampInterval x = num_of_Z 180) /\
  (x <> NaN -> num_lt x (num_of_Z 1) = false -> num_gt x (num_of_Z 180) = false ->
   clampInterval x = x) /\
  in_range (clampInterval x).
Proof.
  assert (R1 : in_range (num_of_Z 1)) by (exists 1%Q; repeat split; discriminate).
  assert (R180 : in_range (num_of_Z 180)) by (exists 180%Q; repeat split; discriminate).
  unfold clampInterval.
  destruct x as [| | | q]; simpl.
  - repeat split; try discriminate; try congruence; auto.
  - repeat split; try discriminate; try congruence; auto.
    intros [E | [(q & E & _) | E]]; discriminate.
  - repeat split; try discriminate; try congruence; auto.
  - change (inject_Z 1) with 1%Q. change (inject_Z 180) with 180%Q.
    destruct (Qeq_bool q 0) eqn:Ez; simpl.
    + apply Qeq_bool_iff in Ez. repeat split; auto.
      * intros G. apply Qlt_bool_true in G. lra.
      * intros _ L. apply Qlt_bool_false in L. lra.
    + assert (Hz : ~ (q == 0)%Q).
      { intros Z. apply Qeq_bool_iff in Z. congruence. }
      destruct (Qlt_bool q 1) eqn:E1; simpl.
      * apply Qlt_bool_true in E1. repeat split; auto; try discriminate.
        intros G. apply Qlt_bool_true in G. lra.
      * apply Qlt_bool_false in E1.
        destruct (Qlt_bool 180 q) eqn:E180; simpl.
        -- repeat split; auto; try discriminate.
           intros [E | [(q' & E & Z) | E]]; try discriminate.
           injection E as <-. contradiction.
        -- apply Qlt_bool_false in E180. repeat split; auto; try discriminate.
           ++ intros [E | [(q' & E & Z) | E]]; try discriminate.
              injection E as <-. contradiction.
           ++ exists q. repeat split; assumption.
Qed.

(** C3: on first construction the stored interval is the argument
    clamped into [1,180]: NaN (the number that is not one), zero and
    anything below 1 store 1, anything above 180 stores 180, every other
    number is stored as it is. *)
Theorem constructor_clamps_interval (strategy : Strategy) (h : Host)
    (x : Number) (w : World) :
  instance w = None ->
  let stored :=
    intervalSeconds (obj (after (construct strategy h (Some x)) w) (length (heap w))) in
  (x = NaN \/ is_zero x \/ num_lt x (num_of_Z 1) = true -> stored = num_of_Z 1) /\
  (num_gt x (num_of_Z 180) = true -> stored = num_of_Z 180) /\
  (x <> NaN -> num_lt x (num_of_Z 1) = false -> num_gt x (num_of_Z 180) = false ->
   stored = x) /\
  in_range stored.
Proof.
  intros Hnone stored.
  destruct (construct_first strategy h (Some x) w Hnone) as (_ & _ & _ & E).
  subst stored. rewrite E. simpl. apply clampInterval_spec.
Qed.

Lemma constructor_clamps_interval_witness :
  intervalSeconds (obj (after (construct FileMailbox supervised (Some NaN)) initial) 0)
    = num_of_Z 1 /\
  intervalSeconds (obj (after (construct FileMailbox supervised (Some (num_of_Z 0))) initial) 0)
    = num_of_Z 1 /\
  intervalSeconds (obj (after (construct FileMailbox supervised (Some (num_of_Z 181))) initial) 0)
    = num_of_Z 180 /\
  intervalSeconds (obj (after (construct SupervisorRelay standalone (Some (num_of_Z 60))) initial) 0)
    = num_of_Z 60.
Proof.
  split; [| split; [| split]].
  - apply (proj1 (constructor_clamps_interval FileMailbox supervised NaN initial
                    eq_refl)).
    left. reflexivity.
  - apply (proj1 (constructor_clamps_interval FileMailbox supervised (num_of_Z 0) initial
                    eq_refl)).
    right. left. exists 0%Q. split; reflexivity.
  - apply (proj1 (proj2 (constructor_clamps_interval FileMailbox supervised
                           (num_of_Z 181) initial eq_refl))).
    reflexivity.
  - apply (proj1 (proj2 (proj2 (constructor_clamps_interval SupervisorRelay standalone
                                  (num_of_Z 60) initial eq_refl)))).
    + discriminate.
    + reflexivity.
    + reflexivity.
Defined.

(** C10: without an argument the first construction stores 5, the
    default of the parameter, not the 15 of the field initializer (and of
    the doc comment). *)
Theorem constructor_default_is_5 (strategy : Strategy) (h : Host) (w : World) :
  instance w = None ->
  intervalSeconds (obj (after (construct strategy h None) w) (length (heap w)))
    = num_of_Z 5 /\
  intervalSeconds fieldInit = num_of_Z 15 /\
  num_of_Z 5 <> num_of_Z 15.
Proof.
  intros Hnone.
  destruct (construct_first strategy h None w Hnone) as (_ & _ & _ & E).
  rewrite E. repeat split. discriminate.
Qed.

Lemma constructor_default_is_5_witness :
  intervalSeconds (obj (after (construct FileMailbox supervised None) initial) 0)
    = num_of_Z 5.
Proof.
  apply (proj1 (constructor_default_is_5 FileMailbox supervised initial eq_refl)).
Defined.

(** ** The invariant of the event loop *)

#[export] Instance shut_preorder (this : loc) : PreOrder (shut this).
Proof.
  split.
  - intros w T. auto.
  - intros a b c H1 H2 T. destruct (H1 T) as [Tb Ab]. destruct (H2 Tb) as [Tc Ac].
    split; [exact Tc |]. intros A. destruct (Ab A) as [A' E1].
    destruct (Ac A') as [A'' E2]. split; [exact A'' | congruence].
Qed.

Lemma tidy_no_timer (this : loc) (w : World) :
  tidy this w -> aborted (obj w this) = true -> timers w = [].
Proof.
  intros (_ & _ & Ht & _) A. destruct (timers w) as [| t l]; [reflexivity |].
  inversion Ht as [| ? ? (_ & _ & F) _]. congruence.
Qed.

Lemma timeouts_app (w : World) (c : Call) :
  is_SetTimeout c = false -> List.filter is_SetTimeout (log w ++ [c]) = timeouts w.
Proof.
  intros H. unfold timeouts. rewrite List.filter_app. simpl. rewrite H.
  apply app_nil_r.
Qed.

Lemma shut_record (this : loc) (c : Call) :
  is_SetTimeout c = false -> stable (shut this) (record c).
Proof.
  intros H w T. split; [exact T |]. intros A. split; [exact A |].
  unfold timeouts at 1. simpl. now apply timeouts_app.
Qed.

Lemma shut_invoke (this : loc) (h : Host) (c : Call) :
  is_SetTimeout c = false -> stable (shut this) (invoke h c).
Proof.
  intros H w T. split; [exact T |]. intros A. split; [exact A |].
  unfold timeouts at 1. simpl. now apply timeouts_app.
Qed.

Lemma shut_update (this l : loc) (f : Obj -> Obj) :
  (forall o, timer (f o) = timer o) -> (forall o, aborted (f o) = aborted o) ->
  stable (shut this) (update l f).
Proof.
  intros Ht Ha w (I & L & T & W & S).
  pose proof (obj_update_field timer l this f w Ht) as Et.
  pose proof (obj_update_field aborted l this f w Ha) as Ea.
  split.
  - split; [exact I |]. split.
    { unfold after, update; simpl. now rewrite length_insert. }
    split; [| split; [exact W | exact S]].
    change (timers (after (update l f) w)) with (timers w).
    rewrite Et, Ea. exact T.
  - intros A. rewrite Ea. split; [exact A | reflexivity].
Qed.

Lemma shut_suspend (this : loc) (t : Task) :
  task_this t = this -> stable (shut this) (suspend t).
Proof.
  intros H w (I & L & T & W & S). split; [| auto].
  repeat split; try assumption.
  unfold after, suspend; simpl. apply Forall_app. split; [exact W |].
  repeat constructor. exact H.
Qed.

Lemma shut_subscribe (this : loc) (pid : option string) :
  stable (shut this) (subscribe this pid).
Proof.
  intros w (I & L & T & W & S). split; [| auto].
  repeat split; try assumption.
  unfold after, subscribe; simpl. apply Forall_app. split; [exact S |].
  repeat constructor.
Qed.

#[export] Hint Resolve shut_subscribe : stable.
#[export] Hint Extern 1 (stable (shut _) (record _)) =>
  (apply shut_record; reflexivity) : stable.
#[export] Hint Extern 1 (stable (shut _) (invoke _ _)) =>
  (apply shut_invoke; reflexivity) : stable.
#[export] Hint Extern 1 (stable (shut _) (suspend _)) =>
  (apply shut_suspend; reflexivity) : stable.
#[export] Hint Extern 1 (stable (shut _) (update _ _)) =>
  (apply shut_update; intros []; reflexivity) : stable.

Lemma filter_same_handle (id : Handle) (l : list Timer) :
  Forall (fun t => handle t = id) l ->
  List.filter (fun t => negb (Pos.eqb (handle t) id)) l = [].
Proof.
  induction 1 as [| t l E _ IH]; [reflexivity |].
  simpl. rewrite E, Pos.eqb_refl. exact IH.
Qed.

(** In a tidy world, [clearTimeout(this.timer)] leaves no live timer. *)
Lemma tidy_clear (this : loc) (w : World) :
  tidy this w -> timers (after (clearTimeout (timer (obj w this))) w) = [].
Proof.
  intros (_ & _ & T & _). unfold after, clearTimeout.
  destruct (timer (obj w this)) as [id |] eqn:E; simpl.
  - apply filter_same_handle. eapply Forall_impl; [exact T |].
    intros t (_ & Et & _). congruence.
  - destruct (timers w) as [| t l]; [reflexivity |].
    inversion T as [| ? ? (_ & F & _) _]. discriminate.
Qed.

Lemma clear_is_clearTimeout (t : option Handle) :
  match t with
  | Some id => clearTimeout (Some id)
  | None => ret tt
  end = clearTimeout t.
Proof. destruct t; reflexivity. Qed.

Lemma clearTimeout_returns (t : option Handle) (w : World) :
  fst (clearTimeout t w) = Returns tt.
Proof. destruct t; reflexivity. Qed.

Lemma abort_tidy (this : loc) (w : World) :
  tidy this w ->
  tidy this (abort this w) /\ aborted (obj (abort this w) this) = true /\
  timeouts (abort this w) = timeouts w.
Proof.
  intros (I & L & T & W & S). unfold abort.
  set (w1 := after (update this (set_aborted true)) w).
  assert (E1 : obj w1 this = set_aborted true (obj w this))
    by now apply obj_update_eq.
  assert (Hcl : timers (after (clearTimeout (timer (obj w1 this))) w1) = []).
  { rewrite E1. simpl timer. unfold after, clearTimeout.
    destruct (timer (obj w this)) as [id |] eqn:E; simpl.
    - apply filter_same_handle. eapply Forall_impl; [exact T |].
      intros t (_ & Et & _). congruence.
    - destruct (timers w) as [| t l]; [reflexivity |].
      inversion T as [| ? ? (_ & F & _) _]. discriminate. }
  assert (Eo : obj (after (clearTimeout (timer (obj w1 this))) w1) this = obj w1 this).
  { destruct (timer (obj w1 this)); reflexivity. }
  assert (El : length (heap (after (clearTimeout (timer (obj w1 this))) w1))
               = length (heap w)).
  { destruct (timer (obj w1 this)); unfold after, clearTimeout, w1, update; simpl;
      apply length_insert. }
  split; [| split].
  - split; [| split; [| split; [| split]]].
    + destruct (timer (obj w1 this)); exact I.
    + rewrite El. exact L.
    + rewrite Hcl. constructor.
    + destruct (timer (obj w1 this)); exact W.
    + destruct (timer (obj w1 this)); exact S.
  - rewrite Eo, E1. reflexivity.
  - destruct (timer (obj w1 this)); reflexivity.
Qed.

Lemma close_after_abort (strategy : Strategy) (h : Host) (this : loc) (w : World) :
  exists rest : M unit,
    stable (shut this) rest /\
    close strategy h this w = rest (abort this w).
Proof.
  destruct strategy; unfold close, close_mailbox, close_relay;
    (eexists; split;
     [| rewrite (bind_of (update _ _) _ w tt) by reflexivity;
        rewrite (bind_of (read this) _ _ (obj (after (update this (set_aborted true)) w) this))
          by reflexivity;
        rewrite clear_is_clearTimeout;
        rewrite (bind_of (clearTimeout _) _ _ tt) by apply clearTimeout_returns;
        reflexivity]);
    unfold events_close; stable_auto.
Qed.

Lemma shut_close (strategy : Strategy) (h : Host) (this : loc) :
  stable (shut this) (close strategy h this).
Proof.
  intros w T.
  destruct (close_after_abort strategy h this w) as (rest & Hrest & E).
  destruct (abort_tidy this w T) as (T1 & A1 & E1).
  unfold after. rewrite E.
  destruct (Hrest (abort this w) T1) as [T2 A2].
  split; [exact T2 |]. intros _. destruct (A2 A1) as [A3 E3].
  split; [exact A3 | unfold after in E3; congruence].
Qed.

(** [close] sets the flag whatever else happens in it. *)
Lemma close_aborts (strategy : Strategy) (h : Host) (this : loc) (w : World) :
  tidy this w -> aborted (obj (after (close strategy h this) w) this) = true.
Proof.
  intros T.
  destruct (close_after_abort strategy h this w) as (rest & Hrest & E).
  destruct (abort_tidy this w T) as (T1 & A1 & E1).
  unfold after. rewrite E.
  destruct (Hrest (abort this w) T1) as [T2 A2]. now destruct (A2 A1).
Qed.

Lemma shut_finally (h : Host) (this : loc) :
  stable (shut this) (telemetryWatchdog_finally h this).
Proof.
  intros w T. pose proof (tidy_clear this w T) as Hcl.
  destruct T as (I & L & T & W & S).
  unfold telemetryWatchdog_finally, after.
  rewrite (bind_of (read this) _ w (obj w this)) by reflexivity.
  rewrite (bind_of (clearTimeout _) _ _ tt) by apply clearTimeout_returns.
  change (after (read this) w) with w.
  set (w1 := after (clearTimeout (timer (obj w this))) w) in *.
  assert (Eo : obj w1 this = obj w this).
  { subst w1. destruct (timer (obj w this)); reflexivity. }
  assert (Eh : heap w1 = heap w).
  { subst w1. destruct (timer (obj w this)); reflexivity. }
  assert (T1 : tidy this w1).
  { split; [| split; [| split; [| split]]].
    - subst w1. destruct (timer (obj w this)); exact I.
    - rewrite Eh. exact L.
    - rewrite Hcl. constructor.
    - subst w1. destruct (timer (obj w this)); exact W.
    - subst w1. destruct (timer (obj w this)); exact S. }
  assert (El : timeouts w1 = timeouts w).
  { subst w1. destruct (timer (obj w this)); reflexivity. }
  rewrite (bind_of (read this) _ w1 (obj w1 this)) by reflexivity.
  change (after (read this) w1) with w1. rewrite Eo.
  destruct (aborted (obj w this)) eqn:A; simpl negb; cbv iota.
  - split; [exact T1 |]. intros _. split; [| exact El].
    unfold ret; simpl. now rewrite Eo.
  - split; [| discriminate].
    destruct T1 as (I1 & L1 & _ & W1 & S1).
    unfold bind, setTimeout, update, unref, ret; simpl.
    rewrite Hcl. simpl. rewrite Eh.
    assert (Ht : timer (<[this:=set_timer (Some (fresh w1)) (heap w !!! this)]> (heap w) !!! this)
                 = Some (fresh w1) /\
                 aborted (<[this:=set_timer (Some (fresh w1)) (heap w !!! this)]> (heap w) !!! this)
                 = false).
    { rewrite list_lookup_total_insert_eq by (rewrite <- Eh; exact L1).
      split; [reflexivity | exact A]. }
    destruct (CurrentRuntime h); simpl; rewrite ?Pos.eqb_refl;
      unfold tidy, obj; simpl; rewrite ?Eh;
      (split; [exact I1 | split; [rewrite length_insert; exact L |
        split; [repeat constructor; apply Ht | split; [exact W1 | exact S1]]]]).
Qed.

#[export] Hint Resolve shut_close shut_finally : stable.

Lemma shut_emit (strategy : Strategy) (h : Host) (this l : loc)
    (target event : string) (eventData : Value) :
  stable (shut this) (emit strategy h l target event eventData).
Proof. unfold emit, emit_mailbox, emit_relay. stable_auto. Qed.

#[export] Hint Resolve shut_emit : stable.

Lemma shut_sendMainTelemetry (strategy : Strategy) (h : Host) (this : loc) :
  stable (shut this) (sendMainTelemetry strategy h this).
Proof. unfold sendMainTelemetry. stable_auto. Qed.

#[export] Hint Resolve shut_sendMainTelemetry : stable.

Lemma shut_watchdog (strategy : Strategy) (h : Host) (this : loc) :
  stable (shut this) (telemetryWatchdog strategy h this).
Proof. unfold telemetryWatchdog. stable_auto. Qed.

Lemma shut_alloc (this : loc) : stable (shut this) alloc.
Proof.
  intros w (I & L & T & W & S). split.
  - split; [exact I |]. split.
    { unfold after, alloc; simpl. rewrite length_app. lia. }
    split; [| split; [exact W | exact S]].
    change (timers (after alloc w)) with (timers w). rewrite obj_alloc. exact T.
  - intros A. rewrite obj_alloc. split; [exact A | reflexivity].
Qed.

(** Once there is an instance, a construction allocates and nothing
    more. *)
Lemma shut_construct (strategy : Strategy) (h : Host) (this : loc) (arg : option Number) :
  stable (shut this) (construct strategy h arg).
Proof.
  intros w T. pose proof T as (I & _). unfold after.
  rewrite (construct_again_eq strategy h arg w this I). now apply shut_alloc.
Qed.

Lemma shut_on (this : loc) (event : string) (fn : Listener) :
  stable (shut this) (on this event fn).
Proof. unfold on. stable_auto. Qed.

Lemma shut_off (this : loc) (event : string) (fn : nat) :
  stable (shut this) (off this event fn).
Proof. unfold off. stable_auto. Qed.

#[export] Hint Resolve shut_watchdog shut_construct shut_on shut_off : stable.

Lemma shut_run_handler (strategy : Strategy) (h : Host) (this : loc) (fn : Handler) :
  stable (shut this) (run_handler strategy h this fn).
Proof.
  induction fn; simpl; stable_auto.
Qed.

#[export] Hint Resolve shut_run_handler : stable.

Lemma shut_run_handlers (strategy : Strategy) (h : Host) (this : loc) (fns : list Handler) :
  stable (shut this) (run_handlers strategy h this fns).
Proof.
  induction fns as [| fn rest IH]; simpl; stable_auto.
Qed.

#[export] Hint Resolve shut_run_handlers : stable.

Lemma shut_events_emit (strategy : Strategy) (h : Host) (this : loc) (name data : Value) :
  stable (shut this) (events_emit strategy h this name data).
Proof. unfold events_emit. stable_auto. Qed.

#[export] Hint Resolve shut_events_emit : stable.

Lemma shut_process_messages (strategy : Strategy) (h : Host) (this : loc)
    (messages : list Message) :
  stable (shut this) (process_messages strategy h this messages).
Proof.
  induction messages as [| m rest IH]; simpl; [apply stable_ret; exact _ |].
  unfold turn, handle_message. stable_auto.
Qed.

#[export] Hint Resolve shut_process_messages : stable.

Lemma shut_checkIpc (strategy : Strategy) (h : Host) (this : loc) :
  stable (shut this) (checkIpc strategy h this).
Proof. unfold checkIpc, checkIpc_mailbox, checkIpc_relay. stable_auto. Qed.

Lemma shut_checkIpc_resume (h : Host) (this : loc) (path : string) (pid : option string) :
  stable (shut this) (checkIpc_mailbox_resume h this path pid).
Proof. unfold checkIpc_mailbox_resume. stable_auto. Qed.

Lemma shut_checkIpc_batch (strategy : Strategy) (h : Host) (this : loc) (path : string)
    (messages : list Message) :
  stable (shut this) (checkIpc_mailbox_batch strategy h this path messages).
Proof. unfold checkIpc_mailbox_batch. stable_auto. Qed.

Lemma shut_ipcHandler (strategy : Strategy) (h : Host) (this : loc) (pid : option string)
    (payload : Value) :
  stable (shut this) (ipcHandler strategy h this pid payload).
Proof. unfold ipcHandler. stable_auto. Qed.

#[export] Hint Resolve shut_checkIpc shut_checkIpc_resume shut_checkIpc_batch
  shut_ipcHandler : stable.

(** *** Every step keeps the invariant *)

Lemma shut_drop_task (this : loc) (i : nat) (w : World) : shut this w (drop_task i w).
Proof.
  intros (I & L & T & W & S). split; [| auto].
  repeat split; try assumption. simpl. now apply Forall_delete.
Qed.

Lemma shut_drop_timer (this : loc) (id : Handle) (w : World) : shut this w (drop_timer id w).
Proof.
  intros (I & L & T & W & S). split; [| auto].
  repeat split; try assumption. simpl.
  eapply incl_Forall; [apply incl_filter | exact T].
Qed.

Lemma step_shut (strategy : Strategy) (h : Host) (this : loc) (ev : Event) (w w' : World) :
  tidy this w -> step strategy h ev w = Some w' -> shut this w w'.
Proof.
  intros T E. pose proof T as (I & L & Tt & W & S).
  destruct ev as [arg | | target event eventData | event fn | event fn
                     | i | i messages | id | i payload]; simpl in E.
  - injection E as <-. unfold after.
    rewrite (construct_again_eq strategy h arg w this I). apply shut_alloc.
  - rewrite I in E. injection E as <-. apply shut_close.
  - rewrite I in E. injection E as <-. apply shut_emit.
  - rewrite I in E. injection E as <-. apply shut_on.
  - rewrite I in E. injection E as <-. apply shut_off.
  - destruct (awaiting w !! i) as [[l | l path pid | l path] |] eqn:Ei; try discriminate;
      injection E as <-;
      pose proof (Forall_lookup_1 _ _ _ _ W Ei) as El; simpl in El; subst l;
      (etransitivity; [apply shut_drop_task |]).
    + apply shut_finally.
    + apply stable_detach; [exact _ | apply shut_checkIpc_resume |].
      intros e. apply shut_record. reflexivity.
  - destruct (awaiting w !! i) as [[l | l path pid | l path] |] eqn:Ei; try discriminate.
    injection E as <-.
    pose proof (Forall_lookup_1 _ _ _ _ W Ei) as El; simpl in El; subst l.
    etransitivity; [apply shut_drop_task |].
    apply stable_detach; [exact _ | apply shut_checkIpc_batch |].
    intros e. apply shut_record. reflexivity.
  - destruct (List.find _ (timers w)) as [t |] eqn:Ef; try discriminate.
    injection E as <-.
    apply find_some in Ef. destruct Ef as [Hin _].
    rewrite List.Forall_forall in Tt. destruct (Tt t Hin) as (Eo & _). rewrite Eo.
    etransitivity; [apply shut_drop_timer |].
    apply stable_detach; [exact _ | apply shut_watchdog |].
    intros e. apply shut_record. reflexivity.
  - destruct (relayHandlers w !! i) as [[l pid] |] eqn:Ei; try discriminate.
    injection E as <-.
    pose proof (Forall_lookup_1 _ _ _ _ S Ei) as El; simpl in El; subst l.
    apply shut_ipcHandler.
Qed.

(** No timer can fire once the flag is set. *)
Lemma step_fire_aborted (strategy : Strategy) (h : Host) (this : loc) (id : Handle)
    (w : World) :
  tidy this w -> aborted (obj w this) = true -> step strategy h (Fire id) w = None.
Proof.
  intros T A. simpl. now rewrite (tidy_no_timer this w T A).
Qed.

Lemma run_shut (strategy : Strategy) (h : Host) (this : loc) (evs : list Event) :
  forall w w', tidy this w -> run strategy h evs w = Some w' ->
    shut this w w' /\
    (aborted (obj w this) = true -> Forall (fun ev => is_Fire ev = false) evs).
Proof.
  induction evs as [| ev rest IH]; intros w w' T E; simpl in E.
  - injection E as <-. split; [reflexivity | constructor].
  - destruct (step strategy h ev w) as [w1 |] eqn:E1; [| discriminate].
    pose proof (step_shut strategy h this ev w w1 T E1) as S1.
    destruct (S1 T) as [T1 A1].
    destruct (IH w1 w' T1 E) as [S2 F2].
    split; [etransitivity; eassumption |].
    intros A. constructor.
    + destruct ev; try reflexivity.
      rewrite (step_fire_aborted strategy h this id w T A) in E1. discriminate.
    + apply F2. now apply A1.
Qed.

Lemma constructed_tidy (strategy : Strategy) (h : Host) (arg : option Number) (w : World) :
  blank w -> tidy (length (heap w)) (constructed strategy h arg w).
Proof.
  intros (I & T & W & S). unfold constructed.
  set (this := length (heap w)).
  set (w0 := after (set_instance this) (after alloc w)).
  assert (T0 : tidy this w0).
  { subst w0 this. unfold tidy; simpl. rewrite T, W, S, length_app. simpl.
    repeat split; try constructor. lia. }
  assert (H1 : stable (shut this)
                 (update this (set_intervalSeconds (clampInterval (defaultInterval arg)))))
    by stable_auto.
  destruct (H1 w0 T0) as [T1 _].
  assert (H2 : stable (shut this) (detach (telemetryWatchdog strategy h this)))
    by stable_auto.
  destruct (H2 _ T1) as [T2 _].
  assert (H3 : stable (shut this) (detach (checkIpc strategy h this)))
    by stable_auto.
  destruct (H3 _ T2) as [T3 _]. exact T3.
Qed.

Lemma step_blank (strategy : Strategy) (h : Host) (ev : Event) (w w' : World) :
  blank w -> step strategy h ev w = Some w' ->
  exists arg, ev = New arg /\ w' = constructed strategy h arg w.
Proof.
  intros B E. pose proof B as (I & T & W & S).
  destruct ev; simpl in E; rewrite ?I, ?T, ?W, ?S in E; try discriminate.
  injection E as <-. eexists. split; [reflexivity |].
  unfold after. now rewrite (construct_first_eq strategy h arg w I).
Qed.

Lemma run_sound (strategy : Strategy) (h : Host) (evs : list Event) :
  forall w w', sound w -> run strategy h evs w = Some w' -> sound w'.
Proof.
  induction evs as [| ev rest IH]; intros w w' Hs E; simpl in E.
  - now injection E as <-.
  - destruct (step strategy h ev w) as [w1 |] eqn:E1; [| discriminate].
    apply (IH w1 w'); [| exact E].
    destruct Hs as [B | [this T]].
    + destruct (step_blank strategy h ev w w1 B E1) as (arg & _ & ->).
      right. eexists. now apply constructed_tidy.
    + right. exists this. now apply (step_shut strategy h this ev w w1 T E1).
Qed.

Lemma initial_blank : blank initial.
Proof. repeat split. Qed.

Lemma reachable_tidy (strategy : Strategy) (h : Host) (evs : list Event)
    (w : World) (this : loc) :
  run strategy h evs initial = Some w -> instance w = Some this -> tidy this w.
Proof.
  intros E I.
  destruct (run_sound strategy h evs initial w (or_introl initial_blank) E)
    as [(B & _) | [l T]].
  - congruence.
  - destruct T as (I' & ?). assert (l = this) by congruence. subst l.
    split; assumption.
Qed.

(** ** Shutdown *)

(** [close] throws only what closing the transport throws. *)
Lemma close_returns (strategy : Strategy) (h : Host) (this : loc) (w : World) :
  closes_quietly h -> fst (close strategy h this w) = Returns tt.
Proof.
  intros Hq.
  destruct strategy; unfold close, close_mailbox, close_relay;
    rewrite (bind_of (update _ _) _ w tt) by reflexivity;
    rewrite (bind_of (read this) _ _ (obj (after (update this (set_aborted true)) w) this))
      by reflexivity;
    rewrite clear_is_clearTimeout;
    rewrite (bind_of (clearTimeout _) _ _ tt) by apply clearTimeout_returns;
    match goal with
    | |- context [bind (read this) _ ?w1] =>
        rewrite (bind_of (read this) _ w1 (obj w1 this)) by reflexivity;
        destruct (ipc (obj w1 this)) as [path |];
        destruct (ipcClient (obj w1 this)) as [c |]
    end;
    unfold bind, invoke, ret, events_close, record, update; simpl;
    rewrite ?Hq by reflexivity; reflexivity.
Qed.

(** C5: in every run of the event loop, of either variant: [close()]
    sets [aborted]; from then on, whatever happens, the flag stays set, no
    [setTimeout] is called, no timer is pending, no timer fires (the
    watchdog does not tick), and a further [close()] returns normally
    (provided closing the transport does). *)
Theorem close_is_final (strategy : Strategy) (h : Host)
    (before : list Event) (w w1 : World) (this : loc) :
  run strategy h before initial = Some w ->
  instance w = Some this ->
  step strategy h Close w = Some w1 ->
  aborted (obj w1 this) = true /\
  forall (later : list Event) (w2 : World),
    run strategy h later w1 = Some w2 ->
    aborted (obj w2 this) = true /\
    timeouts w2 = timeouts w1 /\
    timers w2 = [] /\
    Forall (fun ev => is_Fire ev = false) later /\
    (forall id, step strategy h (Fire id) w2 = None) /\
    (closes_quietly h -> fst (close strategy h this w2) = Returns tt).
Proof.
  intros Hrun I Hclose.
  pose proof (reachable_tidy strategy h before w this Hrun I) as T.
  destruct (step_shut strategy h this Close w w1 T Hclose T) as [T1 _].
  assert (A1 : aborted (obj w1 this) = true).
  { simpl in Hclose. rewrite I in Hclose. injection Hclose as <-.
    now apply close_aborts. }
  split; [exact A1 |].
  intros later w2 Hlater.
  destruct (run_shut strategy h this later w1 w2 T1 Hlater) as [S2 F2].
  destruct (S2 T1) as [T2 A2]. destruct (A2 A1) as [A3 E3].
  split; [exact A3 |]. split; [exact E3 |].
  split; [now apply (tidy_no_timer this) |].
  split; [now apply F2 |].
  split; [intros id; now apply (step_fire_aborted strategy h this) |].
  intros Hq. now apply close_returns.
Qed.

Lemma close_is_final_witness :
  timers armed_world <> [] /\
  aborted (obj closed_world 0) = true /\
  exists w2,
    run FileMailbox supervised later_run closed_world = Some w2 /\
    aborted (obj w2 0) = true /\
    timeouts w2 = timeouts closed_world /\
    timers w2 = [] /\
    fst (close FileMailbox supervised 0 w2) = Returns tt.
Proof.
  split; [vm_compute; discriminate |].
  assert (Hrun : run FileMailbox supervised [New None; Resume 0] initial
                 = Some armed_world) by (vm_compute; reflexivity).
  assert (Hinst : instance armed_world = Some 0) by (vm_compute; reflexivity).
  assert (Hclose : step FileMailbox supervised Close armed_world = Some closed_world)
    by (vm_compute; reflexivity).
  destruct (close_is_final FileMailbox supervised [New None; Resume 0]
              armed_world closed_world 0 Hrun Hinst Hclose) as [A H].
  split; [exact A |].
  destruct (run FileMailbox supervised later_run closed_world) as [w2 |] eqn:E;
    [| vm_compute in E; discriminate].
  exists w2. split; [reflexivity |].
  destruct (H later_run w2 E) as (A2 & E2 & T2 & _ & _ & Q).
  repeat split; try assumption.
  apply Q. intros c _. reflexivity.
Defined.

(** ** The singleton *)

(** C4: of two constructions in one process (whatever happened before
    the first and between the two), the second returns the very location
    the first returned and leaves every field of the instance, the
    interval among them, and every pending timer, suspended activation
    and logged call as they were; all it does is allocate the object that
    [new] then drops. *)
Theorem second_construction_is_inert (strategy : Strategy) (h : Host)
    (before between : list Event) (arg1 arg2 : option Number) (w0 w1 : World) :
  run strategy h before initial = Some w0 ->
  run strategy h between (after (construct strategy h arg1) w0) = Some w1 ->
  exists this,
    fst (construct strategy h arg1 w0) = Returns this /\
    fst (construct strategy h arg2 w1) = Returns this /\
    let w2 := after (construct strategy h arg2) w1 in
    obj w2 this = obj w1 this /\
    instance w2 = instance w1 /\ timers w2 = timers w1 /\
    awaiting w2 = awaiting w1 /\ relayHandlers w2 = relayHandlers w1 /\
    log w2 = log w1.
Proof.
  intros Hbefore Hbetween.
  assert (Hfirst : exists this,
            fst (construct strategy h arg1 w0) = Returns this /\
            tidy this (after (construct strategy h arg1) w0)).
  { destruct (run_sound strategy h before initial w0 (or_introl initial_blank) Hbefore)
      as [B | [it T]].
    - exists (length (heap w0)). pose proof B as (I & _). unfold after.
      rewrite (construct_first_eq strategy h arg1 w0 I). split; [reflexivity |].
      now apply constructed_tidy.
    - exists it. pose proof T as (I & _). unfold after.
      rewrite (construct_again_eq strategy h arg1 w0 it I). split; [reflexivity |].
      now apply shut_alloc. }
  destruct Hfirst as (this & R1 & T1). exists this. split; [exact R1 |].
  destruct (run_shut strategy h this between _ w1 T1 Hbetween) as [S _].
  destruct (S T1) as [(I & _) _].
  unfold after. rewrite (construct_again_eq strategy h arg2 w1 this I).
  split; [reflexivity |]. simpl snd. split; [apply obj_alloc |].
  repeat split.
Qed.

Lemma second_construction_is_inert_witness :
  exists this,
    fst (construct FileMailbox supervised None initial) = Returns this /\
    fst (construct FileMailbox supervised (Some (num_of_Z 60))
           (after (construct FileMailbox supervised None) initial)) = Returns this /\
    intervalSeconds
      (obj (after (construct FileMailbox supervised (Some (num_of_Z 60)))
              (after (construct FileMailbox supervised None) initial)) this)
    = num_of_Z 5.
Proof.
  destruct (second_construction_is_inert FileMailbox supervised [] []
              None (Some (num_of_Z 60)) initial
              (after (construct FileMailbox supervised None) initial)
              eq_refl eq_refl) as (this & R1 & R2 & Ho & _).
  exists this. split; [exact R1 |]. split; [exact R2 |].
  rewrite Ho.
  assert (E : this = 0%nat).
  { vm_compute in R1. now injection R1 as <-. }
  subst this. vm_compute. reflexivity.
Defined.

(** ** The log only grows *)

#[export] Instance grows_preorder : PreOrder grows.
Proof.
  split.
  - intros w. exists []. now rewrite app_nil_r.
  - intros a b c [l1 E1] [l2 E2]. exists (l1 ++ l2). now rewrite E2, E1, app_assoc.
Qed.

Lemma grows_same (w w' : World) : log w' = log w -> grows w w'.
Proof. intros E. exists []. now rewrite app_nil_r. Qed.

Lemma grows_update (this : loc) (f : Obj -> Obj) : stable grows (update this f).
Proof. intros w. now apply grows_same. Qed.

Lemma grows_record (c : Call) : stable grows (record c).
Proof. intros w. now exists [c]. Qed.

Lemma grows_invoke (h : Host) (c : Call) : stable grows (invoke h c).
Proof. intros w. now exists [c]. Qed.

Lemma grows_suspend (t : Task) : stable grows (suspend t).
Proof. intros w. now apply grows_same. Qed.

Lemma grows_clearTimeout (id : option Handle) : stable grows (clearTimeout id).
Proof. intros w. apply grows_same. now destruct id. Qed.

Lemma grows_setTimeout (this : loc) (d : Number) : stable grows (setTimeout this d).
Proof. intros w. now exists [SetTimeout (fresh w) d]. Qed.

Lemma grows_unref (id : Handle) : stable grows (unref id).
Proof. intros w. now apply grows_same. Qed.

Lemma grows_subscribe (this : loc) (pid : option string) : stable grows (subscribe this pid).
Proof. intros w. now apply grows_same. Qed.

Lemma grows_alloc : stable grows alloc.
Proof. intros w. now apply grows_same. Qed.

Lemma grows_set_instance (this : loc) : stable grows (set_instance this).
Proof. intros w. now apply grows_same. Qed.

#[export] Hint Resolve grows_update grows_record grows_invoke grows_suspend
  grows_clearTimeout grows_setTimeout grows_unref grows_subscribe grows_alloc
  grows_set_instance : stable.

Lemma grows_close (strategy : Strategy) (h : Host) (this : loc) :
  stable grows (close strategy h this).
Proof.
  unfold close, close_mailbox, close_relay, events_close. stable_auto.
Qed.

Lemma grows_emit (strategy : Strategy) (h : Host) (this : loc)
    (target event : string) (eventData : Value) :
  stable grows (emit strategy h this target event eventData).
Proof. unfold emit, emit_mailbox, emit_relay. stable_auto. Qed.

#[export] Hint Resolve grows_close grows_emit : stable.

Lemma grows_construct (strategy : Strategy) (h : Host) (arg : option Number) :
  stable grows (construct strategy h arg).
Proof.
  unfold construct, telemetryWatchdog, sendMainTelemetry, telemetryWatchdog_finally,
    checkIpc, checkIpc_mailbox, checkIpc_relay.
  stable_auto.
Qed.

#[export] Hint Resolve grows_construct : stable.

Lemma grows_run_handler (strategy : Strategy) (h : Host) (this : loc) (fn : Handler) :
  stable grows (run_handler strategy h this fn).
Proof.
  induction fn; simpl; unfold on, off; stable_auto.
Qed.

#[export] Hint Resolve grows_run_handler : stable.

Lemma grows_run_handlers (strategy : Strategy) (h : Host) (this : loc) (fns : list Handler) :
  stable grows (run_handlers strategy h this fns).
Proof.
  induction fns as [| fn rest IH]; simpl; stable_auto.
Qed.

#[export] Hint Resolve grows_run_handlers : stable.

Lemma grows_handle_message (strategy : Strategy) (h : Host) (this : loc) (m : Message) :
  stable grows (handle_message strategy h this m).
Proof. unfold handle_message, events_emit. stable_auto. Qed.

#[export] Hint Resolve grows_handle_message : stable.

Lemma grows_process_messages (strategy : Strategy) (h : Host) (this : loc)
    (messages : list Message) :
  stable grows (process_messages strategy h this messages).
Proof.
  induction messages as [| m rest IH]; simpl; [apply stable_ret; exact _ |].
  unfold turn. stable_auto.
Qed.

Lemma grows_calls {A} (m : M A) (w : World) :
  grows w (after m w) -> log (after m w) = log w ++ calls m w.
Proof.
  intros [added E]. unfold calls. rewrite E. now rewrite drop_app_length.
Qed.

(** The calls of a sequence are the calls of its parts. *)
Lemma calls_seq {A B} (m : M A) (k : M B) (w : World) :
  grows w (after m w) -> grows (after m w) (after k (after m w)) ->
  drop (length (log w)) (log (after k (after m w)))
  = calls m w ++ calls k (after m w).
Proof.
  intros G1 G2. rewrite (grows_calls k _ G2), (grows_calls m _ G1).
  rewrite <- app_assoc. now rewrite drop_app_length.
Qed.

(** ** The inbound loop *)

Section Inbound.

Variable strategy : Strategy.
Variable h : Host.
Variable this : loc.

Lemma turn_returns (m : Message) (w : World) :
  fst (turn strategy h this m w) = Returns tt.
Proof.
  unfold turn, try_catch. destruct (handle_message strategy h this m w) as [[[]|e] w1];
    reflexivity.
Qed.

Lemma grows_turn (m : Message) : stable grows (turn strategy h this m).
Proof. unfold turn. stable_auto. Qed.

Lemma process_messages_cons (m : Message) (rest : list Message) (w : World) :
  process_messages strategy h this (m :: rest) w
  = process_messages strategy h this rest (after (turn strategy h this m) w).
Proof.
  simpl. now rewrite (bind_of (turn strategy h this m) _ w tt) by apply turn_returns.
Qed.

Lemma process_messages_returns (messages : list Message) :
  forall w, fst (process_messages strategy h this messages w) = Returns tt.
Proof.
  induction messages as [| m rest IH]; intros w; [reflexivity |].
  rewrite process_messages_cons. apply IH.
Qed.

Lemma process_messages_app (a b : list Message) :
  forall w, process_messages strategy h this (a ++ b) w
            = process_messages strategy h this b
                (after (process_messages strategy h this a) w).
Proof.
  induction a as [| m rest IH]; intros w; [reflexivity |].
  rewrite <- app_comm_cons, process_messages_cons, IH. f_equal.
  unfold after. now rewrite process_messages_cons.
Qed.

(** A malformed message is dropped: its turn changes nothing. *)
Lemma turn_malformed (m : Message) (w : World) :
  malformed h m -> turn strategy h this m w = (Returns tt, w).
Proof.
  intros (text & e & Ed & Ne & Ep).
  unfold turn, handle_message. rewrite Ed, (truthy_str_Some text Ne). simpl str_of.
  unfold try_catch, bind, lift. now rewrite Ep.
Qed.

(** A well-formed message is dispatched under its event name, whatever
    its listeners then do. *)
Lemma turn_dispatches (m : Message) (event eventData : Value) (w : World) :
  carries h m event eventData ->
  exists tail, calls (turn strategy h this m) w = EventsEmit event eventData :: tail.
Proof.
  intros (text & parsed & Ed & Ne & Ep & Ee & Ev).
  pose (w1 := after (record (EventsEmit event eventData)) w).
  pose (k := o <- read this;;
             run_handlers strategy h this (listeners_for event (events o))).
  assert (Gk : grows w1 (after (try_catch k (fun _ => ret tt)) w1)).
  { apply (stable_at grows). subst k. stable_auto. }
  assert (E : after (turn strategy h this m) w
              = after (try_catch k (fun _ => ret tt)) w1).
  { unfold after, turn, handle_message. rewrite Ed, (truthy_str_Some text Ne).
    simpl str_of. unfold try_catch, bind, lift. rewrite Ep, Ee, Ev.
    unfold events_emit, bind. reflexivity. }
  destruct Gk as [tail Et]. exists tail.
  unfold calls. rewrite E, Et. simpl. own_log. reflexivity.
Qed.

Lemma process_messages_dispatches (messages : list Message) (m : Message)
    (event eventData : Value) :
  In m messages -> carries h m event eventData ->
  forall w, In (EventsEmit event eventData)
              (calls (process_messages strategy h this messages) w).
Proof.
  intros Hin Hc. induction messages as [| x rest IH]; [destruct Hin |].
  intros w. unfold calls, after. rewrite process_messages_cons.
  change (In (EventsEmit event eventData)
            (drop (length (log w))
               (log (after (process_messages strategy h this rest)
                       (after (turn strategy h this x) w))))).
  rewrite calls_seq.
  - apply in_or_app. destruct Hin as [-> | Hin].
    + left. destruct (turn_dispatches m event eventData w Hc) as [tail ->]. now left.
    + right. now apply IH.
  - apply grows_turn.
  - apply (stable_at grows), grows_process_messages.
Qed.

End Inbound.

(** C6: while the loop of [checkIpc] is running, a malformed message in a
    batch is dropped as if it had not been there, every well-formed
    message after it (and before it) is dispatched to the emitter under
    its own event name, the turn of the loop ends normally and the loop
    waits for the next batch. *)
Theorem malformed_message_is_skipped (h : Host) (this : loc) (ipcPath : string)
    (before after_it : list Message) (bad : Message) (w : World) :
  aborted (obj w this) = false ->
  malformed h bad ->
  let batch := before ++ bad :: after_it in
  let body := checkIpc_mailbox_batch FileMailbox h this ipcPath in
  fst (body batch w) = Returns tt /\
  calls (body batch) w = calls (body (before ++ after_it)) w /\
  (forall m event eventData,
     In m (before ++ after_it) -> carries h m event eventData ->
     In (EventsEmit event eventData) (calls (body batch) w)) /\
  In (TReceive this ipcPath) (awaiting (after (body batch) w)).
Proof.
  intros A Hbad batch body.
  assert (Hskip : forall w', process_messages FileMailbox h this batch w'
                             = process_messages FileMailbox h this (before ++ after_it) w').
  { assert (Et : forall w', after (turn FileMailbox h this bad) w' = w').
    { intros w'. unfold after. now rewrite (turn_malformed FileMailbox h this bad _ Hbad). }
    intros w'. subst batch. rewrite !process_messages_app, process_messages_cons.
    now rewrite Et. }
  assert (Hlen : (0 <? length batch)%nat = true).
  { subst batch. rewrite length_app. simpl. apply Nat.ltb_lt. lia. }
  assert (Hbody : body batch w
                  = suspend (TReceive this ipcPath)
                      (after (process_messages FileMailbox h this batch) w)).
  { subst body. unfold checkIpc_mailbox_batch.
    rewrite (bind_of (read this) _ w (obj w this)) by reflexivity.
    rewrite A, Hlen.
    rewrite (bind_of (process_messages _ _ _ _) _ _ tt)
      by apply process_messages_returns.
    reflexivity. }
  assert (Hcalls : calls (body batch) w
                   = calls (process_messages FileMailbox h this batch) w).
  { unfold calls, after at 1. now rewrite Hbody. }
  split; [now rewrite Hbody |]. split; [| split].
  - rewrite Hcalls. unfold calls, after. rewrite Hskip.
    subst body. unfold checkIpc_mailbox_batch.
    rewrite (bind_of (read this) _ w (obj w this)) by reflexivity. rewrite A.
    destruct (0 <? length (before ++ after_it))%nat eqn:E.
    + rewrite (bind_of (process_messages _ _ _ _) _ _ tt)
        by apply process_messages_returns.
      reflexivity.
    + apply Nat.ltb_ge in E. destruct (before ++ after_it); [| simpl in E; lia].
      reflexivity.
  - intros m event eventData Hin Hc. rewrite Hcalls. unfold calls, after.
    rewrite Hskip.
    now apply (process_messages_dispatches FileMailbox h this (before ++ after_it) m).
  - unfold after at 1. rewrite Hbody. simpl. apply in_or_app. right. now left.
Qed.

(** *** Concrete batches *)

Lemma malformed_message_is_skipped_witness :
  In (EventsEmit (VStr "ping") (VObj [("n", VNum 42)]))
    (calls (checkIpc_mailbox_batch FileMailbox supervised 0 "/tmp/pup/.w1.ipc"
              ([] ++ garbage :: [ping_message])) listening).
Proof.
  refine (proj1 (proj2 (proj2
            (malformed_message_is_skipped supervised 0 "/tmp/pup/.w1.ipc"
               [] [ping_message] garbage listening _ _)))
            ping_message _ _ _ _).
  - vm_compute. reflexivity.
  - exists "{oops", SyntaxError. repeat split. discriminate.
  - left. reflexivity.
  - exists (Json.stringify (wireMessage "ping" (VObj [("n", VNum 42)]))),
           (wireMessage "ping" (VObj [("n", VNum 42)])).
    split; [reflexivity |]. split; [vm_compute; discriminate |].
    split; [vm_compute; reflexivity |]. split; reflexivity.
Defined.

(** C7 (as amended): the loop looks at [aborted] before it opens the
    mailbox and before each batch, and ends once the flag is set: a batch
    that arrives then is not processed, nothing is logged and the
    activation is not suspended again.  (Between the messages of one batch
    the flag is not looked at.) *)
Theorem aborted_batch_ends_loop (strategy : Strategy) (h : Host) (i : nat) (this : loc)
    (ipcPath : string) (messages : list Message) (w : World) :
  awaiting w !! i = Some (TReceive this ipcPath) ->
  aborted (obj w this) = true ->
  step strategy h (Batch i messages) w = Some (drop_task i w) /\
  log (drop_task i w) = log w /\
  awaiting (drop_task i w) = delete i (awaiting w) /\
  (forall pupTempPath pupProcessId,
     calls (checkIpc_mailbox_resume h this pupTempPath pupProcessId) w = [] /\
     awaiting (after (checkIpc_mailbox_resume h this pupTempPath pupProcessId) w)
     = awaiting w).
Proof.
  intros Ei A. split; [| split; [reflexivity | split; [reflexivity |]]].
  - simpl. rewrite Ei. unfold after, detach, checkIpc_mailbox_batch.
    rewrite (bind_of (read this) _ _ (obj w this)) by reflexivity.
    change (obj (drop_task i w) this) with (obj w this) in *.
    now rewrite A.
  - intros tmp pid. unfold calls, after, checkIpc_mailbox_resume, bind, lift, read, ret.
    destruct (isDir h tmp) as [[|] | e]; simpl; rewrite ?drop_all; try (split; reflexivity).
    destruct (truthy_str pid); simpl; rewrite ?A; simpl; rewrite ?drop_all;
      split; reflexivity.
Qed.

Lemma aborted_batch_ends_loop_witness :
  step FileMailbox supervised (Batch 0 [ping_message]) closed_listening
  = Some (drop_task 0 closed_listening).
Proof.
  refine (proj1 (aborted_batch_ends_loop FileMailbox supervised 0 0 "/tmp/pup/.w1.ipc"
                   [ping_message] closed_listening _ _)).
  - vm_compute. reflexivity.
  - vm_compute. reflexivity.
Defined.

(** It fails: a listener that closes the instance on the first message
    of a batch does not keep the second from being dispatched. *)
Lemma batch_goes_on_after_close :
  ~ checked_before_each_message FileMailbox supervised.
Proof.
  intros H.
  specialize (H setup listening 0%nat [stop_message] [ping_message]).
  assert (E : List.filter is_EventsEmit
                (calls (process_messages FileMailbox supervised 0 [ping_message])
                   (after (process_messages FileMailbox supervised 0 [stop_message])
                      listening))
              = [EventsEmit (VStr "ping") (VObj [("n", VNum 42)])])
    by (vm_compute; reflexivity).
  rewrite H in E; [discriminate | vm_compute; reflexivity ..].
Qed.

(** The log of that batch: the second dispatch comes after the calls of
    [close]. *)
Lemma batch_goes_on_after_close_log :
  option_map log (step FileMailbox supervised (Batch 0 [stop_message; ping_message]) listening)
  = Some (log listening ++
          [EventsEmit (VStr "stop") VUndefined;
           IpcClose "/tmp/pup/.w1.ipc" false;
           EventsClose;
           EventsEmit (VStr "ping") (VObj [("n", VNum 42)])]).
Proof. vm_compute. reflexivity. Qed.

(** ** The wire format of the mailbox *)

Lemma emit_peer_writes (h : Host) (this : loc) (pupTempPath target event text : string)
    (eventData : Value) (w : World) :
  mailbox_ready h pupTempPath -> target <> "main" -> target <> "" ->
  encode h target event eventData = Returns text ->
  let path := ipcPathOf (Some pupTempPath) target in
  calls (emit FileMailbox h this target event eventData) w
  = [NewFileIPC path; IpcSendData path text; IpcClose path true].
Proof.
  intros (Et & Nt & Ed & Hn) Hm Hne He path.
  apply String.eqb_neq in Hm, Hne.
  unfold emit, emit_mailbox. rewrite Hm. unfold_m.
  rewrite Et, (truthy_str_Some _ Nt). simpl str_of. rewrite Ed, Hne. simpl.
  fold path. rewrite Hn. unfold encode in He. rewrite He. simpl.
  destruct (responds h (IpcSendData path text));
    destruct (responds h (IpcClose path true)); simpl; own_log; reflexivity.
Qed.

Lemma decode_reads_back (h : Host) (event text : string) (eventData : Value) :
  round_trips h (wireMessage event eventData) text ->
  exists parsed,
    decode h text = Returns parsed /\
    get_prop parsed "event" = Returns (VStr event) /\
    get_prop parsed "eventData" = Returns eventData /\
    get_prop parsed "target" = Returns VUndefined.
Proof.
  intros (_ & _ & Hp). eexists. split; [exact Hp |].
  destruct eventData; repeat split.
Qed.

(** C9 (as amended): what the peer send path writes for an envelope is
    the text of its event and event data, put in the mailbox of the
    target; when the JSON functions round-trip that message, the inbound
    path reads the same event and event data back and dispatches them.
    The target is not in the text, and the decoded message has none. *)
Theorem peer_message_round_trip (h : Host) (sender receiver : loc)
    (pupTempPath target event text : string) (eventData : Value) :
  mailbox_ready h pupTempPath -> target <> "main" -> target <> "" ->
  round_trips h (wireMessage event eventData) text ->
  (forall w,
     calls (emit FileMailbox h sender target event eventData) w
     = [NewFileIPC (ipcPathOf (Some pupTempPath) target);
        IpcSendData (ipcPathOf (Some pupTempPath) target) text;
        IpcClose (ipcPathOf (Some pupTempPath) target) true]) /\
  (exists parsed,
     decode h text = Returns parsed /\
     get_prop parsed "event" = Returns (VStr event) /\
     get_prop parsed "eventData" = Returns eventData /\
     get_prop parsed "target" = Returns VUndefined) /\
  (forall w, exists tail,
     calls (turn FileMailbox h receiver (mkMessage (Some text))) w
     = EventsEmit (VStr event) eventData :: tail).
Proof.
  intros Hready Hm Hne Hrt. split; [| split].
  - intros w. apply emit_peer_writes; try assumption. apply Hrt.
  - now apply decode_reads_back.
  - intros w. apply turn_dispatches.
    destruct (decode_reads_back h event text eventData Hrt) as (parsed & Hp & He & Hd & _).
    destruct Hrt as (_ & Ne & _).
    exists text, parsed. repeat split; assumption.
Qed.

Lemma peer_message_round_trip_witness :
  calls (emit FileMailbox supervised 0 "worker-2" "ping" (VObj [("n", VNum 42)])) initial
  = [NewFileIPC "/tmp/pup/.worker-2.ipc";
     IpcSendData "/tmp/pup/.worker-2.ipc" ping_text;
     IpcClose "/tmp/pup/.worker-2.ipc" true] /\
  exists tail,
    calls (turn FileMailbox supervised 0 (mkMessage (Some ping_text))) listening
    = EventsEmit (VStr "ping") (VObj [("n", VNum 42)]) :: tail.
Proof.
  assert (Hready : mailbox_ready supervised "/tmp/pup").
  { split; [reflexivity |]. split; [discriminate |]. split; reflexivity. }
  assert (Hrt : round_trips supervised (wireMessage "ping" (VObj [("n", VNum 42)])) ping_text).
  { split; [reflexivity |]. split; [vm_compute; discriminate | vm_compute; reflexivity]. }
  destruct (peer_message_round_trip supervised 0 0 "/tmp/pup" "worker-2" "ping" ping_text
              (VObj [("n", VNum 42)]) Hready ltac:(discriminate) ltac:(discriminate) Hrt)
    as (Hsend & _ & Hrecv).
  split; [apply Hsend | apply Hrecv].
Defined.

(** C9 as stated fails on the envelope of the specification: what comes
    back is not the envelope, the target is gone. *)
Lemma envelope_loses_target :
  ~ exists text,
      encode supervised "worker-2" "ping" (VObj [("n", VNum 42)]) = Returns text /\
      decode supervised text = Returns (envelope "worker-2" "ping" (VObj [("n", VNum 42)])).
Proof.
  intros (text & He & Hd). vm_compute in He. injection He as <-.
  vm_compute in Hd. discriminate Hd.
Qed.

(** * Further properties of the code *)

(** ** Sampling *)

Lemma detach_of_returns (m : M unit) (w : World) :
  fst (m w) = Returns tt -> detach m w = (Returns tt, after m w).
Proof.
  unfold detach, after. destruct (m w) as [[[]|e] w1]; simpl; intros E;
    [reflexivity | discriminate].
Qed.

Lemma lift_bind {A B} (o : Outcome A) (k : A -> M B) (w : World) (a : A) :
  o = Returns a -> bind (lift o) k w = k a w.
Proof. intros ->. reflexivity. Qed.

(** Without an identity [sendMainTelemetry] calls nothing and changes
    nothing, on every runtime and whatever the probes answer. *)
Theorem sendMainTelemetry_needs_identity (strategy : Strategy) (h : Host) (this : loc)
    (w : World) :
  absent h "PUP_PROCESS_ID" ->
  after (sendMainTelemetry strategy h this) w = w /\
  calls (sendMainTelemetry strategy h this) w = [].
Proof.
  intros (v & E & T).
  assert (Ha : after (sendMainTelemetry strategy h this) w = w).
  { unfold after, sendMainTelemetry. rewrite (lift_bind _ _ w v E).
    destruct (CurrentRuntime h); unfold bind, lift, ret;
      try (destruct (memoryUsage h) as [m |]; simpl); rewrite ?T; reflexivity. }
  split; [exact Ha |]. unfold calls. rewrite Ha. apply drop_all.
Qed.

Lemma sendMainTelemetry_needs_identity_witness :
  calls (sendMainTelemetry FileMailbox (refHost [] []) 0) initial = [].
Proof.
  refine (proj2 (sendMainTelemetry_needs_identity FileMailbox (refHost [] []) 0 initial _)).
  exists None. split; reflexivity.
Defined.

(** With an identity and probes that answer, [sendMainTelemetry] is one
    [emit] to ["main"] of the sample it built. *)
Lemma sendMainTelemetry_shape (strategy : Strategy) (h : Host) (this : loc)
    (pupProcessId dir : string) (w : World) :
  identified h pupProcessId -> probed h -> cwd h = Returns dir ->
  exists memory,
    sendMainTelemetry strategy h this w
    = detach (emit strategy h this "main" "telemetry"
                (VObj [("sender", VStr pupProcessId); ("memory", memory);
                       ("sent", VStr (now h)); ("cwd", VStr dir)])) w /\
    (CurrentRuntime h = OtherRuntime ->
     memory = memoryValue (VNum 0) (mkMemoryUsage None 0 0 0)) /\
    (forall m, memoryUsage h = Returns m ->
       CurrentRuntime h = Node \/ CurrentRuntime h = Bun ->
       opt_prop memory "external" = VNum (default 0%Z (external m)) /\
       opt_prop memory "rss" = VNum (rss m)).
Proof.
  intros (Ei & Ni) Hp Hd.
  unfold sendMainTelemetry. rewrite (lift_bind _ _ w _ Ei).
  destruct Hp as [Ho | [m Em]].
  - rewrite Ho. eexists. split; [| split].
    + unfold bind at 1. unfold ret at 1. rewrite (truthy_str_Some _ Ni).
      rewrite (lift_bind _ _ w _ Hd). reflexivity.
    + reflexivity.
    + intros m _ [E | E]; discriminate.
  - destruct (CurrentRuntime h) eqn:Er.
    all: try (eexists; split; [| split];
      [ unfold bind at 1; rewrite (lift_bind _ _ w _ Em); unfold ret at 1;
        rewrite (truthy_str_Some _ Ni); rewrite (lift_bind _ _ w _ Hd); reflexivity
      | discriminate
      | intros m' Em' Hr; rewrite Em in Em'; injection Em' as <-;
        (destruct Hr as [E | E]; try discriminate; split; reflexivity) ]).
    eexists. split; [| split].
    + unfold bind at 1. unfold ret at 1. rewrite (truthy_str_Some _ Ni).
      rewrite (lift_bind _ _ w _ Hd). reflexivity.
    + reflexivity.
    + intros m' _ [E | E]; discriminate.
Qed.

(** With an identity, a configured endpoint and probes that answer, one
    turn of sampling sends exactly one telemetry report; it names the
    process as sender and carries the working directory and the time.
    On a runtime that is neither Deno, Node nor Bun the memory is all
    zeros and the probe is not asked; on Node and Bun a missing
    [external] is reported as 0. *)
Theorem sendMainTelemetry_reports (strategy : Strategy) (h : Host) (this : loc)
    (pupProcessId hostname port token dir : string) (w : World) :
  identified h pupProcessId ->
  configured h hostname port token ->
  probed h ->
  cwd h = Returns dir ->
  let client := mkClient (apiBaseUrl (Some hostname) (Some port)) token false in
  responds h (NewRestClient client) = Returns tt ->
  exists data tail,
    fst (sendMainTelemetry strategy h this w) = Returns tt /\
    calls (sendMainTelemetry strategy h this) w
    = NewRestClient client :: SendTelemetry client data :: tail /\
    Forall (fun c => via c = Local) tail /\
    opt_prop data "sender" = VStr pupProcessId /\
    opt_prop data "cwd" = VStr dir /\
    opt_prop data "sent" = VStr (now h) /\
    (CurrentRuntime h = OtherRuntime ->
     opt_prop data "memory" = memoryValue (VNum 0) (mkMemoryUsage None 0 0 0)) /\
    (forall m, memoryUsage h = Returns m ->
       CurrentRuntime h = Node \/ CurrentRuntime h = Bun ->
       opt_prop (opt_prop data "memory") "external" = VNum (default 0%Z (external m)) /\
       opt_prop (opt_prop data "memory") "rss" = VNum (rss m)).
Proof.
  intros Hi Hc Hp Hd client Hnew.
  destruct (sendMainTelemetry_shape strategy h this pupProcessId dir w Hi Hp Hd)
    as (memory & Es & Hz & Hn).
  set (data := VObj [("sender", VStr pupProcessId); ("memory", memory);
                     ("sent", VStr (now h)); ("cwd", VStr dir)]) in *.
  destruct (emit_main_configured strategy h this hostname port token "telemetry" data w
              Hc Hnew) as (tail & Ecalls & Htail).
  pose proof (detach_of_returns _ w
                (emit_main_returns strategy h this "telemetry" data w)) as Ed.
  exists data, tail.
  split; [rewrite Es, Ed; reflexivity |].
  split; [unfold calls, after; rewrite Es, Ed; exact Ecalls |].
  split; [exact Htail |].
  repeat split; try reflexivity; try apply Hz; apply Hn; assumption.
Qed.

Lemma sendMainTelemetry_reports_witness :
  exists data tail,
    calls (sendMainTelemetry FileMailbox supervised 0) initial
    = NewRestClient (mkClient "http://127.0.0.1:16441" "secret" false)
      :: SendTelemetry (mkClient "http://127.0.0.1:16441" "secret" false) data :: tail /\
    opt_prop data "sender" = VStr "w1".
Proof.
  destruct (sendMainTelemetry_reports FileMailbox supervised 0
              "w1" "127.0.0.1" "16441" "secret" "/srv/app" initial)
    as (data & tail & _ & E & _ & Es & _).
  - split; [reflexivity | discriminate].
  - repeat split; try reflexivity; discriminate.
  - right. eexists. reflexivity.
  - reflexivity.
  - reflexivity.
  - exists data, tail. split; [exact E | exact Es].
Defined.

(** ** Outbound messages *)


(** In the relay variant [emit] never throws for any target. *)
Lemma emit_relay_returns (h : Host) (this : loc) (target event : string)
    (eventData : Value) (w : World) :
  fst (emit SupervisorRelay h this target event eventData w) = Returns tt.
Proof. unfold emit, emit_relay. apply try_console_returns. Qed.

(** In the relay variant a message for a peer is one [sendIpc] request
    carrying the target, the event and the data as given, when the
    endpoint is configured; it is nothing when the endpoint is not; and
    the call never throws. *)
Theorem emit_relay_peer (h : Host) (this : loc) (target event : string)
    (eventData : Value) (w : World) :
  target <> "main" ->
  fst (emit SupervisorRelay h this target event eventData w) = Returns tt /\
  (forall hostname port token,
     configured h hostname port token ->
     let client := mkClient (apiBaseUrl (Some hostname) (Some port)) token false in
     responds h (NewRestClient client) = Returns tt ->
     List.filter is_request (calls (emit SupervisorRelay h this target event eventData) w)
     = [SendIpc client target event eventData]) /\
  (unconfigured h ->
   List.filter is_request (calls (emit SupervisorRelay h this target event eventData) w)
   = []).
Proof.
  intros Ht. apply String.eqb_neq in Ht.
  split; [apply emit_relay_returns |]. split.
  - intros hostname port token (Eh & Ep & Et & Nh & Np & Nt) client Hnew.
    assert (Hc : truthy_str (Some hostname) && truthy_str (Some port)
                 && truthy_str (Some token) = true).
    { rewrite !truthy_str_Some by assumption. reflexivity. }
    unfold emit, emit_relay. unfold_m. rewrite Eh, Ep, Et, Hc. simpl.
    fold client. rewrite Hnew, Ht. simpl.
    destruct (responds h (SendIpc client target event eventData)); simpl;
      own_log; reflexivity.
  - intros Hu.
    assert (Hc : forall a b c,
      getEnv h "PUP_API_HOSTNAME" = Returns a -> getEnv h "PUP_API_PORT" = Returns b ->
      getEnv h "PUP_API_TOKEN" = Returns c ->
      truthy_str a && truthy_str b && truthy_str c = false).
    { intros a b c Ea Eb Ec.
      destruct Hu as [(v & E & T) | [(v & E & T) | (v & E & T)]];
        [rewrite Ea in E | rewrite Eb in E | rewrite Ec in E]; injection E as <-;
        rewrite T; rewrite ?andb_false_r; reflexivity. }
    unfold emit, emit_relay. unfold_m.
    destruct (getEnv h "PUP_API_HOSTNAME") as [a|] eqn:Ea; simpl;
      try (own_log; reflexivity);
      destruct (getEnv h "PUP_API_PORT") as [b|] eqn:Eb; simpl;
      try (own_log; reflexivity);
      destruct (getEnv h "PUP_API_TOKEN") as [c|] eqn:Ec; simpl;
      try (own_log; reflexivity).
    rewrite (Hc a b c) by reflexivity. simpl. now rewrite drop_all.
Qed.

Lemma emit_relay_peer_witness :
  List.filter is_request
    (calls (emit SupervisorRelay supervised 0 "w2" "ping" (VObj [("n", VNum 42)])) initial)
  = [SendIpc (mkClient "http://127.0.0.1:16441" "secret" false) "w2" "ping"
       (VObj [("n", VNum 42)])].
Proof.
  refine (proj1 (proj2 (emit_relay_peer supervised 0 "w2" "ping" (VObj [("n", VNum 42)])
                          initial _))
            "127.0.0.1" "16441" "secret" _ _).
  - discriminate.
  - repeat split; try reflexivity; discriminate.
  - reflexivity.
Defined.

(** In [telemetry.ts] a message for a peer opens the peer's mailbox and,
    whatever happens to the write, closes it again (removing the file) as
    its last call.  There is no [catch]: a text that cannot be produced, a
    write that fails or a close that fails is thrown to the caller of
    [emit]. *)
Theorem emit_peer_closes_and_rethrows (h : Host) (this : loc)
    (pupTempPath target event : string) (eventData : Value) (w : World) :
  mailbox_ready h pupTempPath -> target <> "main" -> target <> "" ->
  let path := ipcPathOf (Some pupTempPath) target in
  let sent := calls (emit FileMailbox h this target event eventData) w in
  let outcome := fst (emit FileMailbox h this target event eventData w) in
  head sent = Some (NewFileIPC path) /\
  last sent = Some (IpcClose path true) /\
  (forall e, JSON_stringify h (wireMessage event eventData) = Throws e ->
     sent = [NewFileIPC path; IpcClose path true] /\
     (responds h (IpcClose path true) = Returns tt -> outcome = Throws e)) /\
  (forall text e, JSON_stringify h (wireMessage event eventData) = Returns text ->
     responds h (IpcSendData path text) = Throws e ->
     responds h (IpcClose path true) = Returns tt -> outcome = Throws e) /\
  (forall e, responds h (IpcClose path true) = Throws e -> outcome = Throws e).
Proof.
  intros (Et & Nt & Ed & Hn) Hm Hne path sent outcome.
  apply String.eqb_neq in Hm, Hne.
  subst sent outcome. unfold emit, emit_mailbox. rewrite Hm. unfold_m.
  rewrite Et, (truthy_str_Some _ Nt). simpl str_of. rewrite Ed, Hne. simpl.
  fold path. rewrite Hn. simpl.
  destruct (JSON_stringify h (wireMessage event eventData)) as [text | e0]; simpl.
  - destruct (responds h (IpcSendData path text)) as [[] | e1] eqn:Es;
      destruct (responds h (IpcClose path true)) as [[] | e2] eqn:Ec; simpl; own_log;
      repeat split; try reflexivity; try discriminate;
      try (intros; congruence).
  - destruct (responds h (IpcClose path true)) as [[] | e2] eqn:Ec; simpl; own_log;
      repeat split; try reflexivity; try discriminate;
      try (intros; congruence).
Qed.

Lemma emit_peer_closes_and_rethrows_witness :
  last (calls (emit FileMailbox failing_writes 0 "w2" "ping" (VObj [])) initial)
  = Some (IpcClose "/tmp/pup/.w2.ipc" true) /\
  fst (emit FileMailbox failing_writes 0 "w2" "ping" (VObj []) initial)
  = Throws (HostError "EIO").
Proof.
  assert (Hready : mailbox_ready failing_writes "/tmp/pup").
  { split; [reflexivity |]. split; [discriminate |]. split; reflexivity. }
  destruct (emit_peer_closes_and_rethrows failing_writes 0 "/tmp/pup" "w2" "ping" (VObj [])
              initial Hready ltac:(discriminate) ltac:(discriminate))
    as (_ & Hlast & _ & Hthrow & _).
  split; [exact Hlast |].
  apply (Hthrow (Json.stringify (wireMessage "ping" (VObj []))) (HostError "EIO"));
    reflexivity.
Defined.

(** Without the shared directory (the variable is missing or empty, or
    the path is no directory) or with an empty target, a message for a peer
    is dropped: nothing is called, nothing changes, nothing is thrown. *)
Theorem emit_peer_without_storage (h : Host) (this : loc)
    (target event : string) (eventData : Value) (w : World) :
  target <> "main" ->
  absent h "PUP_TEMP_STORAGE" \/
  (exists pupTempPath dir,
     getEnv h "PUP_TEMP_STORAGE" = Returns (Some pupTempPath) /\
     isDir h pupTempPath = Returns dir /\ (dir = false \/ target = "")) ->
  emit FileMailbox h this target event eventData w = (Returns tt, w).
Proof.
  intros Hm Hcase. apply String.eqb_neq in Hm.
  unfold emit, emit_mailbox. rewrite Hm.
  destruct Hcase as [(v & E & T) | (tmp & dir & E & Ed & Hd)].
  - rewrite (lift_bind _ _ w _ E), T. reflexivity.
  - rewrite (lift_bind _ _ w _ E). destruct (truthy_str (Some tmp)); [| reflexivity].
    simpl str_of. rewrite (lift_bind _ _ w _ Ed).
    destruct Hd as [-> | ->]; [reflexivity |].
    rewrite andb_false_r. reflexivity.
Qed.

Lemma emit_peer_without_storage_witness :
  emit FileMailbox (refHost [("PUP_PROCESS_ID", "w1")] []) 0 "w2" "ping" (VObj []) initial
  = (Returns tt, initial).
Proof.
  apply emit_peer_without_storage; [discriminate |].
  left. exists None. split; reflexivity.
Defined.

(** ** The inbound path of [telemetry.ts] *)

(** The inbound path is not started, and nothing is called or changed,
    when the shared directory is not given, is no directory, or the
    process has no identity. *)
Theorem mailbox_inbound_not_started (h : Host) (this : loc) (w : World) :
  (absent h "PUP_TEMP_STORAGE" ->
   (exists v, getEnv h "PUP_PROCESS_ID" = Returns v) ->
   checkIpc_mailbox h this w = (Returns tt, w)) /\
  (forall pupTempPath pupProcessId dir,
     isDir h pupTempPath = Returns dir ->
     dir = false \/ truthy_str pupProcessId = false ->
     checkIpc_mailbox_resume h this pupTempPath pupProcessId w = (Returns tt, w)).
Proof.
  split.
  - intros (v & E & T) (pid & Ep). unfold checkIpc_mailbox.
    rewrite (lift_bind _ _ w _ E), (lift_bind _ _ w _ Ep), T. reflexivity.
  - intros tmp pid dir Ed Hd. unfold checkIpc_mailbox_resume.
    rewrite (lift_bind _ _ w _ Ed).
    destruct Hd as [-> | ->]; [reflexivity | now rewrite andb_false_r].
Qed.

Lemma mailbox_inbound_not_started_witness :
  checkIpc_mailbox (refHost [("PUP_PROCESS_ID", "w1")] []) 0 initial = (Returns tt, initial) /\
  checkIpc_mailbox_resume supervised 0 "/nowhere" (Some "w1") initial = (Returns tt, initial).
Proof.
  split.
  - apply (proj1 (mailbox_inbound_not_started (refHost [("PUP_PROCESS_ID", "w1")] []) 0
                    initial)).
    + exists None. split; reflexivity.
    + eexists. reflexivity.
  - apply (proj2 (mailbox_inbound_not_started supervised 0 initial) "/nowhere" (Some "w1")
             false); [reflexivity | left; reflexivity].
Defined.

(** After [isDir], on an instance that is not closed, [checkIpc] opens
    the mailbox of the given identity and stores it. *)
Lemma mailbox_resume_opens (h : Host) (this : loc)
    (pupTempPath pupProcessId : string) (w : World) :
  mailbox_ready h pupTempPath -> pupProcessId <> "" ->
  let path := ipcPathOf (Some pupTempPath) pupProcessId in
  responds h (IpcReceiveData path) = Returns tt ->
  this < length (heap w) -> aborted (obj w this) = false ->
  let w' := after (checkIpc_mailbox_resume h this pupTempPath (Some pupProcessId)) w in
  calls (checkIpc_mailbox_resume h this pupTempPath (Some pupProcessId)) w
  = [NewFileIPC path; IpcReceiveData path] /\
  ipc (obj w' this) = Some path /\
  awaiting w' = awaiting w ++ [TReceive this path].
Proof.
  intros (Et & Nt & Ed & Hn) Ni path Hr Hl Ha.
  unfold checkIpc_mailbox_resume. unfold_m.
  rewrite Ed, (truthy_str_Some _ Ni). subst path.
  simpl. rewrite Ha. simpl. rewrite Hn. simpl. rewrite Hr. simpl. own_log.
  split; [reflexivity |]. split; [| reflexivity].
  unfold obj; simpl. now rewrite list_lookup_total_insert_eq.
Qed.

(** With the shared directory and an identity, [checkIpc] waits for
    [isDir] and then, unless the instance was closed meanwhile, opens the
    mailbox named after its own identity, keeps it in [this.ipc], starts
    reading and waits for the first batch. *)
Theorem mailbox_inbound_opens_own (h : Host) (this : loc)
    (pupTempPath pupProcessId : string) (w : World) :
  mailbox_ready h pupTempPath -> identified h pupProcessId ->
  let path := ipcPathOf (Some pupTempPath) pupProcessId in
  responds h (IpcReceiveData path) = Returns tt ->
  this < length (heap w) -> aborted (obj w this) = false ->
  checkIpc_mailbox h this w
  = (Returns tt, after (suspend (TCheckIpc this pupTempPath (Some pupProcessId))) w) /\
  let w' := after (checkIpc_mailbox_resume h this pupTempPath (Some pupProcessId)) w in
  calls (checkIpc_mailbox_resume h this pupTempPath (Some pupProcessId)) w
  = [NewFileIPC path; IpcReceiveData path] /\
  ipc (obj w' this) = Some path /\
  awaiting w' = awaiting w ++ [TReceive this path].
Proof.
  intros Hm (Ei & Ni) path Hr Hl Ha. split.
  - destruct Hm as (Et & Nt & _). unfold checkIpc_mailbox.
    rewrite (lift_bind _ _ w _ Et), (lift_bind _ _ w _ Ei), (truthy_str_Some _ Nt).
    reflexivity.
  - now apply mailbox_resume_opens.
Qed.

(** The file a sender writes for a target is the file the process of
    that identity opened: same directory, same name. *)
Theorem mailbox_paths_agree (sending receiving : Host) (sender receiver : loc)
    (pupTempPath target event text : string) (eventData : Value)
    (ws wr : World) :
  mailbox_ready sending pupTempPath -> mailbox_ready receiving pupTempPath ->
  identified receiving target -> target <> "main" ->
  encode sending target event eventData = Returns text ->
  responds receiving (IpcReceiveData (ipcPathOf (Some pupTempPath) target)) = Returns tt ->
  receiver < length (heap wr) -> aborted (obj wr receiver) = false ->
  exists path,
    In (IpcSendData path text)
      (calls (emit FileMailbox sending sender target event eventData) ws) /\
    ipc (obj (after (checkIpc_mailbox_resume receiving receiver pupTempPath (Some target)) wr)
           receiver) = Some path.
Proof.
  intros Hs Hr Hi Hm He Hrecv Hl Ha.
  exists (ipcPathOf (Some pupTempPath) target). split.
  - rewrite (emit_peer_writes sending sender pupTempPath target event text eventData ws
               Hs Hm (proj2 Hi) He).
    right. left. reflexivity.
  - now destruct (mailbox_resume_opens receiving receiver pupTempPath target wr
                    Hr (proj2 Hi) Hrecv Hl Ha) as (_ & E & _).
Qed.

Lemma mailbox_inbound_opens_own_witness :
  calls (checkIpc_mailbox_resume supervised 0 "/tmp/pup" (Some "w1")) armed_world
  = [NewFileIPC "/tmp/pup/.w1.ipc"; IpcReceiveData "/tmp/pup/.w1.ipc"].
Proof.
  refine (proj1 (proj2 (mailbox_inbound_opens_own supervised 0 "/tmp/pup" "w1" armed_world
                          _ _ _ _ _))).
  - split; [reflexivity |]. split; [discriminate |]. split; reflexivity.
  - split; [reflexivity | discriminate].
  - reflexivity.
  - vm_compute. lia.
  - vm_compute. reflexivity.
Defined.

Lemma mailbox_paths_agree_witness :
  exists path,
    In (IpcSendData path ping_text)
      (calls (emit FileMailbox supervised 0 "w2" "ping" (VObj [("n", VNum 42)])) initial) /\
    ipc (obj (after (checkIpc_mailbox_resume peer 0 "/tmp/pup" (Some "w2")) armed_world) 0)
    = Some path.
Proof.
  apply (mailbox_paths_agree supervised peer 0 0 "/tmp/pup" "w2" "ping" ping_text
           (VObj [("n", VNum 42)]) initial armed_world).
  - split; [reflexivity |]. split; [discriminate |]. split; reflexivity.
  - split; [reflexivity |]. split; [discriminate |]. split; reflexivity.
  - split; [reflexivity | discriminate].
  - discriminate.
  - reflexivity.
  - reflexivity.
  - vm_compute. lia.
  - vm_compute. reflexivity.
Defined.

(** [close] in [telemetry.ts] closes the mailbox [checkIpc] opened,
    without removing the file, and then the emitter; it leaves the instance
    aborted and without listeners.  The field [ipc] is not reset, so every
    further [close] closes the mailbox again. *)
Theorem close_closes_mailbox_each_time (h : Host) (this : loc) (path : string) (w : World) :
  ipc (obj w this) = Some path -> this < length (heap w) ->
  responds h (IpcClose path false) = Returns tt ->
  let w1 := after (close FileMailbox h this) w in
  calls (close FileMailbox h this) w = [IpcClose path false; EventsClose] /\
  aborted (obj w1 this) = true /\ events (obj w1 this) = [] /\
  ipc (obj w1 this) = Some path /\
  calls (close FileMailbox h this) w1 = [IpcClose path false; EventsClose].
Proof.
  assert (Hone : forall w0, ipc (obj w0 this) = Some path -> this < length (heap w0) ->
            responds h (IpcClose path false) = Returns tt ->
            let w1 := after (close FileMailbox h this) w0 in
            calls (close FileMailbox h this) w0 = [IpcClose path false; EventsClose] /\
            aborted (obj w1 this) = true /\ events (obj w1 this) = [] /\
            ipc (obj w1 this) = Some path /\ this < length (heap w1)).
  { intros w0 Ei Hl Hr. unfold calls, after, close, close_mailbox.
    rewrite (bind_of (update _ _) _ w0 tt) by reflexivity.
    set (w1 := after (update this (set_aborted true)) w0).
    assert (E1 : obj w1 this = set_aborted true (obj w0 this)) by now apply obj_update_eq.
    assert (L1 : length (heap w1) = length (heap w0))
      by (unfold w1, after, update; simpl; apply length_insert).
    rewrite (bind_of (read this) _ w1 (obj w1 this)) by reflexivity.
    rewrite clear_is_clearTimeout.
    rewrite (bind_of (clearTimeout _) _ _ tt) by apply clearTimeout_returns.
    change (after (read this) w1) with w1.
    set (w2 := after (clearTimeout (timer (obj w1 this))) w1).
    assert (E2 : obj w2 this = obj w1 this /\ heap w2 = heap w1 /\ log w2 = log w0).
    { unfold w2. destruct (timer (obj w1 this)); repeat split. }
    destruct E2 as (E2 & H2 & G2).
    rewrite (bind_of (read this) _ w2 (obj w2 this)) by reflexivity.
    change (after (read this) w2) with w2.
    rewrite E2, E1. simpl ipc. rewrite Ei.
    unfold bind, invoke, events_close, record, update. simpl. rewrite Hr. simpl.
    rewrite G2. own_log. unfold obj. simpl.
    rewrite list_lookup_total_insert_eq by (rewrite H2, L1; exact Hl).
    fold (obj w2 this). rewrite E2, E1. simpl. rewrite Ei, length_insert, H2, L1.
    repeat split. exact Hl. }
  intros Ei Hl Hr w1.
  destruct (Hone w Ei Hl Hr) as (C1 & A1 & V1 & I1 & L1).
  destruct (Hone w1 I1 L1 Hr) as (C2 & _).
  repeat split; assumption.
Qed.

Lemma close_closes_mailbox_each_time_witness :
  calls (close FileMailbox supervised 0) listening
  = [IpcClose "/tmp/pup/.w1.ipc" false; EventsClose] /\
  calls (close FileMailbox supervised 0) (after (close FileMailbox supervised 0) listening)
  = [IpcClose "/tmp/pup/.w1.ipc" false; EventsClose].
Proof.
  destruct (close_closes_mailbox_each_time supervised 0 "/tmp/pup/.w1.ipc" listening)
    as (C1 & _ & _ & _ & C2).
  - vm_compute. reflexivity.
  - vm_compute. lia.
  - reflexivity.
  - split; [exact C1 | exact C2].
Defined.

(** ** The inbound path of the relay variant *)

Lemma get_prop_opt_returns (v : Value) (k : string) :
  get_prop_opt v k = Returns (opt_prop v k).
Proof. destruct v; reflexivity. Qed.

(** The handler of relay payloads dispatches a payload only if its
    target is this process's identity and its event is truthy; any other
    payload, [null] and [undefined] among them, is dropped without a
    trace.  A process without an identity accepts exactly the payloads
    without a target.  The handler does not look at [aborted]. *)
Theorem ipcHandler_filters (strategy : Strategy) (h : Host) (this : loc)
    (pupProcessId : option string) (payload : Value) (w : World) :
  (strict_eq_str (opt_prop payload "target") pupProcessId = false \/
   truthy (opt_prop payload "event") = false ->
   ipcHandler strategy h this pupProcessId payload w = (Returns tt, w)) /\
  (strict_eq_str (opt_prop payload "target") pupProcessId = true ->
   truthy (opt_prop payload "event") = true ->
   exists tail,
     calls (ipcHandler strategy h this pupProcessId payload) w
     = EventsEmit (opt_prop payload "event") (opt_prop payload "eventData") :: tail).
Proof.
  split.
  - intros Hno. unfold ipcHandler.
    rewrite (lift_bind _ _ w _ (get_prop_opt_returns payload "target")).
    rewrite (lift_bind _ _ w _ (get_prop_opt_returns payload "event")).
    destruct Hno as [-> | ->]; [reflexivity | now rewrite andb_false_r].
  - intros Ht Hev.
    pose (w1 := after (record (EventsEmit (opt_prop payload "event")
                                 (opt_prop payload "eventData"))) w).
    pose (k := o <- read this;;
               run_handlers strategy h this
                 (listeners_for (opt_prop payload "event") (events o))).
    assert (Gk : grows w1 (after k w1)).
    { apply (stable_at grows). subst k. stable_auto. }
    assert (E : after (ipcHandler strategy h this pupProcessId payload) w = after k w1).
    { unfold after, ipcHandler, bind, lift. rewrite !get_prop_opt_returns.
      rewrite Ht, Hev. reflexivity. }
    destruct Gk as [tail Et]. exists tail.
    unfold calls. rewrite E, Et. simpl. own_log. reflexivity.
Qed.

Lemma ipcHandler_filters_witness :
  ipcHandler SupervisorRelay supervised 0 (Some "w1")
    (VObj [("target", VStr "w2"); ("event", VStr "ping")]) initial = (Returns tt, initial) /\
  ipcHandler SupervisorRelay supervised 0 (Some "w1") VNull initial = (Returns tt, initial) /\
  exists tail,
    calls (ipcHandler SupervisorRelay supervised 0 None (VObj [("event", VStr "ping")])) initial
    = EventsEmit (VStr "ping") VUndefined :: tail.
Proof.
  split; [| split].
  - apply (proj1 (ipcHandler_filters SupervisorRelay supervised 0 (Some "w1")
                    (VObj [("target", VStr "w2"); ("event", VStr "ping")]) initial)).
    left. reflexivity.
  - apply (proj1 (ipcHandler_filters SupervisorRelay supervised 0 (Some "w1") VNull initial)).
    left. reflexivity.
  - apply (proj2 (ipcHandler_filters SupervisorRelay supervised 0 None
                    (VObj [("event", VStr "ping")]) initial)); reflexivity.
Defined.

(** [checkIpc] of the relay variant never throws.  Without a complete
    endpoint it builds no client and subscribes to nothing.  With one, it
    builds a client with the event stream switched on, keeps it in
    [this.ipcClient] and subscribes once to ["ipc"], with a handler that
    holds the identity read at that moment. *)
Theorem checkIpc_relay_subscribes (h : Host) (this : loc) (w : World) :
  fst (checkIpc_relay h this w) = Returns tt /\
  (unconfigured h ->
   relayHandlers (after (checkIpc_relay h this) w) = relayHandlers w /\
   Forall (fun c => via c = Local) (calls (checkIpc_relay h this) w)) /\
  (forall hostname port token pupProcessId,
     configured h hostname port token ->
     getEnv h "PUP_PROCESS_ID" = Returns pupProcessId ->
     let client := mkClient (apiBaseUrl (Some hostname) (Some port)) token true in
     responds h (NewRestClient client) = Returns tt ->
     responds h (ClientOn client "ipc") = Returns tt ->
     this < length (heap w) ->
     let w' := after (checkIpc_relay h this) w in
     calls (checkIpc_relay h this) w = [NewRestClient client; ClientOn client "ipc"] /\
     ipcClient (obj w' this) = Some client /\
     relayHandlers w' = relayHandlers w ++ [(this, pupProcessId)]).
Proof.
  split; [apply try_console_returns |]. split.
  - intros Hu.
    assert (Hc : forall a b c,
      getEnv h "PUP_API_HOSTNAME" = Returns a -> getEnv h "PUP_API_PORT" = Returns b ->
      getEnv h "PUP_API_TOKEN" = Returns c ->
      truthy_str a && truthy_str b && truthy_str c = false).
    { intros a b c Ea Eb Ec.
      destruct Hu as [(v & E & T) | [(v & E & T) | (v & E & T)]];
        [rewrite Ea in E | rewrite Eb in E | rewrite Ec in E]; injection E as <-;
        rewrite T; rewrite ?andb_false_r; reflexivity. }
    unfold checkIpc_relay. unfold_m.
    destruct (getEnv h "PUP_API_HOSTNAME") as [a|] eqn:Ea; simpl;
      try (own_log; repeat constructor; fail);
      destruct (getEnv h "PUP_API_PORT") as [b|] eqn:Eb; simpl;
      try (own_log; repeat constructor; fail);
      destruct (getEnv h "PUP_API_TOKEN") as [c|] eqn:Ec; simpl;
      try (own_log; repeat constructor; fail);
      destruct (getEnv h "PUP_PROCESS_ID") as [d|] eqn:Ei; simpl;
      try (own_log; repeat constructor; fail).
    rewrite (Hc a b c) by reflexivity. simpl. rewrite drop_all. repeat constructor.
  - intros hostname port token pid (Eh & Ep & Et & Nh & Np & Nt) Ei client Hnew Hon Hl w'.
    assert (Hc : truthy_str (Some hostname) && truthy_str (Some port)
                 && truthy_str (Some token) = true).
    { rewrite !truthy_str_Some by assumption. reflexivity. }
    subst w'. unfold checkIpc_relay, subscribe. unfold_m.
    rewrite Eh, Ep, Et, Ei, Hc. simpl. fold client. rewrite Hnew. simpl.
    rewrite Hon. simpl. own_log.
    split; [reflexivity |]. split; [| reflexivity].
    unfold obj. simpl. now rewrite list_lookup_total_insert_eq.
Qed.

Lemma checkIpc_relay_subscribes_witness :
  calls (checkIpc_relay supervised 0) armed_world
  = [NewRestClient (mkClient "http://127.0.0.1:16441" "secret" true);
     ClientOn (mkClient "http://127.0.0.1:16441" "secret" true) "ipc"] /\
  relayHandlers (after (checkIpc_relay standalone 0) armed_world) = relayHandlers armed_world.
Proof.
  split.
  - refine (proj1 (proj2 (proj2 (checkIpc_relay_subscribes supervised 0 armed_world))
                     "127.0.0.1" "16441" "secret" (Some "w1") _ _ _ _ _)).
    + repeat split; try reflexivity; discriminate.
    + reflexivity.
    + reflexivity.
    + reflexivity.
    + vm_compute. lia.
  - refine (proj1 (proj1 (proj2 (checkIpc_relay_subscribes standalone 0 armed_world)) _)).
    left. exists None. split; reflexivity.
Defined.

(** ** Edge cases of one message *)

(** A message without text ([null] or empty) is skipped before any
    parsing, and a text that parses to [null] is dropped by the [catch]:
    in both cases nothing is dispatched and nothing changes. *)
Theorem turn_skips_empty_and_null (strategy : Strategy) (h : Host) (this : loc)
    (m : Message) (w : World) :
  (truthy_str (data m) = false -> turn strategy h this m w = (Returns tt, w)) /\
  (forall text, data m = Some text -> text <> "" -> JSON_parse h text = Returns VNull ->
     turn strategy h this m w = (Returns tt, w)).
Proof.
  split.
  - intros E. unfold turn, handle_message. now rewrite E.
  - intros text Ed Ne Ep. unfold turn, handle_message.
    rewrite Ed, (truthy_str_Some _ Ne). simpl str_of.
    unfold try_catch, bind, lift. now rewrite Ep.
Qed.

Lemma turn_skips_empty_and_null_witness :
  turn FileMailbox supervised 0 (mkMessage None) listening = (Returns tt, listening) /\
  turn FileMailbox supervised 0 (mkMessage (Some "null")) listening = (Returns tt, listening).
Proof.
  split.
  - apply (proj1 (turn_skips_empty_and_null FileMailbox supervised 0 (mkMessage None)
                    listening)).
    reflexivity.
  - apply (proj2 (turn_skips_empty_and_null FileMailbox supervised 0
                    (mkMessage (Some "null")) listening) "null");
      [reflexivity | discriminate | reflexivity].
Defined.

(** ** The interval, again *)

(** Clamping is idempotent: a clamped interval is left alone by the two
    tests of the constructor. *)
Theorem clampInterval_idempotent (x : Number) :
  clampInterval (clampInterval x) = clampInterval x.
Proof.
  destruct (clampInterval_spec x) as (_ & _ & _ & (q & E & H1 & H180)).
  rewrite E.
  destruct (clampInterval_spec (Fin q)) as (_ & _ & Hsame & _).
  apply Hsame.
  - discriminate.
  - simpl. now apply Qlt_bool_false.
  - simpl. now apply Qlt_bool_false.
Qed.

(** ** The watchdog *)

Lemma finally_returns (h : Host) (this : loc) (w : World) :
  fst (telemetryWatchdog_finally h this w) = Returns tt.
Proof.
  unfold telemetryWatchdog_finally.
  rewrite (bind_of (read this) _ w (obj w this)) by reflexivity.
  rewrite (bind_of (clearTimeout _) _ _ tt) by apply clearTimeout_returns.
  match goal with
  | |- context [bind (read this) _ ?w1] =>
      rewrite (bind_of (read this) _ w1 (obj w1 this)) by reflexivity;
      destruct (aborted (obj w1 this))
  end; [reflexivity |].
  simpl negb. cbv iota. unfold bind, setTimeout, update, unref, ret.
  destruct (CurrentRuntime h); reflexivity.
Qed.

Lemma watchdog_returns (strategy : Strategy) (h : Host) (this : loc) (w : World) :
  fst (telemetryWatchdog strategy h this w) = Returns tt.
Proof.
  unfold telemetryWatchdog, on_outcome.
  destruct (sendMainTelemetry strategy h this w) as [[[] | e] w1].
  - reflexivity.
  - apply finally_returns.
Qed.

(** A turn of the watchdog never throws, on any host and in any world:
    whatever sampling or sending throws is dropped, so that the
    constructor and the timer callback, which do not await it, never leave
    an unhandled rejection behind. *)
Theorem telemetryWatchdog_never_throws (strategy : Strategy) (h : Host) (this : loc)
    (w : World) :
  fst (telemetryWatchdog strategy h this w) = Returns tt /\
  detach (telemetryWatchdog strategy h this) w = telemetryWatchdog strategy h this w.
Proof.
  pose proof (watchdog_returns strategy h this w) as R.
  split; [exact R |]. rewrite (detach_of_returns _ w R). unfold after.
  destruct (telemetryWatchdog strategy h this w) as [o w1]. simpl in *. now subst o.
Qed.

(** ** The beat of the watchdog *)

#[export] Instance waits_preorder : PreOrder waits.
Proof. split; [intros w; reflexivity | intros a b c H1 H2; unfold waits in *; congruence]. Qed.

Lemma waits_update (this : loc) (f : Obj -> Obj) : stable waits (update this f).
Proof. intros w. reflexivity. Qed.

Lemma waits_record (c : Call) : stable waits (record c).
Proof. intros w. reflexivity. Qed.

Lemma waits_invoke (h : Host) (c : Call) : stable waits (invoke h c).
Proof. intros w. reflexivity. Qed.

Lemma waits_clearTimeout (id : option Handle) : stable waits (clearTimeout id).
Proof. intros w. now destruct id. Qed.

#[export] Hint Resolve waits_update waits_record waits_invoke waits_clearTimeout : stable.

Lemma waits_close (strategy : Strategy) (h : Host) (this : loc) :
  stable waits (close strategy h this).
Proof. unfold close, close_mailbox, close_relay, events_close. stable_auto. Qed.

Lemma keeps_close (strategy : Strategy) (h : Host) (this : loc) :
  stable keeps (close strategy h this).
Proof. unfold close, close_mailbox, close_relay, events_close. stable_auto. Qed.

#[export] Instance quiet_preorder (this : loc) : PreOrder (quiet this).
Proof.
  split.
  - intros w T. split; [exact T |]. split; [reflexivity |]. split; [reflexivity |].
    split; [auto | left; reflexivity].
  - intros a b c H1 H2 T.
    destruct (H1 T) as (Tb & Wb & Ib & Ab & Mb).
    destruct (H2 Tb) as (Tc & Wc & Ic & Ac & Mc).
    split; [exact Tc |]. split; [congruence |]. split; [congruence |].
    split; [auto |].
    destruct Mc as [Ec | [Ec Hc]]; [| right; split; assumption].
    destruct Mb as [Eb | [Eb Hb]]; [left; congruence |].
    right. split; [congruence | auto].
Qed.

(** A computation that keeps the invariant and touches neither the
    suspended watchdogs, the interval nor the timers is quiet. *)
Lemma quiet_of_shut {A} (this : loc) (m : M A) :
  stable (shut this) m ->
  (forall w, watchdogs (after m w) = watchdogs w /\
             intervalSeconds (obj (after m w) this) = intervalSeconds (obj w this) /\
             timers (after m w) = timers w) ->
  stable (quiet this) m.
Proof.
  intros Hs Hi w T. destruct (Hs w T) as [T' A']. destruct (Hi w) as (W & I & M).
  split; [exact T' |]. split; [exact W |]. split; [exact I |].
  split; [intros Ha; now apply A' | left; exact M].
Qed.

Lemma quiet_record (this : loc) (c : Call) :
  is_SetTimeout c = false -> stable (quiet this) (record c).
Proof. intros H. apply quiet_of_shut; [now apply shut_record | intros w; repeat split]. Qed.

Lemma quiet_invoke (this : loc) (h : Host) (c : Call) :
  is_SetTimeout c = false -> stable (quiet this) (invoke h c).
Proof. intros H. apply quiet_of_shut; [now apply shut_invoke | intros w; repeat split]. Qed.

Lemma quiet_update (this l : loc) (f : Obj -> Obj) :
  (forall o, timer (f o) = timer o) -> (forall o, aborted (f o) = aborted o) ->
  (forall o, intervalSeconds (f o) = intervalSeconds o) ->
  stable (quiet this) (update l f).
Proof.
  intros Ht Ha Hi. apply quiet_of_shut; [now apply shut_update |].
  intros w. split; [reflexivity |]. split; [| reflexivity].
  now apply (obj_update_field intervalSeconds).
Qed.

Lemma quiet_suspend (this : loc) (t : Task) :
  task_this t = this -> is_TWatchdog t = false -> stable (quiet this) (suspend t).
Proof.
  intros Ht Hw. apply quiet_of_shut; [now apply shut_suspend |].
  intros w. split; [| split; reflexivity].
  unfold watchdogs, after, suspend; simpl. rewrite List.filter_app. simpl. rewrite Hw.
  now rewrite app_nil_r.
Qed.

Lemma quiet_subscribe (this : loc) (pid : option string) :
  stable (quiet this) (subscribe this pid).
Proof. apply quiet_of_shut; [apply shut_subscribe | intros w; repeat split]. Qed.

Lemma quiet_alloc (this : loc) : stable (quiet this) alloc.
Proof.
  apply quiet_of_shut; [apply shut_alloc |].
  intros w. split; [reflexivity |]. split; [| reflexivity]. now rewrite obj_alloc.
Qed.

Lemma quiet_construct (strategy : Strategy) (h : Host) (this : loc) (arg : option Number) :
  stable (quiet this) (construct strategy h arg).
Proof.
  intros w T. pose proof T as (I & _). unfold after.
  rewrite (construct_again_eq strategy h arg w this I). now apply quiet_alloc.
Qed.

Lemma quiet_close (strategy : Strategy) (h : Host) (this : loc) :
  stable (quiet this) (close strategy h this).
Proof.
  intros w T.
  destruct (shut_close strategy h this w T) as [T' _].
  pose proof (close_aborts strategy h this w T) as A'.
  destruct (keeps_close strategy h this w) as (_ & _ & I).
  pose proof (waits_close strategy h this w) as W.
  split; [exact T' |]. split; [unfold watchdogs; now rewrite W |].
  split; [apply I |]. split; [intros _; exact A' |].
  right. split; [now apply (tidy_no_timer this) | exact A'].
Qed.

#[export] Hint Resolve quiet_subscribe quiet_alloc quiet_construct quiet_close : stable.
#[export] Hint Extern 1 (stable (quiet _) (record _)) =>
  (apply quiet_record; reflexivity) : stable.
#[export] Hint Extern 1 (stable (quiet _) (invoke _ _)) =>
  (apply quiet_invoke; reflexivity) : stable.
#[export] Hint Extern 1 (stable (quiet _) (suspend _)) =>
  (apply quiet_suspend; reflexivity) : stable.
#[export] Hint Extern 1 (stable (quiet _) (update _ _)) =>
  (apply quiet_update; intros []; reflexivity) : stable.

Lemma quiet_emit (strategy : Strategy) (h : Host) (this l : loc)
    (target event : string) (eventData : Value) :
  stable (quiet this) (emit strategy h l target event eventData).
Proof. unfold emit, emit_mailbox, emit_relay. stable_auto. Qed.

Lemma quiet_on (this : loc) (event : string) (fn : Listener) :
  stable (quiet this) (on this event fn).
Proof. unfold on. stable_auto. Qed.

Lemma quiet_off (this : loc) (event : string) (fn : nat) :
  stable (quiet this) (off this event fn).
Proof. unfold off. stable_auto. Qed.

#[export] Hint Resolve quiet_emit quiet_on quiet_off : stable.

Lemma quiet_run_handler (strategy : Strategy) (h : Host) (this : loc) (fn : Handler) :
  stable (quiet this) (run_handler strategy h this fn).
Proof. induction fn; simpl; stable_auto. Qed.

#[export] Hint Resolve quiet_run_handler : stable.

Lemma quiet_run_handlers (strategy : Strategy) (h : Host) (this : loc) (fns : list Handler) :
  stable (quiet this) (run_handlers strategy h this fns).
Proof. induction fns as [| fn rest IH]; simpl; stable_auto. Qed.

#[export] Hint Resolve quiet_run_handlers : stable.

Lemma quiet_process_messages (strategy : Strategy) (h : Host) (this : loc)
    (messages : list Message) :
  stable (quiet this) (process_messages strategy h this messages).
Proof.
  induction messages as [| m rest IH]; simpl; [apply stable_ret; exact _ |].
  unfold turn, handle_message, events_emit. stable_auto.
Qed.

#[export] Hint Resolve quiet_process_messages : stable.

Lemma quiet_checkIpc (strategy : Strategy) (h : Host) (this : loc) :
  stable (quiet this) (checkIpc strategy h this).
Proof. unfold checkIpc, checkIpc_mailbox, checkIpc_relay. stable_auto. Qed.

Lemma quiet_checkIpc_resume (h : Host) (this : loc) (path : string) (pid : option string) :
  stable (quiet this) (checkIpc_mailbox_resume h this path pid).
Proof. unfold checkIpc_mailbox_resume. stable_auto. Qed.

Lemma quiet_checkIpc_batch (strategy : Strategy) (h : Host) (this : loc) (path : string)
    (messages : list Message) :
  stable (quiet this) (checkIpc_mailbox_batch strategy h this path messages).
Proof. unfold checkIpc_mailbox_batch. stable_auto. Qed.

Lemma quiet_ipcHandler (strategy : Strategy) (h : Host) (this : loc) (pid : option string)
    (payload : Value) :
  stable (quiet this) (ipcHandler strategy h this pid payload).
Proof. unfold ipcHandler, events_emit. stable_auto. Qed.

Lemma beat_quiet (h : Host) (this : loc) (w w' : World) :
  beat h this w -> quiet this w w' -> beat h this w'.
Proof.
  intros (T & Le & Eq & Ft & Ri) Q.
  destruct (Q T) as (T' & W' & I' & A' & M').
  split; [exact T' |].
  destruct M' as [Em | [Em Ha]]; rewrite W', Em, I'.
  - split; [exact Le |]. split; [| split; assumption].
    intros Hn. apply Eq. destruct (aborted (obj w this)) eqn:E; [| reflexivity].
    rewrite (A' eq_refl) in Hn. discriminate.
  - simpl. split; [lia |]. split; [congruence |]. split; [constructor | exact Ri].
Qed.

(** The calls of [sendMainTelemetry] aside, it changes nothing. *)
Lemma logs_sendMainTelemetry (strategy : Strategy) (h : Host) (this : loc) :
  stable (logs (fun c => is_SetTimeout c = false)) (sendMainTelemetry strategy h this).
Proof.
  unfold sendMainTelemetry, emit, emit_mailbox, emit_relay.
  stable_split; first [apply logs_invoke | apply logs_record]; reflexivity.
Qed.

Lemma beat_with_log (h : Host) (this : loc) (l : list Call) (w : World) :
  beat h this (with_log l w) <-> beat h this w.
Proof. reflexivity. Qed.

(** The [finally] block, entered with no watchdog suspended, leaves
    none suspended and arms one timer unless the instance is closed. *)
Lemma finally_beat (h : Host) (this : loc) (w : World) :
  tidy this w -> watchdogs w = 0 -> in_range (intervalSeconds (obj w this)) ->
  beat h this (after (telemetryWatchdog_finally h this) w) /\
  intervalSeconds (obj (after (telemetryWatchdog_finally h this) w) this)
  = intervalSeconds (obj w this).
Proof.
  intros T W0 Ri. pose proof (tidy_clear this w T) as Hcl.
  destruct (shut_finally h this w T) as [T' _].
  pose proof T as (I & L & _ & _ & _).
  revert T'. unfold telemetryWatchdog_finally, after.
  rewrite (bind_of (read this) _ w (obj w this)) by reflexivity.
  rewrite (bind_of (clearTimeout _) _ _ tt) by apply clearTimeout_returns.
  change (after (read this) w) with w.
  set (w1 := after (clearTimeout (timer (obj w this))) w) in *.
  assert (Eo : obj w1 this = obj w this).
  { subst w1. destruct (timer (obj w this)); reflexivity. }
  assert (Eh : heap w1 = heap w).
  { subst w1. destruct (timer (obj w this)); reflexivity. }
  assert (Ew : awaiting w1 = awaiting w).
  { subst w1. destruct (timer (obj w this)); reflexivity. }
  rewrite (bind_of (read this) _ w1 (obj w1 this)) by reflexivity.
  change (after (read this) w1) with w1. rewrite Eo.
  destruct (aborted (obj w this)) eqn:A; simpl negb; cbv iota.
  - unfold ret; simpl. intros T'. rewrite Eo. split; [| reflexivity].
    split; [exact T' |]. unfold watchdogs. rewrite Ew, Hcl. fold (watchdogs w).
    rewrite W0, Eo, A. simpl.
    split; [lia |]. split; [discriminate |]. split; [constructor | exact Ri].
  - unfold bind, setTimeout, update, unref, ret; simpl. rewrite Hcl. simpl.
    assert (Hi : intervalSeconds
                   (<[this:=set_timer (Some (fresh w1)) (obj w this)]> (heap w) !!! this)
                 = intervalSeconds (obj w this)).
    { rewrite list_lookup_total_insert_eq by exact L. reflexivity. }
    assert (Ha : aborted
                   (<[this:=set_timer (Some (fresh w1)) (obj w this)]> (heap w) !!! this)
                 = false).
    { rewrite list_lookup_total_insert_eq by exact L. exact A. }
    unfold beat, unrefs, watchdogs, obj.
    destruct (CurrentRuntime h); simpl; rewrite ?Pos.eqb_refl; unfold obj; simpl;
      rewrite ?Eh, ?Ew; fold (obj w this); fold (watchdogs w); rewrite W0, ?Hi;
      (intros T'; split; [| reflexivity]; split; [exact T' |]; simpl;
       split; [lia |]; split; [reflexivity |]; split; [| exact Ri];
       repeat constructor).
Qed.

(** A turn of the watchdog started with nothing suspended or armed, on
    an instance that is not closed, ends with exactly one of the two. *)
Lemma watchdog_beat (strategy : Strategy) (h : Host) (this : loc) (w : World) :
  tidy this w -> watchdogs w = 0 -> timers w = [] ->
  in_range (intervalSeconds (obj w this)) ->
  beat h this (after (detach (telemetryWatchdog strategy h this)) w) /\
  intervalSeconds (obj (after (detach (telemetryWatchdog strategy h this)) w) this)
  = intervalSeconds (obj w this).
Proof.
  intros T W0 T0 Ri.
  unfold after at 1 2.
  rewrite (detach_of_returns _ w (watchdog_returns strategy h this w)).
  simpl snd. unfold after, telemetryWatchdog, on_outcome.
  destruct (logs_sendMainTelemetry strategy h this w) as (added & E & _).
  unfold after in E.
  destruct (sendMainTelemetry strategy h this w) as [[[] | e] w1]; simpl in E; subst w1.
  - unfold suspend; simpl. split; [| reflexivity].
    destruct T as (I & L & Tt & Wt & S).
    split.
    { repeat split; try assumption. simpl. apply Forall_app. split; [exact Wt |].
      repeat constructor. }
    unfold watchdogs; simpl. rewrite List.filter_app, length_app. simpl.
    fold (watchdogs w). rewrite W0, T0. simpl.
    split; [lia |]. split; [reflexivity |]. split; [constructor | exact Ri].
  - apply (finally_beat h this (with_log (log w ++ added) w)); assumption.
Qed.

Lemma watchdogs_drop_task (i : nat) (t : Task) (w : World) :
  awaiting w !! i = Some t ->
  watchdogs (drop_task i w) + (if is_TWatchdog t then 1 else 0) = watchdogs w.
Proof.
  intros E. unfold watchdogs, drop_task; simpl.
  rewrite <- (take_drop_middle (awaiting w) i t E) at 2.
  rewrite delete_take_drop, !List.filter_app, !length_app. simpl.
  destruct (is_TWatchdog t); simpl; lia.
Qed.

Lemma quiet_drop_task (this : loc) (i : nat) (t : Task) (w : World) :
  awaiting w !! i = Some t -> is_TWatchdog t = false -> quiet this w (drop_task i w).
Proof.
  intros E N T. destruct (shut_drop_task this i w T) as [T' _].
  split; [exact T' |].
  pose proof (watchdogs_drop_task i t w E) as Hw. rewrite N in Hw.
  split; [lia |]. split; [reflexivity |]. split; [auto | now left].
Qed.

Lemma quiet_detach (this : loc) (m : M unit) :
  stable (quiet this) m -> stable (quiet this) (detach m).
Proof.
  intros H. apply stable_detach; [exact _ | exact H |].
  intros e. now apply quiet_record.
Qed.

(** One step of the event loop keeps the beat and the interval. *)
Lemma beat_step (strategy : Strategy) (h : Host) (this : loc) (ev : Event) (w w' : World) :
  beat h this w -> step strategy h ev w = Some w' ->
  beat h this w' /\ intervalSeconds (obj w' this) = intervalSeconds (obj w this).
Proof.
  intros B E. pose proof B as (T & Le & Eq & Ft & Ri).
  pose proof T as (I & L & Tt & W & S).
  assert (Q : forall w1, quiet this w w1 ->
                beat h this w1 /\ intervalSeconds (obj w1 this) = intervalSeconds (obj w this)).
  { intros w1 Hq. split; [now apply (beat_quiet h this w) |]. now destruct (Hq T) as (_ & _ & ? & _). }
  destruct ev as [arg | | target event eventData | event fn | event fn
                     | i | i messages | id | i payload]; simpl in E.
  - injection E as <-. apply Q, quiet_construct.
  - rewrite I in E. injection E as <-. apply Q, quiet_close.
  - rewrite I in E. injection E as <-. apply Q, quiet_emit.
  - rewrite I in E. injection E as <-. apply Q, quiet_on.
  - rewrite I in E. injection E as <-. apply Q, quiet_off.
  - destruct (awaiting w !! i) as [[l | l path pid | l path] |] eqn:Ei; try discriminate;
      injection E as <-;
      pose proof (Forall_lookup_1 _ _ _ _ W Ei) as El; simpl in El; subst l.
    + pose proof (watchdogs_drop_task i _ w Ei) as Hw. simpl in Hw.
      destruct (shut_drop_task this i w T) as [T1 _].
      apply (finally_beat h this (drop_task i w)); [exact T1 | lia | exact Ri].
    + apply Q. etransitivity; [now apply (quiet_drop_task this i _ w Ei) |].
      apply (stable_at (quiet this)), quiet_detach, quiet_checkIpc_resume.
  - destruct (awaiting w !! i) as [[l | l path pid | l path] |] eqn:Ei; try discriminate.
    injection E as <-.
    pose proof (Forall_lookup_1 _ _ _ _ W Ei) as El; simpl in El; subst l.
    apply Q. etransitivity; [now apply (quiet_drop_task this i _ w Ei) |].
    apply (stable_at (quiet this)), quiet_detach, quiet_checkIpc_batch.
  - destruct (List.find _ (timers w)) as [t |] eqn:Ef; try discriminate.
    injection E as <-.
    apply find_some in Ef. destruct Ef as [Hin Hid].
    rewrite List.Forall_forall in Tt. destruct (Tt t Hin) as (Eo & _ & _). rewrite Eo.
    destruct (shut_drop_timer this id w T) as [T1 _].
    destruct (timers w) as [| t0 [| t1 rest]] eqn:Et; [destruct Hin | | simpl in Le; lia].
    destruct Hin as [-> | []].
    apply (watchdog_beat strategy h this (drop_timer id w)).
    + exact T1.
    + unfold watchdogs, drop_timer; simpl. fold (watchdogs w). simpl in Le. lia.
    + unfold drop_timer; simpl. rewrite Et. simpl. now rewrite Hid.
    + exact Ri.
  - destruct (relayHandlers w !! i) as [[l pid] |] eqn:Ei; try discriminate.
    injection E as <-.
    pose proof (Forall_lookup_1 _ _ _ _ S Ei) as El; simpl in El; subst l.
    apply Q, quiet_ipcHandler.
Qed.

Lemma beat_run (strategy : Strategy) (h : Host) (this : loc) (evs : list Event) :
  forall w w', beat h this w -> run strategy h evs w = Some w' ->
    beat h this w' /\ intervalSeconds (obj w' this) = intervalSeconds (obj w this).
Proof.
  induction evs as [| ev rest IH]; intros w w' B E; simpl in E.
  - injection E as <-. now split.
  - destruct (step strategy h ev w) as [w1 |] eqn:E1; [| discriminate].
    destruct (beat_step strategy h this ev w w1 B E1) as [B1 I1].
    destruct (IH w1 w' B1 E) as [B2 I2]. split; [exact B2 | congruence].
Qed.

(** The first construction starts the beat, with the clamped interval. *)
Lemma beat_constructed (strategy : Strategy) (h : Host) (arg : option Number) (w : World) :
  blank w ->
  beat h (length (heap w)) (constructed strategy h arg w) /\
  intervalSeconds (obj (constructed strategy h arg w) (length (heap w)))
  = clampInterval (defaultInterval arg).
Proof.
  intros (I & T & W & S). unfold constructed.
  set (this := length (heap w)).
  set (w0 := after (set_instance this) (after alloc w)).
  assert (T0 : tidy this w0).
  { subst w0 this. unfold tidy; simpl. rewrite T, W, S, length_app. simpl.
    repeat split; try constructor. lia. }
  assert (H1 : stable (shut this)
                 (update this (set_intervalSeconds (clampInterval (defaultInterval arg)))))
    by stable_auto.
  destruct (H1 w0 T0) as [T1 _].
  set (w1 := after (update this (set_intervalSeconds (clampInterval (defaultInterval arg)))) w0)
    in *.
  assert (E1 : intervalSeconds (obj w1 this) = clampInterval (defaultInterval arg)).
  { subst w1. rewrite obj_update_eq; [reflexivity |]. now destruct T0 as (_ & ? & _). }
  destruct (watchdog_beat strategy h this w1) as [B2 I2].
  - exact T1.
  - subst w1 w0. unfold watchdogs; simpl. now rewrite W.
  - subst w1 w0. simpl. exact T.
  - rewrite E1. apply clampInterval_spec.
  - pose proof (quiet_detach this _ (quiet_checkIpc strategy h this)) as Hq.
    specialize (Hq (after (detach (telemetryWatchdog strategy h this)) w1)).
    split; [now apply (beat_quiet h this _ _ B2) |].
    destruct B2 as (T2 & _). destruct (Hq T2) as (_ & _ & -> & _). congruence.
Qed.

(** From the first construction on, the beat holds in every world the
    event loop reaches. *)
Lemma reachable_beat (strategy : Strategy) (h : Host) (arg : option Number)
    (evs : list Event) (w : World) :
  run strategy h (New arg :: evs) initial = Some w ->
  beat h 0 w /\ intervalSeconds (obj w 0) = clampInterval (defaultInterval arg).
Proof.
  intros E. simpl in E.
  destruct (beat_constructed strategy h arg initial initial_blank) as [B0 I0].
  change (length (heap initial)) with 0 in *.
  unfold after in E. rewrite (construct_first_eq strategy h arg initial eq_refl) in E.
  simpl in E.
  destruct (beat_run strategy h 0 evs _ w B0 E) as [B I]. split; [exact B | congruence].
Qed.

Lemma filter_lookup {A} (f : A -> bool) (l : list A) :
  0 < length (List.filter f l) -> exists i x, l !! i = Some x /\ f x = true.
Proof.
  induction l as [| a l IH]; simpl; [lia |].
  destruct (f a) eqn:E.
  - intros _. exists 0, a. now split.
  - intros H. destruct (IH H) as (i & x & Hi & Hx). exists (S i), x. now split.
Qed.


(** From the first construction on, in every world the event loop
    reaches, at most one turn of the watchdog is under way: its suspended
    turns and the pending timers are one at most together, and exactly one
    as long as the instance is not closed.  No callback, second
    construction or message starts a second beat. *)
Theorem watchdog_beats_alone (strategy : Strategy) (h : Host) (arg : option Number)
    (evs : list Event) (w : World) :
  run strategy h (New arg :: evs) initial = Some w ->
  watchdogs w + length (timers w) <= 1 /\
  (aborted (obj w 0) = false -> watchdogs w + length (timers w) = 1).
Proof.
  intros E. destruct (reachable_beat strategy h arg evs w E) as [(_ & Le & Eq & _) _].
  now split.
Qed.

Lemma watchdog_beats_alone_witness :
  watchdogs listening + length (timers listening) = 1.
Proof.
  refine (proj2 (watchdog_beats_alone FileMailbox supervised None (tl setup) listening _) _);
    vm_compute; reflexivity.
Defined.



(** The interval stored by the first construction is the interval of
    every world reached afterwards: no later construction, whatever its
    argument, no callback and no message changes it. *)
Theorem interval_is_fixed (strategy : Strategy) (h : Host) (arg : option Number)
    (evs : list Event) (w : World) :
  run strategy h (New arg :: evs) initial = Some w ->
  intervalSeconds (obj w 0) = clampInterval (defaultInterval arg).
Proof. intros E. now destruct (reachable_beat strategy h arg evs w E). Qed.

Lemma interval_is_fixed_witness :
  exists w, run FileMailbox supervised
              [New (Some (num_of_Z 30)); Resume 0; New (Some (num_of_Z 60))] initial
            = Some w /\
            intervalSeconds (obj w 0) = clampInterval (num_of_Z 30).
Proof.
  destruct (run FileMailbox supervised
              [New (Some (num_of_Z 30)); Resume 0; New (Some (num_of_Z 60))] initial)
    as [w |] eqn:E; [| vm_compute in E; discriminate].
  exists w. split; [reflexivity |].
  exact (interval_is_fixed FileMailbox supervised (Some (num_of_Z 30))
           [Resume 0; New (Some (num_of_Z 60))] w E).
Defined.

(** Until [close], the beat never stalls: in every reachable world of an
    instance that is not closed, the timer can fire or the suspended turn
    can go on, and that step is possible. *)
Theorem heartbeat_goes_on (strategy : Strategy) (h : Host) (arg : option Number)
    (evs : list Event) (w : World) :
  run strategy h (New arg :: evs) initial = Some w ->
  aborted (obj w 0) = false ->
  exists ev w', is_beat w ev = true /\ step strategy h ev w = Some w'.
Proof.
  intros E A.
  destruct (reachable_beat strategy h arg evs w E) as [(T & _ & Eq & _) _].
  specialize (Eq A). destruct T as (_ & _ & _ & W & _).
  destruct (timers w) as [| t l] eqn:Et.
  - assert (Hw : 0 < length (List.filter is_TWatchdog (awaiting w))).
    { unfold watchdogs in Eq. simpl in Eq. lia. }
    destruct (filter_lookup _ _ Hw) as (i & x & Hi & Hx).
    destruct x as [l | |]; try discriminate.
    exists (Resume i). eexists. simpl. rewrite Hi. split; reflexivity.
  - exists (Fire (handle t)). eexists. simpl. rewrite Et. simpl.
    rewrite Pos.eqb_refl. split; reflexivity.
Qed.

Lemma heartbeat_goes_on_witness :
  exists ev w', is_beat listening ev = true /\
                step FileMailbox supervised ev listening = Some w'.
Proof.
  apply (heartbeat_goes_on FileMailbox supervised None (tl setup)); vm_compute; reflexivity.
Defined.

(** ** The inbound path is one *)

#[export] Instance calm_preorder (this : loc) : PreOrder (calm this).
Proof.
  split.
  - intros w I. now repeat split.
  - intros a b c H1 H2 I.
    destruct (H1 I) as (Ib & Lb & Rb & Pb). destruct (H2 Ib) as (Ic & Lc & Rc & Pc).
    split; [exact Ic |]. split; [congruence |]. split; congruence.
Qed.

Lemma calm_record (this : loc) (c : Call) : stable (calm this) (record c).
Proof. intros w I. now repeat split. Qed.

Lemma calm_invoke (this : loc) (h : Host) (c : Call) : stable (calm this) (invoke h c).
Proof. intros w I. now repeat split. Qed.

Lemma calm_update (this l : loc) (f : Obj -> Obj) :
  (forall o, ipc (f o) = ipc o) -> stable (calm this) (update l f).
Proof.
  intros Hf w I. split; [exact I |]. split; [reflexivity |]. split; [reflexivity |].
  now apply (obj_update_field ipc).
Qed.

Lemma calm_alloc (this : loc) : stable (calm this) alloc.
Proof.
  intros w I. split; [exact I |]. split; [reflexivity |]. split; [reflexivity |].
  now rewrite obj_alloc.
Qed.

Lemma calm_setTimeout (this l : loc) (delay : Number) : stable (calm this) (setTimeout l delay).
Proof. intros w I. now repeat split. Qed.

Lemma calm_clearTimeout (this : loc) (id : option Handle) :
  stable (calm this) (clearTimeout id).
Proof. intros w I. destruct id; now repeat split. Qed.

Lemma calm_unref (this : loc) (id : Handle) : stable (calm this) (unref id).
Proof. intros w I. now repeat split. Qed.

Lemma calm_suspend (this l : loc) : stable (calm this) (suspend (TWatchdog l)).
Proof.
  intros w I. split; [exact I |]. split; [| now split].
  unfold listening_tasks, after, suspend; simpl. rewrite List.filter_app. simpl.
  now rewrite app_nil_r.
Qed.

Lemma calm_construct (strategy : Strategy) (h : Host) (this : loc) (arg : option Number) :
  stable (calm this) (construct strategy h arg).
Proof.
  intros w I. unfold after.
  rewrite (construct_again_eq strategy h arg w this I). now apply calm_alloc.
Qed.

#[export] Hint Resolve calm_record calm_invoke calm_alloc calm_setTimeout calm_clearTimeout
  calm_unref calm_suspend calm_construct : stable.
#[export] Hint Extern 1 (stable (calm _) (update _ _)) =>
  (apply calm_update; intros []; reflexivity) : stable.

Lemma calm_close (strategy : Strategy) (h : Host) (this l : loc) :
  stable (calm this) (close strategy h l).
Proof. unfold close, close_mailbox, close_relay, events_close. stable_auto. Qed.

Lemma calm_emit (strategy : Strategy) (h : Host) (this l : loc)
    (target event : string) (eventData : Value) :
  stable (calm this) (emit strategy h l target event eventData).
Proof. unfold emit, emit_mailbox, emit_relay. stable_auto. Qed.

Lemma calm_on (this l : loc) (event : string) (fn : Listener) :
  stable (calm this) (on l event fn).
Proof. unfold on. stable_auto. Qed.

Lemma calm_off (this l : loc) (event : string) (fn : nat) :
  stable (calm this) (off l event fn).
Proof. unfold off. stable_auto. Qed.

#[export] Hint Resolve calm_close calm_emit calm_on calm_off : stable.

Lemma calm_run_handler (strategy : Strategy) (h : Host) (this l : loc) (fn : Handler) :
  stable (calm this) (run_handler strategy h l fn).
Proof. induction fn; simpl; stable_auto. Qed.

#[export] Hint Resolve calm_run_handler : stable.

Lemma calm_run_handlers (strategy : Strategy) (h : Host) (this l : loc) (fns : list Handler) :
  stable (calm this) (run_handlers strategy h l fns).
Proof. induction fns as [| fn rest IH]; simpl; stable_auto. Qed.

#[export] Hint Resolve calm_run_handlers : stable.

Lemma calm_process_messages (strategy : Strategy) (h : Host) (this l : loc)
    (messages : list Message) :
  stable (calm this) (process_messages strategy h l messages).
Proof.
  induction messages as [| m rest IH]; simpl; [apply stable_ret; exact _ |].
  unfold turn, handle_message, events_emit. stable_auto.
Qed.

#[export] Hint Resolve calm_process_messages : stable.

Lemma calm_ipcHandler (strategy : Strategy) (h : Host) (this l : loc) (pid : option string)
    (payload : Value) :
  stable (calm this) (ipcHandler strategy h l pid payload).
Proof. unfold ipcHandler, events_emit. stable_auto. Qed.

Lemma calm_finally (h : Host) (this l : loc) :
  stable (calm this) (telemetryWatchdog_finally h l).
Proof. unfold telemetryWatchdog_finally. stable_auto. Qed.

Lemma calm_watchdog (strategy : Strategy) (h : Host) (this l : loc) :
  stable (calm this) (detach (telemetryWatchdog strategy h l)).
Proof.
  unfold telemetryWatchdog, telemetryWatchdog_finally, sendMainTelemetry. stable_auto.
Qed.

Lemma listening_drop_watchdog (i : nat) (l : loc) (w : World) :
  awaiting w !! i = Some (TWatchdog l) ->
  listening_tasks (drop_task i w) = listening_tasks w.
Proof.
  intros E. unfold listening_tasks, drop_task; simpl.
  rewrite <- (take_drop_middle (awaiting w) i _ E) at 2.
  now rewrite delete_take_drop, !List.filter_app.
Qed.

Lemma listening_drop_inbound (i : nat) (t : Task) (w : World) :
  awaiting w !! i = Some t -> is_inbound t = true -> inbound w <= 1 ->
  listening_tasks w = [t] /\ listening_tasks (drop_task i w) = [] /\ relayHandlers w = [].
Proof.
  intros E Ht Le. unfold inbound, listening_tasks, drop_task in *; simpl.
  rewrite <- (take_drop_middle (awaiting w) i _ E) in Le |- * at 1.
  rewrite delete_take_drop.
  rewrite !List.filter_app in *. simpl in *. rewrite Ht in *.
  rewrite !length_app in Le. simpl in Le.
  destruct (List.filter is_inbound (take i (awaiting w))); [| simpl in Le; lia].
  destruct (List.filter is_inbound (drop (S i) (awaiting w))); [| simpl in Le; lia].
  destruct (relayHandlers w); [| simpl in Le; lia].
  now repeat split.
Qed.

(** What the continuation of [checkIpc] after [isDir] leaves: nothing
    waiting, or the loop waiting on the mailbox it stored in [this.ipc]. *)
Lemma resume_wires (h : Host) (this : loc) (tmp : string) (pid : option string) (w : World) :
  this < length (heap w) ->
  let w' := after (detach (checkIpc_mailbox_resume h this tmp pid)) w in
  relayHandlers w' = relayHandlers w /\
  (awaiting w' = awaiting w \/
   exists path, awaiting w' = awaiting w ++ [TReceive this path] /\
                ipc (obj w' this) = Some path).
Proof.
  intros L w'. subst w'. unfold checkIpc_mailbox_resume. unfold_m.
  destruct (isDir h tmp) as [d | e]; simpl; [| split; [reflexivity | now left]].
  destruct (d && truthy_str pid); simpl; [| split; [reflexivity | now left]].
  destruct (aborted (obj w this)); simpl; [split; [reflexivity | now left] |].
  destruct (responds h (NewFileIPC _)) as [[] | e]; simpl;
    [| split; [reflexivity | now left]].
  destruct (responds h (IpcReceiveData _)) as [[] | e]; simpl;
    [| split; [reflexivity | now left]].
  split; [reflexivity |]. right. eexists. split; [reflexivity |].
  unfold obj; simpl. now rewrite list_lookup_total_insert_eq.
Qed.

(** What one batch leaves: the loop has ended, or it waits again on the
    same mailbox. *)
Lemma batch_wires (strategy : Strategy) (h : Host) (this : loc) (path : string)
    (messages : list Message) (w : World) :
  instance w = Some this ->
  let w' := after (detach (checkIpc_mailbox_batch strategy h this path messages)) w in
  relayHandlers w' = relayHandlers w /\
  ipc (obj w' this) = ipc (obj w this) /\
  (listening_tasks w' = listening_tasks w \/
   listening_tasks w' = listening_tasks w ++ [TReceive this path]).
Proof.
  intros I w'. subst w'. unfold checkIpc_mailbox_batch, after, detach.
  rewrite (bind_of (read this) _ w (obj w this)) by reflexivity.
  change (after (read this) w) with w.
  destruct (aborted (obj w this)); [simpl; split; [| split]; auto |].
  set (X := if (0 <? length messages)%nat
            then process_messages strategy h this messages else ret tt).
  assert (HX : calm this w (after X w)).
  { apply (stable_at (calm this)). subst X. destruct (0 <? length messages)%nat.
    - apply calm_process_messages.
    - apply stable_ret; exact _. }
  destruct (HX I) as (_ & Lx & Rx & Px). unfold after in *. unfold bind.
  destruct (X w) as [[[] | e] w1]; simpl in *.
  - split; [exact Rx |]. split; [exact Px |]. right.
    unfold listening_tasks in *; simpl. rewrite List.filter_app, Lx. reflexivity.
  - split; [exact Rx |]. split; [exact Px |]. now left.
Qed.

(** What [checkIpc] leaves when the constructor starts it: in
    [telemetry.ts] at most one activation waiting for [isDir], in the relay
    variant at most one handler subscribed. *)
Lemma checkIpc_wires (strategy : Strategy) (h : Host) (this : loc) (w : World) :
  let w' := after (detach (checkIpc strategy h this)) w in
  ipc (obj w' this) = ipc (obj w this) /\
  match strategy with
  | FileMailbox =>
      relayHandlers w' = relayHandlers w /\
      (awaiting w' = awaiting w \/
       exists tmp pid, awaiting w' = awaiting w ++ [TCheckIpc this tmp pid])
  | SupervisorRelay =>
      awaiting w' = awaiting w /\
      (relayHandlers w' = relayHandlers w \/
       exists pid, relayHandlers w' = relayHandlers w ++ [(this, pid)])
  end.
Proof.
  intros w'. subst w'. destruct strategy; unfold checkIpc.
  - unfold checkIpc_mailbox. unfold_m.
    destruct (getEnv h "PUP_TEMP_STORAGE") as [tmp | e]; simpl;
      [| split; [reflexivity | split; [reflexivity | now left]]].
    destruct (getEnv h "PUP_PROCESS_ID") as [pid | e]; simpl;
      [| split; [reflexivity | split; [reflexivity | now left]]].
    destruct (truthy_str tmp); simpl; (split; [reflexivity | split; [reflexivity |]]).
    + right. now do 2 eexists.
    + now left.
  - unfold checkIpc_relay, subscribe. unfold_m.
    destruct (getEnv h "PUP_API_HOSTNAME") as [a | e]; simpl;
      [| split; [reflexivity | split; [reflexivity | now left]]].
    destruct (getEnv h "PUP_API_PORT") as [b | e]; simpl;
      [| split; [reflexivity | split; [reflexivity | now left]]].
    destruct (getEnv h "PUP_API_TOKEN") as [c | e]; simpl;
      [| split; [reflexivity | split; [reflexivity | now left]]].
    destruct (getEnv h "PUP_PROCESS_ID") as [pid | e]; simpl;
      [| split; [reflexivity | split; [reflexivity | now left]]].
    destruct (truthy_str a && truthy_str b && truthy_str c); simpl;
      [| split; [reflexivity | split; [reflexivity | now left]]].
    destruct (responds h (NewRestClient _)) as [[] | e]; simpl;
      [| split; [reflexivity | split; [reflexivity | now left]]].
    destruct (responds h (ClientOn _ _)) as [[] | e]; simpl;
      (split; [unfold obj; simpl; rewrite list_lookup_total_insert; now case_decide |]);
      (split; [reflexivity |]).
    + right. now eexists.
    + now left.
Qed.

Lemma wired_calm (strategy : Strategy) (this : loc) (w w' : World) :
  wired strategy this w -> tidy this w' -> calm this w w' -> wired strategy this w'.
Proof.
  intros (T & Le & F & R) T' C. destruct T as (I & _).
  destruct (C I) as (_ & Lc & Rc & Pc).
  split; [exact T' |]. unfold inbound. rewrite Lc, Rc, Pc. now repeat split.
Qed.

Lemma calm_drop_watchdog (this : loc) (i : nat) (l : loc) (w : World) :
  awaiting w !! i = Some (TWatchdog l) -> calm this w (drop_task i w).
Proof.
  intros E I. split; [exact I |]. split; [now apply (listening_drop_watchdog i l) |].
  now split.
Qed.

Lemma calm_drop_timer (this : loc) (id : Handle) (w : World) : calm this w (drop_timer id w).
Proof. intros I. now repeat split. Qed.

(** One step of the event loop keeps the inbound path as it is wired. *)
Lemma wired_step (strategy : Strategy) (h : Host) (this : loc) (ev : Event) (w w' : World) :
  wired strategy this w -> step strategy h ev w = Some w' -> wired strategy this w'.
Proof.
  intros Wd E. pose proof Wd as (T & Le & F & R).
  destruct (step_shut strategy h this ev w w' T E T) as [T' _].
  pose proof T as (I & L & Tt & W & S).
  destruct ev as [arg | | target event eventData | event fn | event fn
                     | i | i messages | id | i payload]; simpl in E.
  - injection E as <-. apply (wired_calm strategy this w); [assumption .. |].
    apply calm_construct.
  - rewrite I in E. injection E as <-. apply (wired_calm strategy this w); [assumption .. |].
    apply calm_close.
  - rewrite I in E. injection E as <-. apply (wired_calm strategy this w); [assumption .. |].
    apply calm_emit.
  - rewrite I in E. injection E as <-. apply (wired_calm strategy this w); [assumption .. |].
    apply calm_on.
  - rewrite I in E. injection E as <-. apply (wired_calm strategy this w); [assumption .. |].
    apply calm_off.
  - destruct (awaiting w !! i) as [[l | l tmp pid | l path] |] eqn:Ei; try discriminate;
      injection E as <-;
      pose proof (Forall_lookup_1 _ _ _ _ W Ei) as El; simpl in El; subst l.
    + apply (wired_calm strategy this w); [assumption .. |].
      etransitivity; [now apply (calm_drop_watchdog this i this) |].
      apply (stable_at (calm this)), calm_finally.
    + destruct (listening_drop_inbound i _ w Ei eq_refl Le) as (E1 & E0 & Er).
      rewrite E1 in F. apply Forall_inv in F. destruct F as [Hs Hn]. subst strategy.
      destruct (resume_wires h this tmp pid (drop_task i w) L) as [Rw Aw].
      split; [exact T' |]. unfold inbound, listening_tasks in *. simpl in E0.
      rewrite Rw. simpl. rewrite Er. simpl.
      destruct Aw as [-> | (path & -> & Ep)]; simpl.
      * rewrite E0. simpl. split; [lia |]. split; [constructor | reflexivity].
      * rewrite List.filter_app, E0. simpl. split; [lia |]. split; [| reflexivity].
        repeat constructor. exact Ep.
  - destruct (awaiting w !! i) as [[l | l tmp pid | l path] |] eqn:Ei; try discriminate.
    injection E as <-.
    pose proof (Forall_lookup_1 _ _ _ _ W Ei) as El; simpl in El; subst l.
    destruct (listening_drop_inbound i _ w Ei eq_refl Le) as (E1 & E0 & Er).
    rewrite E1 in F. apply Forall_inv in F. destruct F as [Hs Hp]. subst strategy.
    destruct (batch_wires FileMailbox h this path messages (drop_task i w) I)
      as (Rw & Pw & Aw).
    split; [exact T' |]. unfold inbound. rewrite Rw, Pw. simpl. rewrite Er. simpl.
    change (obj (drop_task i w) this) with (obj w this). rewrite Hp.
    destruct Aw as [-> | ->]; rewrite E0; simpl.
    + split; [lia |]. split; [constructor | reflexivity].
    + split; [lia |]. split; [| reflexivity]. repeat constructor.
  - destruct (List.find _ (timers w)) as [t |] eqn:Ef; try discriminate.
    injection E as <-.
    apply (wired_calm strategy this w); [assumption .. |].
    etransitivity; [apply calm_drop_timer |].
    apply (stable_at (calm this)), calm_watchdog.
  - destruct (relayHandlers w !! i) as [[l pid] |] eqn:Ei; try discriminate.
    injection E as <-. apply (wired_calm strategy this w); [assumption .. |].
    apply calm_ipcHandler.
Qed.

Lemma wired_run (strategy : Strategy) (h : Host) (this : loc) (evs : list Event) :
  forall w w', wired strategy this w -> run strategy h evs w = Some w' ->
    wired strategy this w'.
Proof.
  induction evs as [| ev rest IH]; intros w w' B E; simpl in E.
  - now injection E as <-.
  - destruct (step strategy h ev w) as [w1 |] eqn:E1; [| discriminate].
    apply (IH w1 w'); [| exact E]. now apply (wired_step strategy h this ev w).
Qed.

(** The first construction wires the inbound path, once. *)
Lemma wired_constructed (strategy : Strategy) (h : Host) (arg : option Number) (w : World) :
  blank w -> wired strategy (length (heap w)) (constructed strategy h arg w).
Proof.
  intros B. pose proof (constructed_tidy strategy h arg w B) as T.
  destruct B as (I & Tm & W & S).
  split; [exact T |]. clear T. unfold constructed.
  set (this := length (heap w)).
  set (w0 := after (set_instance this) (after alloc w)).
  set (w1 := after (update this (set_intervalSeconds (clampInterval (defaultInterval arg)))) w0).
  set (w2 := after (detach (telemetryWatchdog strategy h this)) w1).
  assert (I0 : instance w0 = Some this) by reflexivity.
  assert (C1 : calm this w0 w1).
  { apply (stable_at (calm this)). apply calm_update. now intros []. }
  assert (C2 : calm this w1 w2) by apply (stable_at (calm this)), calm_watchdog.
  destruct (C1 I0) as (I1 & L1 & R1 & P1). destruct (C2 I1) as (I2 & L2 & R2 & P2).
  assert (L0 : listening_tasks w0 = []).
  { subst w0. unfold listening_tasks; simpl. now rewrite W. }
  assert (R0 : relayHandlers w0 = []) by (subst w0; simpl; exact S).
  assert (P0 : ipc (obj w0 this) = None).
  { subst w0 this. unfold obj; simpl. rewrite lookup_total_app_r by lia.
    now rewrite Nat.sub_diag. }
  destruct (checkIpc_wires strategy h this w2) as [Pw Hw].
  unfold inbound, listening_tasks in *. rewrite Pw, P2, P1, P0.
  destruct strategy.
  - destruct Hw as [Rw Aw]. rewrite Rw, R2, R1, R0.
    destruct Aw as [-> | (tmp & pid & ->)]; rewrite ?List.filter_app, L2, L1, L0; simpl.
    + split; [lia |]. split; [constructor | reflexivity].
    + split; [lia |]. split; [| reflexivity]. repeat constructor.
  - destruct Hw as [Aw Rw]. rewrite Aw, L2, L1, L0.
    split; [| split; [constructor | discriminate]].
    destruct Rw as [-> | (pid & ->)]; rewrite R2, R1, R0; simpl; lia.
Qed.

(** From the first construction on, the inbound path stays as wired. *)
Lemma reachable_wired (strategy : Strategy) (h : Host) (arg : option Number)
    (evs : list Event) (w : World) :
  run strategy h (New arg :: evs) initial = Some w -> wired strategy 0 w.
Proof.
  intros E. simpl in E.
  pose proof (wired_constructed strategy h arg initial initial_blank) as W0.
  change (length (heap initial)) with 0 in *.
  unfold after in E. rewrite (construct_first_eq strategy h arg initial eq_refl) in E.
  simpl in E. exact (wired_run strategy h 0 evs _ w W0 E).
Qed.

(** From the first construction on there is at most one inbound path in
    every world the event loop reaches: at most one activation of
    [checkIpc] waits, or at most one relay handler is subscribed, never
    both; [telemetry.ts] subscribes no handler and the relay variant
    suspends no activation.  No second construction, callback or message
    starts a second one. *)
Theorem inbound_path_is_one (strategy : Strategy) (h : Host) (arg : option Number)
    (evs : list Event) (w : World) :
  run strategy h (New arg :: evs) initial = Some w ->
  inbound w <= 1 /\
  (strategy = FileMailbox -> relayHandlers w = []) /\
  (strategy = SupervisorRelay -> listening_tasks w = []).
Proof.
  intros E. destruct (reachable_wired strategy h arg evs w E) as (_ & Le & F & R).
  split; [exact Le |]. split; [exact R |].
  intros ->. destruct (listening_tasks w) as [| t l] eqn:El; [reflexivity |].
  assert (Hin : In t (listening_tasks w)) by (rewrite El; now left).
  apply filter_In in Hin. destruct Hin as [_ Hi].
  apply Forall_inv in F. destruct t; simpl in *; [discriminate | |]; now destruct F.
Qed.

Lemma inbound_path_is_one_witness :
  inbound listening = 1 /\ relayHandlers listening = [].
Proof.
  destruct (inbound_path_is_one FileMailbox supervised None (tl setup) listening
              ltac:(vm_compute; reflexivity)) as (Le & R & _).
  split; [| exact (R eq_refl)].
  assert (0 < inbound listening) by (vm_compute; lia). lia.
Defined.

(** An activation of [checkIpc] that waits in a reachable world is the
    only one, belongs to the instance, and reads the mailbox [this.ipc]
    names, the one [close] closes; while it still waits for [isDir], no
    mailbox was opened. *)
Theorem waiting_loop_reads_stored_mailbox (strategy : Strategy) (h : Host)
    (arg : option Number) (evs : list Event) (w : World) (i : nat) (t : Task) :
  run strategy h (New arg :: evs) initial = Some w ->
  awaiting w !! i = Some t -> is_inbound t = true ->
  strategy = FileMailbox /\ listening_tasks w = [t] /\ task_this t = 0 /\
  match t with
  | TReceive _ path => ipc (obj w 0) = Some path
  | _ => ipc (obj w 0) = None
  end.
Proof.
  intros E Ei Ht. destruct (reachable_wired strategy h arg evs w E) as (T & Le & F & R).
  destruct (listening_drop_inbound i t w Ei Ht Le) as (E1 & _ & _).
  rewrite E1 in F. apply Forall_inv in F.
  destruct T as (_ & _ & _ & W & _).
  pose proof (Forall_lookup_1 _ _ _ _ W Ei) as El.
  destruct t; simpl in *; [discriminate | |]; destruct F as [Hs Hp]; now repeat split.
Qed.

Lemma waiting_loop_reads_stored_mailbox_witness :
  ipc (obj listening 0) = Some "/tmp/pup/.w1.ipc" /\
  listening_tasks listening = [TReceive 0 "/tmp/pup/.w1.ipc"].
Proof.
  destruct (waiting_loop_reads_stored_mailbox FileMailbox supervised None (tl setup)
              listening 0 (TReceive 0 "/tmp/pup/.w1.ipc")
              ltac:(vm_compute; reflexivity) ltac:(vm_compute; reflexivity) eq_refl)
    as (_ & El & _ & Ep).
  split; [exact Ep | exact El].
Defined.

(** ** Closing the transport *)

Lemma abort_obj (this : loc) (w : World) :
  this < length (heap w) ->
  obj (abort this w) this = set_aborted true (obj w this) /\
  log (abort this w) = log w /\ length (heap (abort this w)) = length (heap w) /\
  relayHandlers (abort this w) = relayHandlers w.
Proof.
  intros L. unfold abort.
  set (w1 := after (update this (set_aborted true)) w).
  assert (E1 : obj w1 this = set_aborted true (obj w this)) by now apply obj_update_eq.
  assert (L1 : length (heap w1) = length (heap w))
    by (unfold w1, after, update; simpl; apply length_insert).
  rewrite <- E1, <- L1. destruct (timer (obj w1 this)); now repeat split.
Qed.

(** [close] is: set the flag and clear the timer, close the transport if
    there is one, close the emitter. *)
Lemma close_unfolds (strategy : Strategy) (h : Host) (this : loc) (w : World) :
  this < length (heap w) ->
  close strategy h this w
  = match transport_close strategy (obj w this) with
    | Some c => (invoke h c;; events_close this) (abort this w)
    | None => events_close this (abort this w)
    end.
Proof.
  intros L. destruct (abort_obj this w L) as (Eo & _).
  destruct strategy; unfold close, close_mailbox, close_relay, transport_close;
    rewrite (bind_of (update _ _) _ w tt) by reflexivity;
    rewrite (bind_of (read this) _ _ (obj (after (update this (set_aborted true)) w) this))
      by reflexivity;
    rewrite clear_is_clearTimeout;
    rewrite (bind_of (clearTimeout _) _ _ tt) by apply clearTimeout_returns;
    change (after (read this) ?x) with x; fold (abort this w);
    rewrite (bind_of (read this) _ _ (obj (abort this w) this)) by reflexivity;
    change (after (read this) ?x) with x; rewrite Eo; simpl.
  - destruct (ipc (obj w this)); reflexivity.
  - destruct (ipcClient (obj w this)); reflexivity.
Qed.

(** [close] in the relay variant closes the client [checkIpc] built and
    then the emitter, and leaves the instance aborted and without
    listeners; it neither resets [ipcClient] nor takes the handler off the
    client. *)
Theorem close_relay_keeps_subscription (h : Host) (this : loc) (c : Client) (w : World) :
  ipcClient (obj w this) = Some c -> this < length (heap w) ->
  responds h (ClientClose c) = Returns tt ->
  let w1 := after (close SupervisorRelay h this) w in
  calls (close SupervisorRelay h this) w = [ClientClose c; EventsClose] /\
  aborted (obj w1 this) = true /\ events (obj w1 this) = [] /\
  ipcClient (obj w1 this) = Some c /\
  relayHandlers w1 = relayHandlers w.
Proof.
  intros Ec L Hr w1. subst w1.
  destruct (abort_obj this w L) as (Eo & El & Eh & Er).
  unfold calls, after. rewrite (close_unfolds SupervisorRelay h this w L).
  unfold transport_close. rewrite Ec. simpl option_map. cbv iota.
  unfold bind, invoke, events_close, record, update. rewrite Hr. simpl.
  rewrite El. own_log. unfold obj in *. simpl.
  rewrite !list_lookup_total_insert_eq by (rewrite Eh; exact L).
  rewrite Eo. simpl. now repeat split.
Qed.

Lemma close_relay_keeps_subscription_witness :
  exists c, calls (close SupervisorRelay supervised 0) relayed = [ClientClose c; EventsClose] /\
            length (relayHandlers (after (close SupervisorRelay supervised 0) relayed)) = 1.
Proof.
  destruct (ipcClient (obj relayed 0)) as [c |] eqn:Ec; [| vm_compute in Ec; discriminate].
  destruct (close_relay_keeps_subscription supervised 0 c relayed Ec)
    as (C & _ & _ & _ & R).
  - vm_compute. lia.
  - reflexivity.
  - exists c. split; [exact C |]. rewrite R. vm_compute. reflexivity.
Defined.

(** When closing the transport fails, in either variant, [close] throws
    that error after it has set the flag and cleared the timer, and
    before it closes the emitter: the instance is aborted, no timer is
    pending, and the listeners are still registered. *)
Theorem close_with_failing_transport (strategy : Strategy) (h : Host) (this : loc)
    (c : Call) (e : Error) (w : World) :
  tidy this w ->
  transport_close strategy (obj w this) = Some c ->
  responds h c = Throws e ->
  let w1 := after (close strategy h this) w in
  fst (close strategy h this w) = Throws e /\
  calls (close strategy h this) w = [c] /\
  aborted (obj w1 this) = true /\ timers w1 = [] /\
  events (obj w1 this) = events (obj w this).
Proof.
  intros T Ec Hr w1. subst w1. pose proof T as (_ & L & _).
  destruct (abort_obj this w L) as (Eo & El & Eh & Er).
  destruct (abort_tidy this w T) as (Ta & Aa & _).
  pose proof (tidy_no_timer this _ Ta Aa) as Tm.
  unfold calls, after. rewrite (close_unfolds strategy h this w L), Ec.
  unfold bind, invoke. rewrite Hr. simpl. rewrite El. own_log.
  change (obj (with_log (log w ++ [c]) (abort this w)) this) with (obj (abort this w) this).
  rewrite Eo. simpl. now repeat split.
Qed.

Lemma close_with_failing_transport_witness :
  fst (close FileMailbox failing_close 0 listening) = Throws (HostError "EBADF") /\
  events (obj (after (close FileMailbox failing_close 0) listening) 0)
  = [("stop", mkListener 0 HClose)].
Proof.
  destruct (close_with_failing_transport FileMailbox failing_close 0
              (IpcClose "/tmp/pup/.w1.ipc" false) (HostError "EBADF") listening)
    as (R & _ & _ & _ & Ev).
  - apply (reachable_tidy FileMailbox supervised setup); vm_compute; reflexivity.
  - vm_compute. reflexivity.
  - reflexivity.
  - split; [exact R |]. rewrite Ev. vm_compute. reflexivity.
Defined.

(** ** The first turn *)

Lemma grows_checkIpc (strategy : Strategy) (h : Host) (this : loc) :
  stable grows (detach (checkIpc strategy h this)).
Proof. unfold checkIpc, checkIpc_mailbox, checkIpc_relay. stable_auto. Qed.

(** The first construction in a process with an identity and a
    configured endpoint sends the first report at once, before the
    constructor returns, and arms no timer: the first turn of the watchdog
    is suspended at its [await], and the timer is armed only when that
    turn goes on. *)
Theorem first_report_is_immediate (strategy : Strategy) (h : Host) (arg : option Number)
    (pupProcessId hostname port token dir : string) (w : World) :
  blank w ->
  identified h pupProcessId ->
  configured h hostname port token ->
  probed h ->
  cwd h = Returns dir ->
  let client := mkClient (apiBaseUrl (Some hostname) (Some port)) token false in
  responds h (NewRestClient client) = Returns tt ->
  let w' := after (construct strategy h arg) w in
  exists data tail,
    calls (construct strategy h arg) w
    = NewRestClient client :: SendTelemetry client data :: tail /\
    opt_prop data "sender" = VStr pupProcessId /\
    timers w' = [] /\ watchdogs w' = 1.
Proof.
  intros B Hi Hc Hp Hd client Hnew w'. subst w'.
  pose proof B as (I & Tm & W & S).
  unfold calls, after. rewrite (construct_first_eq strategy h arg w I). simpl snd.
  unfold constructed.
  set (this := length (heap w)).
  set (w0 := after (set_instance this) (after alloc w)).
  assert (T0 : tidy this w0).
  { subst w0 this. unfold tidy; simpl. rewrite Tm, W, S, length_app. simpl.
    repeat split; try constructor. lia. }
  assert (H1 : stable (shut this)
                 (update this (set_intervalSeconds (clampInterval (defaultInterval arg)))))
    by stable_auto.
  destruct (H1 w0 T0) as [T1 _].
  set (w1 := after (update this (set_intervalSeconds (clampInterval (defaultInterval arg)))) w0)
    in *.
  assert (E1 : log w1 = log w /\ timers w1 = [] /\ awaiting w1 = []).
  { subst w1 w0. simpl. now repeat split. }
  destruct E1 as (G1 & Tm1 & W1).
  destruct (sendMainTelemetry_shape strategy h this pupProcessId dir w1 Hi Hp Hd)
    as (memory & Es & _).
  set (data := VObj [("sender", VStr pupProcessId); ("memory", memory);
                     ("sent", VStr (now h)); ("cwd", VStr dir)]) in *.
  destruct (emit_main_configured strategy h this hostname port token "telemetry" data w1
              Hc Hnew) as (tail & Ecalls & _).
  pose proof (detach_of_returns _ w1
                (emit_main_returns strategy h this "telemetry" data w1)) as Ed.
  destruct (logs_sendMainTelemetry strategy h this w1) as (added & Ea & _).
  assert (Eaft : after (emit strategy h this "main" "telemetry" data) w1
                 = with_log (log w1 ++ added) w1).
  { unfold after in Ea. rewrite Es, Ed in Ea. exact Ea. }
  assert (Eadded : added = NewRestClient client :: SendTelemetry client data :: tail).
  { etransitivity; [| exact Ecalls]. unfold calls. rewrite Eaft. simpl.
    now rewrite drop_app_length. }
  set (w2 := after (detach (telemetryWatchdog strategy h this)) w1).
  assert (E2 : w2 = after (suspend (TWatchdog this)) (with_log (log w1 ++ added) w1)).
  { unfold w2, after at 1.
    rewrite (detach_of_returns _ w1 (watchdog_returns strategy h this w1)). simpl snd.
    unfold after at 1. unfold telemetryWatchdog, on_outcome.
    rewrite Es, Ed, Eaft. reflexivity. }
  assert (H2 : stable (shut this) (detach (telemetryWatchdog strategy h this)))
    by stable_auto.
  destruct (H2 _ T1) as [T2 _]. fold w2 in T2.
  pose proof (quiet_detach this _ (quiet_checkIpc strategy h this) w2 T2)
    as (_ & W3 & _ & _ & M3).
  destruct (grows_checkIpc strategy h this w2) as (more & G3).
  exists data, (tail ++ more). split; [| split; [reflexivity | split]].
  - assert (Hl2 : log w2 = log w ++ added) by (rewrite E2; simpl; now rewrite ?G1).
    rewrite G3, Hl2, Eadded, <- app_assoc. now rewrite drop_app_length.
  - assert (Tm2 : timers w2 = []) by (rewrite E2; simpl; exact Tm1).
    destruct M3 as [-> | [-> _]]; [exact Tm2 | reflexivity].
  - rewrite W3, E2. unfold watchdogs; simpl. rewrite ?W1, ?W. reflexivity.
Qed.

Lemma first_report_is_immediate_witness :
  exists data tail,
    calls (construct FileMailbox supervised None) initial
    = NewRestClient (mkClient "http://127.0.0.1:16441" "secret" false)
      :: SendTelemetry (mkClient "http://127.0.0.1:16441" "secret" false) data :: tail /\
    opt_prop data "sender" = VStr "w1" /\
    timers (after (construct FileMailbox supervised None) initial) = [].
Proof.
  destruct (first_report_is_immediate FileMailbox supervised None
              "w1" "127.0.0.1" "16441" "secret" "/srv/app" initial)
    as (data & tail & E & Es & Et & _).
  - apply initial_blank.
  - split; [reflexivity | discriminate].
  - repeat split; try reflexivity; discriminate.
  - right. eexists. reflexivity.
  - reflexivity.
  - reflexivity.
  - exists data, tail. split; [exact E | split; [exact Es | exact Et]].
Defined.

(** ** A batch on an open instance *)

(** In a reachable world, a batch that arrives while the instance is not
    closed is always taken, whatever it holds and whatever the listeners do
    with it (throw, emit, construct, close the instance): the turn does not
    throw, and afterwards the same loop, and no other, waits for the next
    batch on the same mailbox. *)
Theorem batch_waits_again (strategy : Strategy) (h : Host) (arg : option Number)
    (evs : list Event) (w : World) (i : nat) (l : loc) (path : string)
    (messages : list Message) :
  run strategy h (New arg :: evs) initial = Some w ->
  awaiting w !! i = Some (TReceive l path) ->
  aborted (obj w 0) = false ->
  exists w',
    step strategy h (Batch i messages) w = Some w' /\
    fst (checkIpc_mailbox_batch strategy h l path messages (drop_task i w)) = Returns tt /\
    listening_tasks w' = [TReceive 0 path] /\
    ipc (obj w' 0) = Some path.
Proof.
  intros E Ei A. destruct (reachable_wired strategy h arg evs w E) as (T & Le & F & R).
  destruct (listening_drop_inbound i _ w Ei eq_refl Le) as (E1 & E0 & _).
  rewrite E1 in F. apply Forall_inv in F. destruct F as [_ Hp].
  pose proof T as (I & _ & _ & W & _).
  pose proof (Forall_lookup_1 _ _ _ _ W Ei) as El. simpl in El. subst l.
  set (w0 := drop_task i w) in *.
  set (X := if (0 <? length messages)%nat
            then process_messages strategy h 0 messages else ret tt).
  assert (HX : calm 0 w0 (after X w0)).
  { apply (stable_at (calm 0)). subst X. destruct (0 <? length messages)%nat.
    - apply calm_process_messages.
    - apply stable_ret; exact _. }
  assert (RX : fst (X w0) = Returns tt).
  { subst X. destruct (0 <? length messages)%nat;
      [apply process_messages_returns | reflexivity]. }
  destruct (HX I) as (_ & Lx & _ & Px).
  assert (Eb : checkIpc_mailbox_batch strategy h 0 path messages w0
               = (Returns tt, after (suspend (TReceive 0 path)) (after X w0))).
  { unfold checkIpc_mailbox_batch.
    rewrite (bind_of (read 0) _ w0 (obj w0 0)) by reflexivity.
    change (after (read 0) w0) with w0. change (obj w0 0) with (obj w 0). rewrite A.
    fold X. now rewrite (bind_of X _ w0 tt RX). }
  assert (Ew : after (detach (checkIpc_mailbox_batch strategy h 0 path messages)) w0
               = after (suspend (TReceive 0 path)) (after X w0)).
  { unfold after at 1, detach. now rewrite Eb. }
  exists (after (suspend (TReceive 0 path)) (after X w0)).
  split; [simpl; rewrite Ei; fold w0; now rewrite Ew |].
  split; [now rewrite Eb |]. split.
  - unfold listening_tasks in *; simpl. now rewrite List.filter_app, Lx, E0.
  - change (ipc (obj (after X w0) 0) = Some path). now rewrite Px.
Qed.

Lemma batch_waits_again_witness :
  exists w',
    step FileMailbox supervised (Batch 0 [garbage; stop_message; ping_message]) listening
    = Some w' /\
    listening_tasks w' = [TReceive 0 "/tmp/pup/.w1.ipc"].
Proof.
  destruct (batch_waits_again FileMailbox supervised None (tl setup) listening 0 0
              "/tmp/pup/.w1.ipc" [garbage; stop_message; ping_message])
    as (w' & Es & _ & El & _).
  - vm_compute. reflexivity.
  - vm_compute. reflexivity.
  - vm_compute. reflexivity.
  - exists w'. split; [exact Es | exact El].
Defined.
